(** * jive: the evaluation engine (server/src/engine.ts) and the lookup store

    A shallow embedding of the namespace store, the scope synthesizer, the
    CommonJS stubs, the source rewriter and [evaluate] of
    [src/server/src/engine.ts], and of the registration helpers of the
    lookup-based store (the second unnamed source file).

    Conventions of the embedding.
    - A JS [Map] keeps insertion order and [set] on a present key keeps its
      position: maps are association lists ([amap]) with [aget]/[aset].
    - Source text is taken after parsing: a fragment is a list of top-level
      statements ([stmt]).  Pure operators of the host language are given by
      their denotation ([EOp]); everything that touches the engine (name
      lookup, calls, member reads and writes) is interpreted here.
    - Objects are values (no aliasing between two holders of an object).
      A plain object has its own properties and the members every object
      inherits from [Object.prototype] ([objectProto]).
    - [var], function and class declarations and [import(...)] syntax are
      outside the modelled fragment; the [debug] flag only prints and is
      dropped. *)

From Stdlib Require Import Ascii String List ZArith Bool Lia.
Import ListNotations.
Open Scope string_scope.

Set Implicit Arguments.
Set Warnings "-register-all".

(** ** Insertion-ordered maps *)

Module AMap.
Section Defs.
Variables (K V : Type).
Variable eqb : K -> K -> bool.

Definition t := list (K * V).

Fixpoint aget (m : t) (k : K) : option V :=
  match m with
  | [] => None
  | (k', v) :: m' => if eqb k k' then Some v else aget m' k
  end.

(** [Map.prototype.set]: overwrite in place, or append. *)
Fixpoint aset (m : t) (k : K) (v : V) : t :=
  match m with
  | [] => [(k, v)]
  | (k', v') :: m' =>
      if eqb k k' then (k', v) :: m' else (k', v') :: aset m' k v
  end.

Definition values (m : t) : list V := map snd m.
End Defs.
End AMap.

Abbreviation amap := AMap.t.
Abbreviation aget := AMap.aget.
Abbreviation aset := AMap.aset.

Definition sget {V} (m : amap string V) (k : string) : option V :=
  aget String.eqb m k.
Definition sset {V} (m : amap string V) (k : string) (v : V) : amap string V :=
  aset String.eqb m k v.

(** ** Data model (engine.ts, lines 12-49) *)

(** [string | symbol]: the key of an export, or what an import asks for. *)
Inductive ekey :=
| KName (s : string)
| KDefault        (* symbols.defaultExport *)
| KNamespace.     (* symbols.namespaceExport *)

Definition ekey_eqb (a b : ekey) : bool :=
  match a, b with
  | KName x, KName y => String.eqb x y
  | KDefault, KDefault => true
  | KNamespace, KNamespace => true
  | _, _ => false
  end.

Record Export := mkExport { exported : ekey; exp_local : string }.

(** Functions the engine puts into the execution context, and the closures
    it creates per call. *)
Inductive builtin :=
| BRegisterValue
| BRegisterValueExport
| BRegisterValueImport
| BRegisterDefaultValueExport
| BDynamicImport
| BRequire (ns : string) (evalImports : bool)   (* requireStub *)
| BConsoleError.

Inductive value :=
| VUndef
| VBool (b : bool)
| VNum (z : Z)
| VStr (s : string)
| VSym (description : string)
| VObj (fields : list (string * value))
| VExport (e : Export)               (* an [Export] record seen as an object *)
| VModule (ns : string) (id : nat)   (* the moduleStub of one call on [ns] *)
| VExportsStub (ns : string)         (* exportsStub of a call on [ns] *)
| VBuiltin (b : builtin)
| VConsole                           (* the host's console *)
| VPromise (v : value)               (* Promise.resolve(v) *)
| VHost (id : string)                (* any other host object *)
| VError (msg : string).

Record Import := mkImport {
  importedNamespace : string;
  imported : ekey;
  imp_local : string;
  isBuiltIn : bool
}.

(** The three process-wide maps [namespaces], [valueExports],
    [valueImports]. *)
Record store := mkStore {
  namespaces : amap string (amap string value);
  valueExports : amap string (amap ekey Export);
  valueImports : amap string (amap string Import)
}.

Definition empty_store : store := mkStore [] [] [].

(** The store, the number of uuids drawn so far, what was written to
    standard error, and the target object of every module stub created so
    far (a stub is created by each call of [evaluate]). *)
Record world := mkWorld {
  st : store;
  uuids : nat;
  stderr : list value;
  modules : list (amap string value)
}.

Definition empty_world : world := mkWorld empty_store 0 [] [].

Definition with_store (w : world) (s : store) : world :=
  mkWorld s (uuids w) (stderr w) (modules w).

Definition log_err (w : world) (vs : list value) : world :=
  mkWorld (st w) (uuids w) (stderr w ++ vs) (modules w).

(** [namespaces.set(ns, new Map())] of the import visitor. *)
Definition mark (w : world) (ns : string) : world :=
  with_store w (mkStore (sset (namespaces (st w)) ns [])
                        (valueExports (st w)) (valueImports (st w))).

(** A new module stub, [new Proxy({ exports: exportsStub }, ...)]. *)
Definition with_module_stub (w : world) (ns : string) : world :=
  mkWorld (st w) (uuids w) (stderr w)
          (modules w ++ [[("exports", VExportsStub ns)]]).

(** [namespaces.get(ns) || new Map()] and its siblings. *)
Definition ns_values (s : store) (ns : string) : amap string value :=
  match sget (namespaces s) ns with Some m => m | None => [] end.
Definition ns_exports (s : store) (ns : string) : amap ekey Export :=
  match sget (valueExports s) ns with Some m => m | None => [] end.
Definition ns_imports (s : store) (ns : string) : amap string Import :=
  match sget (valueImports s) ns with Some m => m | None => [] end.

(** [!namespaces.get(ns)] is false as soon as an entry exists: a [Map] is
    truthy even when empty. *)
Definition marked (s : store) (ns : string) : bool :=
  match sget (namespaces s) ns with Some _ => true | None => false end.

(** ** Registration helpers (engine.ts, lines 222-262) *)

Definition registerValue (s : store) (ns key : string) (v : value) : store :=
  mkStore (sset (namespaces s) ns (sset (ns_values s ns) key v))
          (valueExports s) (valueImports s).

Definition registerValueExport (s : store) (ns local : string) (exp : ekey)
  : store :=
  mkStore (namespaces s)
          (sset (valueExports s) ns
                (aset ekey_eqb (ns_exports s ns) exp (mkExport exp local)))
          (valueImports s).

Definition registerDefaultValueExport (s : store) (ns local : string) : store :=
  mkStore (namespaces s)
          (sset (valueExports s) ns
                (aset ekey_eqb (ns_exports s ns) KDefault
                      (mkExport KDefault local)))
          (valueImports s).

Definition defaultExport_toString : string := "Symbol([[defaultExport]])".

(** [registerValueImport] after [normalizeImportPath] returned [abs]. *)
Definition registerValueImport_at (s : store) (importing local : string)
    (imp : ekey) (abs : string) (builtIn : bool) : store :=
  mkStore (namespaces s) (valueExports s)
          (sset (valueImports s) importing
                (sset (ns_imports s importing) local
                      (mkImport abs imp local builtIn))).

(** ** Fragments after parsing *)

Inductive result (A : Type) :=
| Ok (a : A)
| Throw (e : value).
Arguments Ok {A} a.
Arguments Throw {A} e.

Inductive expr :=
| EConst (v : value)
| EVar (x : string)
| EOp (f : list value -> result value) (args : list expr)
| EMember (e : expr) (p : string)
| ECall (callee : expr) (args : list expr)
| EAssignMember (obj : expr) (p : string) (e : expr).

Inductive declKind := KConst | KLet.

Inductive importSpec :=
| ImportNamespaceSpecifier (local : string)
| ImportDefaultSpecifier (local : string)
| ImportSpecifier (local imported : string).

Inductive stmt :=
| SExpr (e : expr)
| SReturn (e : expr)                               (* only made by the rewriter *)
| SDecl (k : declKind) (ds : list (string * expr)) (* const x = e, y = e' *)
| SThrow (e : expr)
| SImport (source : string) (specs : list importSpec)
| SExportNamed (specs : list (string * string))    (* export { local as exported } *)
| SExportDecl (k : declKind) (ds : list (string * expr))
| SExportDefaultId (x : string)                    (* export default x *)
| SExportDefaultExpr (e : expr)                    (* export default <expression> *)
| SExportAll (source : string).                    (* export * from 'source' *)

Definition program := list stmt.

(** ** The host: module resolution, disk, loader, globals *)

Record Host := mkHost {
  (* createRequire(from).resolve(specifier) *)
  resolve : string -> string -> result string;
  (* fs.readFileSync(path), parsed *)
  readFile : string -> result program;
  (* createRequire(from)(id) *)
  hostRequire : string -> string -> result value;
  (* a property read the engine does not decide *)
  hostGet : value -> string -> result value;
  (* a call of a host function *)
  hostCall : string -> list value -> result value;
  (* the n-th string drawn from uuid() *)
  uuid : nat -> string;
  (* path.dirname *)
  dirname : string -> string;
  (* the own properties of [global] *)
  globals : amap string value
}.

(** [path.isAbsolute] (POSIX). *)
Definition isAbsolute (p : string) : bool :=
  match p with
  | String c _ => Ascii.eqb c "/"%char
  | EmptyString => false
  end.

(** ** Computations: state, exceptions, and the two ways the model stops *)

Inductive run (S A : Type) :=
| Done (s : S) (r : result A)
| OutOfFuel
| Unsupported.
Arguments Done {S A} s r.
Arguments OutOfFuel {S A}.
Arguments Unsupported {S A}.

Definition M (S A : Type) := S -> run S A.

Definition ret {S A} (a : A) : M S A := fun s => Done s (Ok a).
Definition throw {S A} (e : value) : M S A := fun s => Done s (Throw e).
Definition unsupported {S A} : M S A := fun _ => Unsupported.
Definition bind {S A B} (m : M S A) (k : A -> M S B) : M S B :=
  fun s =>
    match m s with
    | Done s' (Ok a) => k a s'
    | Done s' (Throw e) => Done s' (Throw e)
    | OutOfFuel => OutOfFuel
    | Unsupported => Unsupported
    end.
Definition lift {S A} (r : result A) : M S A := fun s => Done s r.
Definition get {S} : M S S := fun s => Done s (Ok s).
Definition modify {S} (f : S -> S) : M S unit := fun s => Done (f s) (Ok tt).

Notation "x <- m ;; k" := (bind m (fun x => k))
  (at level 61, m at next level, right associativity).
Notation "m ;;; k" := (bind m (fun _ => k))
  (at level 61, right associativity).

(** ** JS primitives the engine relies on *)

Definition truthy (v : value) : bool :=
  match v with
  | VUndef => false
  | VBool b => b
  | VNum z => negb (Z.eqb z 0)
  | VStr s => negb (String.eqb s "")
  | _ => true
  end.

Definition typeError (msg : string) : value := VError ("TypeError: " ++ msg).
Definition referenceError (x : string) : value :=
  VError ("ReferenceError: " ++ x ++ " is not defined").

Definition value_of_ekey (k : ekey) : value :=
  match k with
  | KName s => VStr s
  | KDefault => VSym "[[defaultExport]]"
  | KNamespace => VSym "[[namespaceExport]]"
  end.

Definition or_undef (o : option value) : value :=
  match o with Some v => v | None => VUndef end.

(** What every plain object inherits: the property names of
    [Object.prototype]. *)
Definition objectProto : amap string value :=
  map (fun x => (x, VHost ("Object.prototype." ++ x)))
      ["constructor"; "__defineGetter__"; "__defineSetter__";
       "hasOwnProperty"; "__lookupGetter__"; "__lookupSetter__";
       "isPrototypeOf"; "propertyIsEnumerable"; "toString"; "valueOf";
       "__proto__"; "toLocaleString"].

(** [name in obj] and [obj[name]] on a plain object. *)
Definition obj_find (o : amap string value) (p : string) : option value :=
  match sget o p with
  | Some v => Some v
  | None => sget objectProto p
  end.
Definition obj_get (o : amap string value) (p : string) : value :=
  or_undef (obj_find o p).

Fixpoint list_set {A} (l : list A) (i : nat) (a : A) : list A :=
  match l, i with
  | [], _ => []
  | _ :: l', O => a :: l'
  | x :: l', S i' => x :: list_set l' i' a
  end.

Definition is_nil {A} (l : list A) : bool :=
  match l with [] => true | _ => false end.

(** ** The engine, over a host and over what a nested [evaluate] does *)

Section Engine.
Variable h : Host.
(** The call of [evaluate] made from inside the engine. *)
Variable rec_evaluate : string -> program -> bool -> M world value.

(** engine.ts, lines 533-541. *)
Definition normalizeImportPath (importing imp : string) : M world string :=
  fun w =>
    match resolve h importing imp with
    | Ok p => Done w (Ok p)
    | Throw e =>
        Done (log_err w [VStr "Failed to normalize import path: "; e])
             (Throw e)
    end.

(** engine.ts, lines 250-262. *)
Definition registerValueImport (importing local : string) (imp : ekey)
    (importedNs : string) (builtIn : bool) : M world string :=
  abs <- normalizeImportPath importing importedNs ;;
  modify (fun w => with_store w
            (registerValueImport_at (st w) importing local imp abs builtIn)) ;;;
  ret local.

(** engine.ts, lines 205-220.  [fromPairs] assigns the pairs in order. *)
Definition constructNamespaceExport (s : store) (ns : string) : value :=
  let values := ns_values s ns in
  VObj (fold_left
          (fun o e =>
             let v := or_undef (sget values (exp_local e)) in
             match exported e with
             | KDefault => sset o "default" v
             | KName x => sset o x v
             | KNamespace => o   (* a symbol key: no named read sees it *)
             end)
          (AMap.values (ns_exports s ns)) []).

(** engine.ts, lines 61-62. *)
Definition default_export_value (s : store) (ns : string) : value :=
  match aget ekey_eqb (ns_exports s ns) KDefault with
  | Some e => or_undef (sget (ns_values s ns) (exp_local e))
  | None => VUndef
  end.

(** The optional recursive evaluation of a user module read from disk. *)
Definition eval_from_disk (path : string) (ev : bool) : M world unit :=
  if ev then
    code <- lift (readFile h path) ;;
    rec_evaluate path code ev ;;;
    ret tt
  else ret tt.

(** engine.ts, lines 51-64. *)
Definition requireCustom (importing imp : string) (ev : bool) : M world value :=
  requiredNsNormalized <- normalizeImportPath importing imp ;;
  let builtIn := negb (isAbsolute imp) in
  if builtIn then lift (hostRequire h importing requiredNsNormalized)
  else
    eval_from_disk requiredNsNormalized ev ;;;
    w <- get ;;
    ret (default_export_value (st w) requiredNsNormalized).

(** engine.ts, lines 264-280. *)
Definition dynamicImport (importing imp : string) (ev : bool) : M world value :=
  importedNamespaceNormalized <- normalizeImportPath importing imp ;;
  let builtIn := negb (isAbsolute importedNamespaceNormalized) in
  if builtIn then
    m <- lift (hostRequire h importing importedNamespaceNormalized) ;;
    ret (VPromise m)
  else
    eval_from_disk importedNamespaceNormalized ev ;;;
    w <- get ;;
    ret (VPromise (constructNamespaceExport (st w) importedNamespaceNormalized)).

(** *** The CommonJS stubs (engine.ts, lines 102-146) *)

(** [exportsStub], trap [get]. *)
Definition exportsStub_get (s : store) (ns p : string) : value :=
  match find (fun e => String.eqb (exp_local e) p)
             (AMap.values (ns_exports s ns)) with
  | Some e => VExport e
  | None => VUndef
  end.

(** [const id = uuid(); registerValue(ns, id, v);
    registerDefaultValueExport(ns, id)]. *)
Definition register_fresh_default (ns : string) (v : value) : M world unit :=
  modify (fun w =>
    let id := uuid h (uuids w) in
    mkWorld (registerDefaultValueExport (registerValue (st w) ns id v) ns id)
            (S (uuids w)) (stderr w) (modules w)).

(** [exportsStub], trap [set].  The object held by the store is updated
    where the source mutates it; a truthy default export that is not a
    plain object is outside the model. *)
Definition exportsStub_set (ns p : string) (v : value) : M world unit :=
  w <- get ;;
  match aget ekey_eqb (ns_exports (st w) ns) KDefault with
  | Some e =>
      if negb (String.eqb (exp_local e) "") then
        match sget (ns_values (st w) ns) (exp_local e) with
        | Some (VObj fs) =>
            modify (fun w => with_store w
              (registerValue (st w) ns (exp_local e) (VObj (sset fs p v))))
        | Some d => if truthy d then unsupported else ret tt
        | None => ret tt
        end
      else register_fresh_default ns (VObj [(p, v)])
  | None => register_fresh_default ns (VObj [(p, v)])
  end.

(** [moduleStub], trap [set]. *)
Definition moduleStub_set (ns : string) (id : nat) (p : string) (v : value)
  : M world unit :=
  modify (fun w =>
    mkWorld (st w) (uuids w) (stderr w)
            (list_set (modules w) id (sset (nth id (modules w) []) p v))) ;;;
  if String.eqb p "exports" then register_fresh_default ns v else ret tt.

(** *** Member reads and writes, calls *)

Definition get_prop (v : value) (p : string) : M world value :=
  match v with
  | VModule _ id => w <- get ;; ret (obj_get (nth id (modules w) []) p)
  | VExportsStub ns => w <- get ;; ret (exportsStub_get (st w) ns p)
  | VObj fs => ret (obj_get fs p)
  | VExport e =>
      if String.eqb p "exported" then ret (value_of_ekey (exported e))
      else if String.eqb p "local" then ret (VStr (exp_local e))
      else ret (obj_get [] p)
  | VUndef => throw (typeError "Cannot read properties of undefined")
  | VConsole =>
      if String.eqb p "error" then ret (VBuiltin BConsoleError)
      else lift (hostGet h v p)
  | _ => lift (hostGet h v p)
  end.

Definition set_prop (o : value) (p : string) (v : value) : M world value :=
  match o with
  | VModule ns id => moduleStub_set ns id p v ;;; ret v
  | VExportsStub ns => exportsStub_set ns p v ;;; ret v
  | VUndef => throw (typeError "Cannot set properties of undefined")
  | _ => unsupported
  end.

Definition apply_builtin (b : builtin) (args : list value) : M world value :=
  let arg i := nth i args VUndef in
  match b with
  | BRegisterValue =>
      match arg 0%nat, arg 1%nat with
      | VStr ns, VStr key =>
          modify (fun w => with_store w (registerValue (st w) ns key (arg 2%nat))) ;;;
          ret (arg 2%nat)
      | _, _ => unsupported
      end
  | BRegisterValueExport =>
      match arg 0%nat, arg 1%nat, arg 2%nat with
      | VStr ns, VStr local, VStr exp =>
          modify (fun w => with_store w
                    (registerValueExport (st w) ns local (KName exp))) ;;;
          ret (VStr exp)
      | _, _, _ => unsupported
      end
  | BRegisterDefaultValueExport =>
      match arg 0%nat, arg 1%nat with
      | VStr ns, VStr local =>
          modify (fun w => with_store w
                    (registerDefaultValueExport (st w) ns local)) ;;;
          ret (VStr defaultExport_toString)
      | _, _ => unsupported
      end
  | BRegisterValueImport =>
      match arg 0%nat, arg 1%nat, arg 2%nat, arg 3%nat with
      | VStr importing, VStr local, VStr imp, VStr importedNs =>
          l <- registerValueImport importing local (KName imp) importedNs
                 (truthy (arg 4%nat)) ;;
          ret (VStr l)
      | _, _, _, _ => unsupported
      end
  | BDynamicImport =>
      match arg 0%nat, arg 1%nat with
      | VStr importing, VStr imp => dynamicImport importing imp (truthy (arg 2%nat))
      | _, _ => unsupported
      end
  | BRequire ns ev =>
      match arg 0%nat with
      | VStr imp => requireCustom ns imp ev
      | _ => unsupported
      end
  | BConsoleError => modify (fun w => log_err w args) ;;; ret VUndef
  end.

Definition apply (f : value) (args : list value) : M world value :=
  match f with
  | VBuiltin b => apply_builtin b args
  | VHost id => lift (hostCall h id args)
  | _ => throw (typeError "not a function")
  end.

(** *** The synthesized scope (engine.ts, lines 74-100 and 147-201) *)

Record scope := mkScope {
  nsForScope : amap string value;          (* inner [with] *)
  nsImportsForScope : amap string value;   (* outer [with] *)
  context : amap string value              (* the contextified global *)
}.

(** Identifier resolution outside the wrapper function: the inner [with]
    object, then the outer one, then the global of the context.  Both
    [with] objects are plain objects. *)
Definition scope_lookup (sc : scope) (x : string) : option value :=
  match obj_find (nsForScope sc) x with
  | Some v => Some v
  | None =>
      match obj_find (nsImportsForScope sc) x with
      | Some v => Some v
      | None => sget (context sc) x
      end
  end.

(** Block-scoped names of the running fragment; [None] before
    initialisation. *)
Definition locals := amap string (option value).

Definition lookup (sc : scope) (ls : locals) (x : string) : result value :=
  match sget ls x with
  | Some (Some v) => Ok v
  | Some None =>
      Throw (VError ("ReferenceError: Cannot access " ++ x
                       ++ " before initialization"))
  | None =>
      match scope_lookup sc x with
      | Some v => Ok v
      | None => Throw (referenceError x)
      end
  end.

(** Arguments, left to right. *)
Definition eval_list (eval : expr -> M world value)
  : list expr -> M world (list value) :=
  fix go (es : list expr) : M world (list value) :=
    match es with
    | [] => ret []
    | a :: es' =>
        v <- eval a ;;
        vs <- go es' ;;
        ret (v :: vs)
    end.

Fixpoint eval_expr (sc : scope) (ls : locals) (e : expr) : M world value :=
  match e with
  | EConst v => ret v
  | EVar x => lift (lookup sc ls x)
  | EOp f args => vs <- eval_list (eval_expr sc ls) args ;; lift (f vs)
  | EMember o p => v <- eval_expr sc ls o ;; get_prop v p
  | ECall c args =>
      f <- eval_expr sc ls c ;;
      vs <- eval_list (eval_expr sc ls) args ;;
      apply f vs
  | EAssignMember o p e' =>
      ov <- eval_expr sc ls o ;;
      v <- eval_expr sc ls e' ;;
      set_prop ov p v
  end.

Fixpoint exec_decls (sc : scope) (ls : locals) (ds : list (string * expr))
  : M world locals :=
  match ds with
  | [] => ret ls
  | (x, e) :: ds' =>
      v <- eval_expr sc ls e ;;
      exec_decls sc (sset ls x (Some v)) ds'
  end.

(** How a statement list ends: it ran to its end (with the block's
    names), or a [return] ran. *)
Inductive completion :=
| Normal (ls : locals)
| Returned (v : value).

(** Statements of a rewritten fragment.  Module syntax left in the
    rewritten text is outside the model. *)
Fixpoint exec_stmts (sc : scope) (ls : locals) (ss : program)
  : M world completion :=
  match ss with
  | [] => ret (Normal ls)
  | s :: rest =>
      match s with
      | SExpr e => eval_expr sc ls e ;;; exec_stmts sc ls rest
      | SReturn e => v <- eval_expr sc ls e ;; ret (Returned v)
      | SDecl _ ds => ls' <- exec_decls sc ls ds ;; exec_stmts sc ls' rest
      | SThrow e => v <- eval_expr sc ls e ;; throw v
      | _ => unsupported
      end
  end.

Definition declared_names (ss : program) : list string :=
  flat_map (fun s => match s with
                     | SDecl _ ds => map fst ds
                     | SExportDecl _ ds => map fst ds
                     | _ => []
                     end) ss.

Definition initial_locals (ss : program) : locals :=
  fold_left (fun ls x => sset ls x None) (declared_names ss) [].

(** [console.error(e)] of the wrapper's handler, names resolved like any
    other of the wrapped text. *)
Definition handler : expr :=
  ECall (EMember (EVar "console") "error") [EVar "e"].

(** The wrapper run by [vm.runInContext] (engine.ts, lines 175-186). *)
Definition run_wrapped (sc : scope) (codeTransformed : program)
  : M world value :=
  fun w =>
    match exec_stmts sc (initial_locals codeTransformed) codeTransformed w with
    | Done w' (Ok (Returned v)) => Done w' (Ok v)
    | Done w' (Ok (Normal _)) => Done w' (Ok VUndef)
    | Done w' (Throw e) =>
        (eval_expr sc [("e", Some e)] handler ;;; ret VUndef) w'
    | OutOfFuel => OutOfFuel
    | Unsupported => Unsupported
    end.

(** *** The source rewriter (engine.ts, lines 282-531) *)

Definition call_helper (name : string) (args : list expr) : stmt :=
  SExpr (ECall (EVar name) args).

Definition reg_value (file x : string) : stmt :=
  call_helper "registerValue" [EConst (VStr file); EConst (VStr x); EVar x].
Definition reg_export (file local exp : string) : stmt :=
  call_helper "registerValueExport"
              [EConst (VStr file); EConst (VStr local); EConst (VStr exp)].
Definition reg_default (file local : string) : stmt :=
  call_helper "registerDefaultValueExport"
              [EConst (VStr file); EConst (VStr local)].

(** The [Program] visitor: each binding of the top scope, in order, gets
    its registration right after the statement that declares it (so the
    registrations of one statement end up in reverse order). *)
Definition program_enter (file : string) (ss : program) : program :=
  flat_map (fun s =>
              match s with
              | SDecl _ ds | SExportDecl _ ds =>
                  s :: map (reg_value file) (rev (map fst ds))
              | _ => [s]
              end) ss.

(** The [switch] over the specifier type: what each kind asks for. *)
Definition spec_local (sp : importSpec) : string :=
  match sp with
  | ImportNamespaceSpecifier local => local
  | ImportDefaultSpecifier local => local
  | ImportSpecifier local _ => local
  end.
Definition spec_imported (sp : importSpec) : ekey :=
  match sp with
  | ImportNamespaceSpecifier _ => KNamespace
  | ImportDefaultSpecifier _ => KDefault
  | ImportSpecifier _ imp => KName imp
  end.

Fixpoint registerSpecifiers (file source : string) (builtIn : bool)
    (specs : list importSpec) : M world unit :=
  match specs with
  | [] => ret tt
  | sp :: specs' =>
      registerValueImport file (spec_local sp) (spec_imported sp)
                          source builtIn ;;;
      registerSpecifiers file source builtIn specs'
  end.

(** [ImportDeclaration.enter]. *)
Definition importEnter (file : string) (ev : bool) (source : string)
    (specs : list importSpec) : M world unit :=
  importedNs <- normalizeImportPath file source ;;
  let builtIn := negb (isAbsolute importedNs) in
  w <- get ;;
  (if negb builtIn && ev && negb (marked (st w) importedNs) then
     modify (fun w => mark w importedNs) ;;;
     code <- lift (readFile h importedNs) ;;
     rec_evaluate importedNs code ev ;;;
     ret tt
   else ret tt) ;;;
  registerSpecifiers file source builtIn specs.

(** The statement visitors, in traversal order.  [rest] is what follows
    the visited statement at that moment.  A statement a visitor inserts
    is visited after all the others: it is flagged, and [finish] applies
    the [ExpressionStatement] visitor to it. *)
Fixpoint visit (file : string) (ev : bool) (ss : program)
  : M world (list (stmt * bool)) :=
  match ss with
  | [] => ret []
  | s :: rest =>
      match s with
      | SExpr e =>
          r <- visit file ev rest ;;
          ret ((if is_nil rest then SReturn e else SExpr e, false) :: r)
      | SImport source specs =>
          importEnter file ev source specs ;;;
          visit file ev rest
      | SExportNamed specs =>
          r <- visit file ev rest ;;
          ret (match specs with
               | [] => [(s, false)]
               | _ => map (fun le => (reg_export file (fst le) (snd le), true))
                          (rev specs)
               end ++ r)%list
      | SExportDecl k ds =>
          r <- visit file ev rest ;;
          ret ((SDecl k ds, false)
                 :: map (fun x => (reg_export file x x, true))
                        (rev (map fst ds)) ++ r)%list
      | SExportDefaultId x =>
          r <- visit file ev rest ;;
          ret ((SExpr (EVar x), false) :: (reg_default file x, true) :: r)
      | SExportDefaultExpr _ => throw (VError "Unexpected: Default export")
      | _ =>
          r <- visit file ev rest ;;
          ret ((s, false) :: r)
      end
  end.

Fixpoint finish (r : list (stmt * bool)) : program :=
  match r with
  | [] => []
  | (s, inserted) :: r' =>
      match s, inserted, r' with
      | SExpr e, true, [] => [SReturn e]
      | _, _, _ => s :: finish r'
      end
  end.

Definition transform (ns : string) (code : program) (ev : bool)
  : M world program :=
  r <- visit ns ev (program_enter ns code) ;;
  ret (finish r).

(** *** [evaluate] (engine.ts, lines 66-203) *)

(** One turn of the loop over the imports of the namespace. *)
Definition importValue (s : store) (ns : string) (i : Import) : M world value :=
  if negb (isBuiltIn i) && ekey_eqb (imported i) KNamespace then
    ret (constructNamespaceExport s (importedNamespace i))
  else if isBuiltIn i then
    m <- lift (hostRequire h ns (importedNamespace i)) ;;
    match imported i with
    | KDefault => ret m
    | KNamespace => ret m
    | KName x => get_prop m x
    end
  else
    match aget ekey_eqb (ns_exports s (importedNamespace i)) (imported i) with
    | Some e => ret (or_undef (sget (ns_values s (importedNamespace i))
                                    (exp_local e)))
    | None => ret VUndef
    end.

Fixpoint synthImports (s : store) (ns : string)
    (entries : list (string * Import)) (acc : amap string value)
  : M world (amap string value) :=
  match entries with
  | [] => ret acc
  | (local, i) :: rest =>
      v <- importValue s ns i ;;
      synthImports s ns rest (sset acc local v)
  end.

(** Object spread and [fromPairs]: own properties assigned in order. *)
Definition spread (base ext : amap string value) : amap string value :=
  fold_left (fun o kv => sset o (fst kv) (snd kv)) ext base.

Definition cjsStubs (ns : string) (id : nat) (ev : bool) : amap string value :=
  [("module", VModule ns id);
   ("exports", VExportsStub ns);
   ("require", VBuiltin (BRequire ns ev));
   ("__filename", VStr ns);
   ("__dirname", VStr (dirname h ns))].

Definition helpers (nsI nsF : amap string value) : amap string value :=
  [("nsImportsForScope", VObj nsI);
   ("nsForScope", VObj nsF);
   ("registerValue", VBuiltin BRegisterValue);
   ("registerValueExport", VBuiltin BRegisterValueExport);
   ("registerValueImport", VBuiltin BRegisterValueImport);
   ("registerDefaultValueExport", VBuiltin BRegisterDefaultValueExport);
   ("dynamicImport", VBuiltin BDynamicImport)].

(** The copy of the own properties of [global]. *)
Definition vmGlobal : amap string value := spread [] (globals h).

(** [{ ...vmGlobal, ...cjsStubs, nsImportsForScope, nsForScope,
    registerValue, ... }]. *)
Definition make_context (ns : string) (id : nat) (ev : bool)
    (nsI nsF : amap string value) : amap string value :=
  spread (spread vmGlobal (cjsStubs ns id ev)) (helpers nsI nsF).

Definition make_scope (ns : string) (id : nat) (ev : bool)
    (nsI : amap string value) (values : amap string value) : scope :=
  let nsF := spread [] values in
  mkScope nsF nsI (make_context ns id ev nsI nsF).

Definition evaluate_body (ns : string) (code : program) (ev : bool)
  : M world value :=
  codeTransformed <- transform ns code ev ;;
  w <- get ;;
  nsI <- synthImports (st w) ns (ns_imports (st w) ns) [] ;;
  w1 <- get ;;
  let id := length (modules w1) in
  modify (fun w => with_module_stub w ns) ;;;
  run_wrapped (make_scope ns id ev nsI (ns_values (st w) ns)) codeTransformed.
End Engine.

(** [evaluate], the recursion unfolded at most [fuel] calls deep. *)
Fixpoint evaluate (h : Host) (fuel : nat) (ns : string) (code : program)
    (ev : bool) : M world value :=
  match fuel with
  | O => fun _ => OutOfFuel
  | S fuel' => evaluate_body h (evaluate h fuel') ns code ev
  end.

(** ** The lookup-based store (second unnamed source file, lines 7-66) *)

Module Lookup.

(** What a values lookup holds: a value, or an [Import] instance. *)
Inductive lvalue :=
| LVal (v : value)
| LImport (namespace importedNamespace : string) (local : ekey).

Record lstore := mkLStore {
  valuesLookup : amap string (amap string lvalue);
  exportsLookup : amap string (amap ekey string)
}.

Definition empty : lstore := mkLStore [] [].

(** Modelled from the spec: [objGet] of [./utils], which is not among the
    sources.  "Entries are created lazily on first write per namespace":
    the entry under [key] is returned, after being created with the
    default when absent (registrations write into what it returns). *)
Definition objGet {A} (lookup : amap string A) (key : string) (dflt : A)
  : amap string A * A :=
  match sget lookup key with
  | Some a => (lookup, a)
  | None => (sset lookup key dflt, dflt)
  end.

(** [symbols.defaultExport.toString()], the symbol being
    [Symbol('defaultExport')] in this file. *)
Definition defaultExport_toString : string := "Symbol(defaultExport)".

(** [key in values], [values] a plain object. *)
Definition has_key {A} (values : amap string A) (key : string) : bool :=
  match sget values key with
  | Some _ => true
  | None => match sget objectProto key with Some _ => true | None => false end
  end.

Definition doRegisterValue (s : lstore) (ns key : string) (v : lvalue)
  : lstore * lvalue :=
  let (vl, values) := objGet (valuesLookup s) ns [] in
  (mkLStore (sset vl ns (sset values key v)) (exportsLookup s), v).

Definition doRegisterExport (s : lstore) (ns local exp : string)
  : lstore * result string :=
  let (el, exportsValues) := objGet (exportsLookup s) ns [] in
  let (vl, values) := objGet (valuesLookup s) ns [] in
  if negb (has_key values local) then
    (mkLStore vl el,
     Throw (VError ("Failed named export due to missing local " ++ local)))
  else
    (mkLStore vl (sset el ns (aset ekey_eqb exportsValues (KName exp) local)),
     Ok exp).

Definition doRegisterDefaultExport (s : lstore) (ns local : string)
  : lstore * result string :=
  let (el, exportsValues) := objGet (exportsLookup s) ns [] in
  let (vl, values) := objGet (valuesLookup s) ns [] in
  if negb (has_key values local) then
    (mkLStore vl el,
     Throw (VError ("Failed default export due to missing local " ++ local)))
  else
    (mkLStore vl (sset el ns (aset ekey_eqb exportsValues KDefault local)),
     Ok defaultExport_toString).

(** The exports a namespace has, for the statements below. *)
Definition exports_of (s : lstore) (ns : string) : amap ekey string :=
  match sget (exportsLookup s) ns with Some m => m | None => [] end.
Definition values_of (s : lstore) (ns : string) : amap string lvalue :=
  match sget (valuesLookup s) ns with Some m => m | None => [] end.

End Lookup.

(** ** Fragments without calls, and stores that leave the helpers visible *)

(** The names the rewritten code and the wrapper rely on. *)
Definition protected_names : list string :=
  ["registerValue"; "registerValueExport"; "registerDefaultValueExport";
   "console"].

Definition is_protected (x : string) : bool :=
  existsb (String.eqb x) protected_names.

(** No call and no assignment in an expression. *)
Fixpoint pure (e : expr) : bool :=
  match e with
  | EConst _ => true
  | EVar _ => true
  | EOp _ args => forallb pure args
  | EMember o _ => pure o
  | ECall _ _ => false
  | EAssignMember _ _ _ => false
  end.

Definition static_decls (ds : list (string * expr)) : bool :=
  forallb (fun d => pure (snd d) && negb (is_protected (fst d))) ds.

(** Imports, exports, declarations and call-free expressions, none of the
    declared or imported names being a protected one. *)
Definition static_stmt (s : stmt) : bool :=
  match s with
  | SExpr e => pure e
  | SReturn e => pure e
  | SThrow e => pure e
  | SDecl _ ds => static_decls ds
  | SExportDecl _ ds => static_decls ds
  | SImport _ specs =>
      forallb (fun sp => negb (is_protected (spec_local sp))) specs
  | SExportNamed specs => negb (is_nil specs)
  | SExportDefaultId _ => true
  | SExportDefaultExpr _ => true
  | SExportAll _ => false
  end.

Definition static_only (code : program) : bool := forallb static_stmt code.

(** Every import of [code], read from [file], that resolves to a user module
    resolves into [files]. *)
Definition imports_closed (h : Host) (files : list string) (file : string)
    (code : program) : Prop :=
  forall source specs r,
    In (SImport source specs) code ->
    resolve h file source = Ok r ->
    isAbsolute r = true ->
    In r files.

(** No binding and no import of the namespaces in [files] has a protected
    name. *)
Definition unshadowed (files : list string) (s : store) : Prop :=
  forall ns x,
    In ns files -> is_protected x = true ->
    sget (ns_values s ns) x = None /\ sget (ns_imports s ns) x = None.

(** Marks are kept. *)
Definition marks_kept (s s' : store) : Prop :=
  forall ns, marked s ns = true -> marked s' ns = true.

(** How many of [files] are not marked yet. *)
Definition unmarked_count (files : list string) (s : store) : nat :=
  length (filter (fun p => negb (marked s p)) files).

(** The calls the rewriter emits for the file [ns]. *)
Inductive reg_call (ns : string) : expr -> Prop :=
| reg_call_value (x : string) :
    is_protected x = false ->
    reg_call ns (ECall (EVar "registerValue")
                       [EConst (VStr ns); EConst (VStr x); EVar x])
| reg_call_export (local exp : string) :
    reg_call ns (ECall (EVar "registerValueExport")
                       [EConst (VStr ns); EConst (VStr local);
                        EConst (VStr exp)])
| reg_call_default (local : string) :
    reg_call ns (ECall (EVar "registerDefaultValueExport")
                       [EConst (VStr ns); EConst (VStr local)]).

(** The statements of a rewritten call-free fragment. *)
Inductive rewritten (ns : string) : stmt -> Prop :=
| rw_expr e : pure e = true -> rewritten ns (SExpr e)
| rw_call e : reg_call ns e -> rewritten ns (SExpr e)
| rw_return e : pure e = true -> rewritten ns (SReturn e)
| rw_return_call e : reg_call ns e -> rewritten ns (SReturn e)
| rw_throw e : pure e = true -> rewritten ns (SThrow e)
| rw_decl k ds : static_decls ds = true -> rewritten ns (SDecl k ds).

(** A run that ends (normally or by an exception), in a store that still
    leaves the helpers visible and has kept the marks. *)
Definition ends_well {A} (files : list string) (w : world)
    (r : run world A) : Prop :=
  exists w' x, r = Done w' x
               /\ unshadowed files (st w')
               /\ marks_kept (st w) (st w').

(** In [sc], the three registration helpers and [console] are what the
    engine and the host put there. *)
Definition helpers_visible (sc : scope) : Prop :=
  scope_lookup sc "registerValue" = Some (VBuiltin BRegisterValue)
  /\ scope_lookup sc "registerValueExport" = Some (VBuiltin BRegisterValueExport)
  /\ scope_lookup sc "registerDefaultValueExport"
     = Some (VBuiltin BRegisterDefaultValueExport)
  /\ scope_lookup sc "console" = Some VConsole.

Definition locals_clear (ls : locals) : Prop :=
  forall x, is_protected x = true -> sget ls x = None.

(** A statement after the [Program] visitor ran: one of the fragment, or
    a registration the visitor inserted. *)
Definition entered (ns : string) (s : stmt) : Prop :=
  static_stmt s = true \/ exists e, s = SExpr e /\ reg_call ns e.

(** A statement after its visitor ran, with its flag: a flagged one is a
    registration call still to be visited. *)
Definition visited (ns : string) (sb : stmt * bool) : Prop :=
  rewritten ns (fst sb)
  /\ (snd sb = true -> exists e, fst sb = SExpr e /\ reg_call ns e).

(** ** Notions used by the statements *)

(** The walk of a user import: exports of the target by the imported key,
    then bindings of the target by that export's local. *)
Definition export_chain (s : store) (target : string) (imp : ekey)
  : option value :=
  match aget ekey_eqb (ns_exports s target) imp with
  | Some e => sget (ns_values s target) (exp_local e)
  | None => None
  end.

(** What registering the specifiers of one declaration does to the store,
    once the source resolves to [p]. *)
Definition register_all (file p : string) (builtIn : bool)
    (specs : list importSpec) (s : store) : store :=
  fold_left (fun s sp =>
               registerValueImport_at s file (spec_local sp) (spec_imported sp)
                                      p builtIn)
            specs s.

(** What the loop binds a built-in import to: the module the host's loader
    gives, or the named property of it. *)
Definition builtin_delivers (h : Host) (ns : string) (i : Import) (w : world)
    (v : value) : Prop :=
  exists m,
    hostRequire h ns (importedNamespace i) = Ok m
    /\ match imported i with
       | KName x => get_prop h m x w = Done w (Ok v)
       | _ => v = m
       end.

(** In the world [w], the namespace [ns] has no binding and no import
    named [x], and its imports resolve: the name [x] is left to the
    context. *)
Definition left_to_context (h : Host) (w : world) (ns x : string) : Prop :=
  sget (ns_values (st w) ns) x = None
  /\ exists nsI,
       synthImports h (st w) ns (ns_imports (st w) ns) [] w = Done w (Ok nsI)
       /\ sget nsI x = None.

(** [evaluate] gets as far as running [codeT] in scope [sc] from world
    [w2]: the rewriter and the synthesis of the imports went through. *)
Definition enters_body (h : Host)
    (rec : string -> program -> bool -> M world value)
    (ns : string) (code : program) (ev : bool) (w : world)
    (sc : scope) (codeT : program) (w2 : world) : Prop :=
  exists w1 nsI,
    transform h rec ns code ev w = Done w1 (Ok codeT)
    /\ synthImports h (st w1) ns (ns_imports (st w1) ns) [] w1
       = Done w1 (Ok nsI)
    /\ sc = make_scope h ns (length (modules w1)) ev nsI (ns_values (st w1) ns)
    /\ w2 = with_module_stub w1 ns.

(** What is assumed of the nested [evaluate]: it ends well on the files
    read from disk, from any store with fewer than [n] unmarked files. *)
Definition nested_ends (h : Host) (files : list string) (ev : bool)
    (rec : string -> program -> bool -> M world value) (n : nat) : Prop :=
  forall p code w,
    In p files -> readFile h p = Ok code ->
    unshadowed files (st w) ->
    unmarked_count files (st w) < n ->
    ends_well files w (rec p code ev w).

(** ** The lookup order in the words of the specification

    "Layer 1 beats 2 beats 3 beats 4": CJS stubs, resolved imports,
    bindings of the namespace, host globals.  Kept apart from
    [scope_lookup], which follows the source. *)
Definition spec_scope_lookup (stubs imports bindings hostGlobals
                              : amap string value) (x : string)
  : option value :=
  match sget stubs x with
  | Some v => Some v
  | None =>
      match sget imports x with
      | Some v => Some v
      | None =>
          match sget bindings x with
          | Some v => Some v
          | None => sget hostGlobals x
          end
      end
  end.

(** ** A small host and a few fragments, for the examples

    Disk: [/m/a.js] and [/m/b.js] import from each other; [/m/c.js] holds
    [module.exports = 1].  ['fs'] is the only bare specifier that resolves.
    The loader hands out opaque objects named after what was asked for. *)

Module Demo.

Definition num_add (vs : list value) : result value :=
  match vs with
  | [VNum a; VNum b] => Ok (VNum (a + b))
  | _ => Ok VUndef
  end.

(** [import { y } from './b'; export const x = 1] *)
Definition fileA : program :=
  [SImport "./b" [ImportSpecifier "y" "y"];
   SExportDecl KConst [("x", EConst (VNum 1))]].

(** [import { x } from './a'; export const y = x] *)
Definition fileB : program :=
  [SImport "./a" [ImportSpecifier "x" "x"];
   SExportDecl KConst [("y", EVar "x")]].

(** [module.exports = v] *)
Definition module_exports_assign (v : value) : program :=
  [SExpr (EAssignMember (EVar "module") "exports" (EConst v))].

(** [require(s)] *)
Definition require_of (s : string) : program :=
  [SExpr (ECall (EVar "require") [EConst (VStr s)])].

Definition resolve (from spec : string) : result string :=
  if String.eqb spec "./a" then Ok "/m/a.js"
  else if String.eqb spec "./b" then Ok "/m/b.js"
  else if String.eqb spec "./c" then Ok "/m/c.js"
  else if String.eqb spec "fs" then Ok "fs"
  else if isAbsolute spec then Ok spec
  else Throw (VError "MODULE_NOT_FOUND").

Definition readFile (path : string) : result program :=
  if String.eqb path "/m/a.js" then Ok fileA
  else if String.eqb path "/m/b.js" then Ok fileB
  else if String.eqb path "/m/c.js" then Ok (module_exports_assign (VNum 1))
  else Throw (VError "ENOENT").

Definition host : Host :=
  mkHost resolve readFile
    (fun _ id => Ok (VHost id))
    (fun v p => match v with
                | VHost id => Ok (VHost (id ++ "." ++ p))
                | _ => Ok VUndef
                end)
    (fun _ _ => Ok VUndef)
    (fun n => String (ascii_of_nat (97 + n)) "-uuid")
    (fun _ => "/m")
    [("console", VConsole)].

(** The host's own loader on a file of the disk: for a file that is
    [module.exports = v], the module it gives is [v]. *)
Definition disk_loader (from id : string) : result value :=
  match readFile id with
  | Ok [SExpr (EAssignMember (EVar "module") "exports" (EConst v))] => Ok v
  | _ => Ok (VHost id)
  end.

(** The same host, its loader reading the disk. *)
Definition disk_host : Host :=
  mkHost resolve readFile disk_loader
    (hostGet host) (hostCall host) (uuid host) (dirname host) (globals host).

(** A store in which [/tmp/a.js] binds [y], exports it, and imports [z]
    from [/m/a.js]. *)
Definition populated : store :=
  mkStore [("/tmp/a.js", [("y", VNum 1)])]
          [("/tmp/a.js", [(KName "y", mkExport (KName "y") "y")])]
          [("/tmp/a.js", [("z", mkImport "/m/a.js" (KName "z") "z" false)])].

(** A stand-in for the nested [evaluate] that only looks whether [root]
    is marked when it is called. *)
Definition probe (root : string) : string -> program -> bool -> M world value :=
  fun _ _ _ w =>
    if marked (st w) root then Done w (Ok VUndef)
    else Done w (Throw (VStr "the namespace under evaluation is not marked")).

(** Two calls of [evaluate] in a row. *)
Definition then_evaluate (r : run world value) (fuel : nat) (ns : string)
    (code : program) (ev : bool) : run world value :=
  match r with
  | Done w _ => evaluate host fuel ns code ev w
  | OutOfFuel => OutOfFuel
  | Unsupported => Unsupported
  end.

End Demo.

(** ** Notions used by the further properties *)

(** A map as the code has it: one entry per key. *)
Definition keys_unique {K V} (m : amap K V) : Prop := NoDup (map fst m).

(** Every map of the store has one entry per key, an export sits under its
    own [exported] key and an import under its own [local] name. *)
Record store_wf (s : store) : Prop := mkStoreWf {
  wf_namespaces : keys_unique (namespaces s);
  wf_valueExports : keys_unique (valueExports s);
  wf_valueImports : keys_unique (valueImports s);
  wf_values : forall ns m, In (ns, m) (namespaces s) -> keys_unique m;
  wf_exports : forall ns m, In (ns, m) (valueExports s) ->
                 keys_unique m /\ forall k e, In (k, e) m -> exported e = k;
  wf_imports : forall ns m, In (ns, m) (valueImports s) ->
                 keys_unique m /\ forall k i, In (k, i) m -> imp_local i = k
}.

(** The property name an export gets in a namespace object. *)
Definition exported_name (e : Export) : option string :=
  match exported e with
  | KName x => Some x
  | KDefault => Some "default"
  | KNamespace => None
  end.

(** Is [x] the property name of export [e]? *)
Definition named_as (x : string) (e : Export) : bool :=
  match exported_name e with
  | Some y => String.eqb y x
  | None => false
  end.

(** The relation [R] holds between the store a computation starts from and
    the store it ends in. *)
Definition resp (R : store -> store -> Prop) {A} (m : M world A) : Prop :=
  forall w w' r, m w = Done w' r -> R (st w) (st w').

(** A statement the wrapper can run: no module syntax. *)
Definition plain_stmt (s : stmt) : bool :=
  match s with
  | SExpr _ | SReturn _ | SDecl _ _ | SThrow _ => true
  | _ => false
  end.

Definition is_return (s : stmt) : bool :=
  match s with SReturn _ => true | _ => false end.

Definition is_import (s : stmt) : bool :=
  match s with SImport _ _ => true | _ => false end.

(** [export {}], which the visitor leaves in place. *)
Definition is_empty_export (s : stmt) : bool :=
  match s with SExportNamed [] => true | _ => false end.

(** [export * from '...'], for which there is no visitor. *)
Definition is_export_all (s : stmt) : bool :=
  match s with SExportAll _ => true | _ => false end.

(** The module syntax no visitor rewrites. *)
Definition is_left_in_place (s : stmt) : bool :=
  is_empty_export s || is_export_all s.

Definition is_default_expr_export (s : stmt) : bool :=
  match s with SExportDefaultExpr _ => true | _ => false end.

(** Nothing of [s] is lost in [s']: every binding, export and import key is
    still there, and every marked namespace still marked. *)
Definition grows (s s' : store) : Prop :=
  marks_kept s s'
  /\ (forall ns x, sget (ns_values s ns) x <> None ->
                   sget (ns_values s' ns) x <> None)
  /\ (forall ns k, aget ekey_eqb (ns_exports s ns) k <> None ->
                   aget ekey_eqb (ns_exports s' ns) k <> None)
  /\ (forall ns x, sget (ns_imports s ns) x <> None ->
                   sget (ns_imports s' ns) x <> None).

(** ** The lookup-based store: imports and the evaluation context
    (second unnamed source file, lines 68-121 and 157-195) *)

Module LookupContext.
Import Lookup.

Section WithResolver.
(** [resolveImportPath] of [./require], which is not among the sources:
    it gives the resolved namespace or throws. *)
Variable resolveImportPath : string -> string -> result string.
(** The property key an inherited member of a plain object turns into when
    it is used as a key (the host's rendering of a native function). *)
Variable inheritedKey : string -> string.

(** [key in exports], [exports] a plain object: a symbol is found only as an
    own key. *)
Definition has_export (exports : amap ekey string) (k : ekey) : bool :=
  match aget ekey_eqb exports k with
  | Some _ => true
  | None =>
      match k with
      | KName x => match sget objectProto x with Some _ => true | None => false end
      | _ => false
      end
  end.

Definition doRegisterImport (s : lstore)
    (ns localName importedNamespace importedName : string)
  : lstore * result unit :=
  match resolveImportPath ns importedNamespace with
  | Throw e => (s, Throw e)
  | Ok resolved =>
      let (el, importedExports) := objGet (exportsLookup s) resolved [] in
      if negb (has_export importedExports (KName importedName)) then
        (mkLStore (valuesLookup s) el,
         Throw (VError ("Failed import due to missing export " ++ importedName
                          ++ " from namespace " ++ resolved)))
      else
        let (vl, values) := objGet (valuesLookup s) ns [] in
        (mkLStore
           (sset vl ns (sset values localName
                             (LImport ns resolved (KName importedName))))
           el,
         Ok tt)
  end.

Definition doRegisterDefaultImport (s : lstore)
    (ns localName importedNamespace : string) : lstore * result unit :=
  match resolveImportPath ns importedNamespace with
  | Throw e => (s, Throw e)
  | Ok resolved =>
      let (el, importedExports) := objGet (exportsLookup s) resolved [] in
      if negb (has_export importedExports KDefault) then
        (mkLStore (valuesLookup s) el,
         Throw (VError ("Failed import due to missing default export from namespace "
                          ++ resolved)))
      else
        let (vl, values) := objGet (valuesLookup s) ns [] in
        (mkLStore
           (sset vl ns (sset values localName (LImport ns resolved KDefault)))
           el,
         Ok tt)
  end.

(** [values[prop]] together with [prop in values], [values] a plain
    object. *)
Definition values_find (values : amap string lvalue) (prop : string)
  : option lvalue :=
  match sget values prop with
  | Some v => Some v
  | None =>
      match sget objectProto prop with
      | Some v => Some (LVal v)
      | None => None
      end
  end.

(** [exportsValues[k]] used as a property key. *)
Definition export_local_key (exportsValues : amap ekey string) (k : ekey)
  : string :=
  match aget ekey_eqb exportsValues k with
  | Some local => local
  | None =>
      match k with
      | KName x =>
          match sget objectProto x with
          | Some _ => inheritedKey x
          | None => "undefined"
          end
      | _ => "undefined"
      end
  end.

(** The names the context adds to the globals, with the functions they
    name. *)
Definition context_helpers : amap string value :=
  map (fun x => (x, VHost x))
      ["doRegisterValue"; "doRegisterExport"; "doRegisterDefaultExport";
       "doRegisterImport"; "doRegisterDefaultImport";
       "doRegisterNamespaceImport"].

(** [base] of [generateContext]: the own properties of [global], then the
    registration functions; no prototype. *)
Definition context_base (hostGlobals : amap string value) : amap string value :=
  spread (spread [] hostGlobals) context_helpers.

(** The [get] trap of the context of a namespace. *)
Definition context_get (hostGlobals : amap string value) (s : lstore)
    (ns prop : string) : lstore * lvalue :=
  let (vl, values) := objGet (valuesLookup s) ns [] in
  match values_find values prop with
  | Some (LImport _ importedNs local) =>
      let (el, exportsValues) := objGet (exportsLookup s) importedNs [] in
      let (vl2, importedValues) := objGet vl importedNs [] in
      (mkLStore vl2 el,
       match values_find importedValues (export_local_key exportsValues local) with
       | Some v => v
       | None => LVal VUndef
       end)
  | Some v => (mkLStore vl (exportsLookup s), v)
  | None =>
      (mkLStore vl (exportsLookup s),
       LVal (or_undef (sget (context_base hostGlobals) prop)))
  end.
End WithResolver.

End LookupContext.

(** The entry of a lookup under a key, [{}] when there is none. *)
Definition entry_or_empty {K A} (m : amap string (amap K A)) (k : string)
  : amap K A :=
  match sget m k with Some a => a | None => [] end.

(** What a read through the context gives, in terms of the entries of the
    two lookups. *)
Definition context_read (inheritedKey : string -> string)
    (hostGlobals : amap string value) (s : Lookup.lstore) (ns prop : string)
  : Lookup.lvalue :=
  match LookupContext.values_find (Lookup.values_of s ns) prop with
  | Some (Lookup.LImport _ r k) =>
      match LookupContext.values_find
              (Lookup.values_of s r)
              (LookupContext.export_local_key inheritedKey
                 (Lookup.exports_of s r) k) with
      | Some v => v
      | None => Lookup.LVal VUndef
      end
  | Some v => v
  | None => Lookup.LVal (or_undef (sget (LookupContext.context_base hostGlobals) prop))
  end.

(** * Properties *)

(** ** Insertion-ordered maps *)

Section AMapFacts.
Variables (K V : Type).
Variable eqb : K -> K -> bool.
Hypothesis eqb_spec : forall a b, eqb a b = true <-> a = b.

Lemma eqb_refl_of (a : K) : eqb a a = true.
Proof. now apply eqb_spec. Qed.

Lemma eqb_false_of (a b : K) : a <> b -> eqb a b = false.
Proof.
  intros Hne. destruct (eqb a b) eqn:E; [|reflexivity].
  apply eqb_spec in E. contradiction.
Qed.

Lemma aget_aset_eq (m : amap K V) k v : aget eqb (aset eqb m k v) k = Some v.
Proof.
  induction m as [|[k' v'] m IH]; simpl.
  - now rewrite eqb_refl_of.
  - destruct (eqb k k') eqn:E; simpl; rewrite E; auto.
Qed.

Lemma aget_aset_neq (m : amap K V) k k' v :
  k' <> k -> aget eqb (aset eqb m k v) k' = aget eqb m k'.
Proof.
  intros Hne. induction m as [|[k0 v0] m IH]; simpl.
  - now rewrite (eqb_false_of Hne).
  - destruct (eqb k k0) eqn:E; simpl.
    + apply eqb_spec in E. subst k0.
      now rewrite (eqb_false_of Hne).
    + now rewrite IH.
Qed.

Lemma aget_aset_some (m : amap K V) k k' v :
  aget eqb m k' <> None -> aget eqb (aset eqb m k v) k' <> None.
Proof.
  intros Hs. destruct (eqb k' k) eqn:E.
  - apply eqb_spec in E. subst. rewrite aget_aset_eq. discriminate.
  - rewrite aget_aset_neq; auto.
    intros ->. now rewrite eqb_refl_of in E.
Qed.
End AMapFacts.

Lemma ekey_eqb_spec (a b : ekey) : ekey_eqb a b = true <-> a = b.
Proof.
  destruct a, b; simpl; split; intros H; try congruence; try discriminate.
  - apply String.eqb_eq in H. now subst.
  - inversion H. apply String.eqb_refl.
Qed.

Lemma sget_sset_eq {V} (m : amap string V) k v : sget (sset m k v) k = Some v.
Proof. apply aget_aset_eq, String.eqb_eq. Qed.

Lemma sget_sset_neq {V} (m : amap string V) k k' v :
  k' <> k -> sget (sset m k v) k' = sget m k'.
Proof. apply aget_aset_neq, String.eqb_eq. Qed.

Lemma sget_sset_some {V} (m : amap string V) k k' v :
  sget m k' <> None -> sget (sset m k v) k' <> None.
Proof. apply aget_aset_some, String.eqb_eq. Qed.

Unset Implicit Arguments.

(** ** The [exports] stub *)

Lemma find_spec {A} (f : A -> bool) (l : list A) :
  match find f l with
  | Some a => In a l /\ f a = true
  | None => forall a, In a l -> f a = false
  end.
Proof.
  destruct (find f l) eqn:E.
  - now apply find_some in E.
  - intros a Ha. now apply (find_none f l E).
Qed.

(** C10.  Reading property [p] of the [exports] stub gives the namespace's
    [Export] record whose local name is [p] (the first one registered), or
    [undefined] when there is none; in no case the value bound to that
    local. *)
Theorem exports_stub_read_gives_export_record :
  forall (h : Host) (w : world) (ns p : string),
    get_prop h (VExportsStub ns) p w
      = Done w (Ok (exportsStub_get (st w) ns p))
    /\ ((exists e, exportsStub_get (st w) ns p = VExport e
                   /\ exp_local e = p
                   /\ In e (AMap.values (ns_exports (st w) ns)))
        \/ (exportsStub_get (st w) ns p = VUndef
            /\ forall e, In e (AMap.values (ns_exports (st w) ns)) ->
                         exp_local e <> p)).
Proof.
  intros h w ns p. split; [reflexivity|].
  unfold exportsStub_get.
  pose proof (find_spec (fun e => String.eqb (exp_local e) p)
                        (AMap.values (ns_exports (st w) ns))) as Hf.
  destruct (find _ _) as [e|].
  - left. exists e. destruct Hf as [Hin Heq].
    apply String.eqb_eq in Heq. auto.
  - right. split; [reflexivity|]. intros e Hin Heq.
    specialize (Hf e Hin). simpl in Hf.
    rewrite Heq, String.eqb_refl in Hf. discriminate.
Qed.

(** After [const p = 5; export { p }], [exports.p] is the record
    [{ exported: 'p', local: 'p' }], not [5]. *)
Example exports_stub_read_example :
  Demo.then_evaluate
    (evaluate Demo.host 1 "/m/d.js"
       [SDecl KConst [("p", EConst (VNum 5))]; SExportNamed [("p", "p")]]
       false empty_world)
    1 "/m/d.js" [SExpr (EMember (EVar "exports") "p")] false
  = Done (mkWorld
            (mkStore [("/m/d.js", [("p", VNum 5)])]
                     [("/m/d.js", [(KName "p", mkExport (KName "p") "p")])]
                     [])
            0 []
            [[("exports", VExportsStub "/m/d.js")];
             [("exports", VExportsStub "/m/d.js")]])
         (Ok (VExport (mkExport (KName "p") "p"))).
Proof. reflexivity. Qed.

(** ** Imports at scope synthesis *)

Lemma importValue_user_named (h : Host) (s : store) (ns : string) (i : Import)
    (x : string) (w : world) :
  isBuiltIn i = false ->
  imported i = KName x ->
  importValue h s ns i w
    = Done w (Ok (or_undef (export_chain s (importedNamespace i) (KName x)))).
Proof.
  intros Hb Hi. unfold importValue, export_chain.
  rewrite Hb, Hi. simpl.
  destruct (aget ekey_eqb _ _); reflexivity.
Qed.

(** ** Built-in imports *)

Lemma normalizeImportPath_ok (h : Host) (from spec p : string) (w : world) :
  resolve h from spec = Ok p ->
  normalizeImportPath h from spec w = Done w (Ok p).
Proof. intros H. unfold normalizeImportPath. now rewrite H. Qed.

Lemma registerSpecifiers_ok (h : Host) (file source p : string) (b : bool)
    (specs : list importSpec) (w : world) :
  resolve h file source = Ok p ->
  registerSpecifiers h file source b specs w
    = Done (with_store w (register_all file p b specs (st w))) (Ok tt).
Proof.
  intros Hr. revert w. induction specs as [|sp specs IH]; intros w.
  - destruct w as [s u e m]. reflexivity.
  - simpl. unfold bind at 1. unfold registerValueImport.
    unfold bind at 1. rewrite (normalizeImportPath_ok h _ _ _ w Hr).
    unfold bind, modify, ret. simpl. rewrite IH. reflexivity.
Qed.

Lemma register_all_namespaces file p b specs s :
  namespaces (register_all file p b specs s) = namespaces s
  /\ valueExports (register_all file p b specs s) = valueExports s.
Proof.
  revert s. induction specs as [|sp specs IH]; intros s; simpl; [auto|].
  destruct (IH (registerValueImport_at s file (spec_local sp)
                                       (spec_imported sp) p b)) as [H1 H2].
  unfold register_all in *. simpl. rewrite H1, H2. auto.
Qed.

Lemma register_all_keeps file p b specs s local :
  (exists i, sget (ns_imports s file) local = Some i
             /\ isBuiltIn i = b /\ importedNamespace i = p) ->
  exists i, sget (ns_imports (register_all file p b specs s) file) local = Some i
            /\ isBuiltIn i = b /\ importedNamespace i = p.
Proof.
  revert s. induction specs as [|sp specs IH]; intros s H; simpl; [exact H|].
  apply IH. unfold registerValueImport_at, ns_imports at 1. simpl.
  rewrite sget_sset_eq.
  destruct (String.eqb local (spec_local sp)) eqn:E.
  - apply String.eqb_eq in E. subst. rewrite sget_sset_eq.
    eexists; split; [reflexivity|]. auto.
  - rewrite sget_sset_neq; [exact H|].
    intros ->. now rewrite String.eqb_refl in E.
Qed.

Lemma register_all_records file p b specs s sp :
  In sp specs ->
  exists i, sget (ns_imports (register_all file p b specs s) file)
                 (spec_local sp) = Some i
            /\ isBuiltIn i = b /\ importedNamespace i = p.
Proof.
  revert s. induction specs as [|sp0 specs IH]; intros s Hin; [destruct Hin|].
  destruct Hin as [->|Hin]; [|now apply IH].
  simpl. apply register_all_keeps.
  unfold registerValueImport_at, ns_imports at 1. simpl.
  rewrite !sget_sset_eq. eexists; split; [reflexivity|]. auto.
Qed.

(** [import fs from 'fs'; fs] in [/m/d.js]: the call returns the loader's
    object and no namespace at all gets an entry of bindings or exports. *)
Example builtin_import_example :
  evaluate Demo.host 1 "/m/d.js"
           [SImport "fs" [ImportDefaultSpecifier "fs"]; SExpr (EVar "fs")]
           true empty_world
  = Done (mkWorld
            (mkStore [] []
                     [("/m/d.js", [("fs", mkImport "fs" KDefault "fs" true)])])
            0 [] [[("exports", VExportsStub "/m/d.js")]])
         (Ok (VHost "fs")).
Proof. reflexivity. Qed.

(** ** User module or built-in *)

(** What an export registration of engine.ts records. *)
Lemma registerValueExport_records (s : store) (ns local : string) (exp : ekey) :
  aget ekey_eqb (ns_exports (registerValueExport s ns local exp) ns) exp
  = Some (mkExport exp local).
Proof.
  unfold registerValueExport, ns_exports at 1. simpl.
  rewrite sget_sset_eq. apply aget_aset_eq, ekey_eqb_spec.
Qed.

Lemma registerDefaultValueExport_records (s : store) (ns local : string) :
  aget ekey_eqb (ns_exports (registerDefaultValueExport s ns local) ns) KDefault
  = Some (mkExport KDefault local).
Proof.
  unfold registerDefaultValueExport, ns_exports at 1. simpl.
  rewrite sget_sset_eq. apply aget_aset_eq, ekey_eqb_spec.
Qed.

Lemma requireCustom_relative (h : Host)
    (rec : string -> program -> bool -> M world value)
    (from spec p : string) (ev : bool) (w : world) :
  resolve h from spec = Ok p ->
  isAbsolute spec = false ->
  requireCustom h rec from spec ev w = Done w (hostRequire h from p).
Proof.
  intros Hr Ha. unfold requireCustom. unfold bind at 1.
  rewrite (normalizeImportPath_ok h _ _ _ w Hr), Ha. reflexivity.
Qed.

Lemma dynamicImport_builtin (h : Host)
    (rec : string -> program -> bool -> M world value)
    (from spec p : string) (ev : bool) (w : world) :
  resolve h from spec = Ok p ->
  isAbsolute p = false ->
  dynamicImport h rec from spec ev w
  = match hostRequire h from p with
    | Ok m => Done w (Ok (VPromise m))
    | Throw e => Done w (Throw e)
    end.
Proof.
  intros Hr Ha. unfold dynamicImport. unfold bind at 1.
  rewrite (normalizeImportPath_ok h _ _ _ w Hr), Ha. simpl.
  unfold bind, lift, ret. destruct (hostRequire h from p); reflexivity.
Qed.

Lemma dynamicImport_user (h : Host)
    (rec : string -> program -> bool -> M world value)
    (from spec p : string) (w : world) :
  resolve h from spec = Ok p ->
  isAbsolute p = true ->
  dynamicImport h rec from spec false w
  = Done w (Ok (VPromise (constructNamespaceExport (st w) p))).
Proof.
  intros Hr Ha. unfold dynamicImport. unfold bind at 1.
  rewrite (normalizeImportPath_ok h _ _ _ w Hr), Ha. reflexivity.
Qed.

Lemma requireCustom_absolute (h : Host)
    (rec : string -> program -> bool -> M world value)
    (from spec p : string) (w : world) :
  resolve h from spec = Ok p ->
  isAbsolute spec = true ->
  requireCustom h rec from spec false w
  = Done w (Ok (default_export_value (st w) p)).
Proof.
  intros Hr Ha. unfold requireCustom. unfold bind at 1.
  rewrite (normalizeImportPath_ok h _ _ _ w Hr), Ha. reflexivity.
Qed.

(** [module.exports = v]: [v] becomes the value of the default export of
    the namespace. *)
Lemma module_exports_registers_default (h : Host) (ns : string) (id : nat)
    (v : value) (w : world) :
  exists w',
    moduleStub_set h ns id "exports" v w = Done w' (Ok tt)
    /\ default_export_value (st w') ns = v.
Proof.
  eexists. split; [reflexivity|]. simpl.
  unfold default_export_value.
  rewrite registerDefaultValueExport_records. simpl.
  unfold registerDefaultValueExport, registerValue, ns_values. simpl.
  now rewrite !sget_sset_eq.
Qed.

(** C5.  [require('./c')] from [/m/d.js]: the specifier resolves to the
    absolute path [/m/c.js], yet [requireCustom] takes the built-in branch
    and returns what the host's loader gives, because it tests the
    specifier as written; [dynamicImport] on the same specifier tests the
    resolved path and takes the user branch. *)
Theorem require_classifies_the_unresolved_specifier :
  forall (rec : string -> program -> bool -> M world value) (ev : bool)
         (w : world),
    resolve Demo.host "/m/d.js" "./c" = Ok "/m/c.js"
    /\ isAbsolute "/m/c.js" = true
    /\ requireCustom Demo.host rec "/m/d.js" "./c" ev w
       = Done w (hostRequire Demo.host "/m/d.js" "/m/c.js")
    /\ dynamicImport Demo.host rec "/m/d.js" "./c" false w
       = Done w (Ok (VPromise (constructNamespaceExport (st w) "/m/c.js"))).
Proof.
  intros rec ev w.
  split; [reflexivity|]. split; [reflexivity|]. split.
  - now apply requireCustom_relative.
  - now apply dynamicImport_user.
Qed.

(** With the absolute path as specifier and without [evalImports], the
    default export registered by [module.exports = v] is what [require]
    returns. *)
Example require_absolute_after_module_exports :
  Demo.then_evaluate
    (evaluate Demo.host 1 "/m/c.js" (Demo.module_exports_assign (VNum 99))
              false empty_world)
    1 "/m/d.js" (Demo.require_of "/m/c.js") false
  = Done (mkWorld
            (mkStore [("/m/c.js", [("a-uuid", VNum 99)])]
                     [("/m/c.js", [(KDefault, mkExport KDefault "a-uuid")])]
                     [])
            1 []
            [[("exports", VNum 99)]; [("exports", VExportsStub "/m/d.js")]])
         (Ok (VNum 99)).
Proof. reflexivity. Qed.

(** ** Name lookup in the synthesized scope *)

Lemma sget_notin {V} (m : amap string V) (k : string) :
  ~ In k (map fst m) -> sget m k = None.
Proof.
  induction m as [|[k' v] m IH]; simpl; intros Hn; [reflexivity|].
  unfold sget in *. simpl.
  destruct (String.eqb k k') eqn:E.
  - apply String.eqb_eq in E. subst. exfalso. apply Hn. now left.
  - apply IH. intros Hin. apply Hn. now right.
Qed.

(** Spreading [ext] over [base]: the properties of [ext] win. *)
Lemma sget_spread (ext base : amap string value) (x : string) :
  NoDup (map fst ext) ->
  sget (spread base ext) x
  = match sget ext x with
    | Some v => Some v
    | None => sget base x
    end.
Proof.
  revert base. induction ext as [|[k v] ext IH]; intros base Hnd.
  - reflexivity.
  - inversion Hnd as [|? ? Hnotin Hnd']; subst.
    change (spread base ((k, v) :: ext)) with (spread (sset base k v) ext).
    rewrite (IH _ Hnd'). unfold sget at 2. simpl.
    destruct (String.eqb x k) eqn:E.
    + apply String.eqb_eq in E. subst x.
      fold (sget ext k). rewrite (sget_notin ext k Hnotin).
      apply sget_sset_eq.
    + fold (sget ext x). destruct (sget ext x); [reflexivity|].
      apply sget_sset_neq. intros ->. now rewrite String.eqb_refl in E.
Qed.

Lemma cjsStubs_nodup (h : Host) ns id ev :
  NoDup (map fst (cjsStubs h ns id ev)).
Proof.
  simpl. repeat constructor; simpl; intuition discriminate.
Qed.

Lemma helpers_nodup nsI nsF : NoDup (map fst (helpers nsI nsF)).
Proof.
  simpl. repeat constructor; simpl; intuition discriminate.
Qed.

(** A store's bindings have one entry per key, and [nsForScope] is then
    the bindings themselves. *)
Lemma spread_nodup_app (ext base : amap string value) :
  NoDup (map fst (base ++ ext)) -> spread base ext = (base ++ ext)%list.
Proof.
  revert base. induction ext as [|[k v] ext IH]; intros base Hnd.
  - simpl. now rewrite app_nil_r.
  - change (spread base ((k, v) :: ext)) with (spread (sset base k v) ext).
    assert (Hs : sset base k v = (base ++ [(k, v)])%list).
    { assert (Hk : ~ In k (map fst base)).
      { rewrite map_app in Hnd. simpl in Hnd.
        apply NoDup_remove_2 in Hnd. intros Hin. apply Hnd.
        apply in_or_app. now left. }
      clear - Hk. induction base as [|[k' v'] base IHb]; [reflexivity|].
      unfold sset in *. simpl.
      destruct (String.eqb k k') eqn:E.
      - apply String.eqb_eq in E. subst. exfalso. apply Hk. now left.
      - f_equal. apply IHb. intros Hin. apply Hk. now right. }
    rewrite Hs. rewrite IH; rewrite <- app_assoc; [reflexivity|exact Hnd].
Qed.

Lemma nsForScope_is_bindings (h : Host) ns id ev nsI values :
  NoDup (map fst values) ->
  nsForScope (make_scope h ns id ev nsI values) = values.
Proof. intros Hnd. simpl. now apply (spread_nodup_app values []). Qed.

(** The claim as written fails: a name that is both a binding of the
    namespace and one of its imports resolves to the binding, and a binding
    named [module] hides the CommonJS stub. *)
Lemma lookup_layers_counterexample :
  (let sc := make_scope Demo.host "/m/d.js" 0 false
                        [("x", VNum 2)] [("x", VNum 1)] in
   sget (nsImportsForScope sc) "x" = Some (VNum 2)
   /\ sget (nsForScope sc) "x" = Some (VNum 1)
   /\ scope_lookup sc "x" = Some (VNum 1)
   /\ scope_lookup sc "x"
      <> spec_scope_lookup (cjsStubs Demo.host "/m/d.js" 0 false)
                           (nsImportsForScope sc) (nsForScope sc)
                           (vmGlobal Demo.host) "x")
  /\ (exists w,
        Demo.then_evaluate
          (evaluate Demo.host 1 "/m/d.js"
                    [SDecl KConst [("module", EConst (VNum 1))]]
                    false empty_world)
          1 "/m/d.js" [SExpr (EVar "module")] false
        = Done w (Ok (VNum 1))).
Proof.
  split.
  - split; [reflexivity|]. split; [reflexivity|]. split; [reflexivity|].
    vm_compute. discriminate.
  - eexists. vm_compute. reflexivity.
Qed.

Lemma scope_lookup_layers :
  forall (h : Host) (ns : string) (id : nat) (ev : bool)
         (nsI values : amap string value) (x : string),
    let sc := make_scope h ns id ev nsI values in
    scope_lookup sc x
    = match sget (nsForScope sc) x with
      | Some v => Some v
      | None =>
      match sget objectProto x with
      | Some v => Some v
      | None =>
      match sget nsI x with
      | Some v => Some v
      | None =>
      match sget (helpers nsI (nsForScope sc)) x with
      | Some v => Some v
      | None =>
      match sget (cjsStubs h ns id ev) x with
      | Some v => Some v
      | None => sget (vmGlobal h) x
      end end end end end.
Proof.
  intros h ns id ev nsI values x sc.
  unfold scope_lookup, obj_find. simpl nsImportsForScope.
  destruct (sget (nsForScope sc) x); [reflexivity|].
  destruct (sget objectProto x); [reflexivity|].
  destruct (sget nsI x); [reflexivity|].
  unfold sc at 1. simpl context. unfold make_context.
  rewrite (sget_spread _ _ _ (helpers_nodup nsI _)).
  fold sc. change (spread [] values) with (nsForScope sc).
  destruct (sget (helpers nsI (nsForScope sc)) x); [reflexivity|].
  now rewrite (sget_spread _ _ _ (cjsStubs_nodup h ns id ev)).
Qed.

(** C2 (amended).  A free name of the rewritten code resolves through, in
    this order: the bindings of the namespace ([nsForScope], with what a
    plain object inherits), the resolved imports, the helpers the engine
    adds to the context, the CommonJS stubs, the host globals.  For a name
    present in several of them, the first in this order is seen. *)
Theorem lookup_order :
  forall (h : Host) (ns : string) (id : nat) (ev : bool)
         (nsI values : amap string value) (x : string),
    let sc := make_scope h ns id ev nsI values in
    scope_lookup sc x
    = match sget (nsForScope sc) x with
      | Some v => Some v
      | None =>
      match sget objectProto x with
      | Some v => Some v
      | None =>
      match sget nsI x with
      | Some v => Some v
      | None =>
      match sget (helpers nsI (nsForScope sc)) x with
      | Some v => Some v
      | None =>
      match sget (cjsStubs h ns id ev) x with
      | Some v => Some v
      | None => sget (vmGlobal h) x
      end end end end end.
Proof. exact scope_lookup_layers. Qed.

(** ** Export registration when the local has no binding *)

Lemma objGet_entry {A} (lookup : amap string A) (key : string) (dflt : A) :
  snd (Lookup.objGet lookup key dflt)
  = match sget lookup key with Some a => a | None => dflt end
  /\ sget (fst (Lookup.objGet lookup key dflt)) key
     = Some (match sget lookup key with Some a => a | None => dflt end).
Proof.
  unfold Lookup.objGet. destruct (sget lookup key) eqn:E; simpl.
  - auto.
  - split; [reflexivity|]. apply sget_sset_eq.
Qed.

Lemma doRegisterExport_missing (s : Lookup.lstore) (ns local exp : string) :
  Lookup.has_key (Lookup.values_of s ns) local = false ->
  snd (Lookup.doRegisterExport s ns local exp)
  = Throw (VError ("Failed named export due to missing local " ++ local))
  /\ Lookup.exports_of (fst (Lookup.doRegisterExport s ns local exp)) ns
     = Lookup.exports_of s ns.
Proof.
  intros Hk. unfold Lookup.doRegisterExport.
  pose proof (objGet_entry (Lookup.exportsLookup s) ns []) as [_ He].
  pose proof (objGet_entry (Lookup.valuesLookup s) ns []) as [Hv _].
  destruct (Lookup.objGet (Lookup.exportsLookup s) ns []) as [el ev].
  destruct (Lookup.objGet (Lookup.valuesLookup s) ns []) as [vl vs].
  simpl in *. subst vs. fold (Lookup.values_of s ns). rewrite Hk. simpl.
  split; [reflexivity|].
  unfold Lookup.exports_of. simpl. rewrite He.
  destruct (sget (Lookup.exportsLookup s) ns); reflexivity.
Qed.

Lemma doRegisterDefaultExport_missing (s : Lookup.lstore) (ns local : string) :
  Lookup.has_key (Lookup.values_of s ns) local = false ->
  snd (Lookup.doRegisterDefaultExport s ns local)
  = Throw (VError ("Failed default export due to missing local " ++ local))
  /\ Lookup.exports_of (fst (Lookup.doRegisterDefaultExport s ns local)) ns
     = Lookup.exports_of s ns.
Proof.
  intros Hk. unfold Lookup.doRegisterDefaultExport.
  pose proof (objGet_entry (Lookup.exportsLookup s) ns []) as [_ He].
  pose proof (objGet_entry (Lookup.valuesLookup s) ns []) as [Hv _].
  destruct (Lookup.objGet (Lookup.exportsLookup s) ns []) as [el ev].
  destruct (Lookup.objGet (Lookup.valuesLookup s) ns []) as [vl vs].
  simpl in *. subst vs. fold (Lookup.values_of s ns). rewrite Hk. simpl.
  split; [reflexivity|].
  unfold Lookup.exports_of. simpl. rewrite He.
  destruct (sget (Lookup.exportsLookup s) ns); reflexivity.
Qed.

(** The claim as written fails on engine.ts: [export { nope }; 1] in a
    fresh namespace, where nothing is bound to [nope], records the export
    and the call returns 1. *)
Lemma export_of_missing_local_counterexample :
  sget (ns_values empty_store "/m/d.js") "nope" = None
  /\ evaluate Demo.host 1 "/m/d.js"
              [SExportNamed [("nope", "nope")]; SExpr (EConst (VNum 1))]
              false empty_world
     = Done (mkWorld
               (mkStore []
                  [("/m/d.js", [(KName "nope", mkExport (KName "nope") "nope")])]
                  [])
               0 [] [[("exports", VExportsStub "/m/d.js")]])
            (Ok (VNum 1))
  /\ aget ekey_eqb
          (ns_exports (registerDefaultValueExport empty_store "/m/d.js" "nope")
                      "/m/d.js") KDefault
     = Some (mkExport KDefault "nope").
Proof. repeat split. Qed.

(** C3 (amended).  In the lookup-based store, registering a named or a
    default export whose local is neither bound in the namespace nor a
    member every object inherits throws, and the exports of the namespace
    stay as they were.  [registerValueExport] and
    [registerDefaultValueExport] of engine.ts make no such check: the
    export is recorded although the local has no binding. *)
Theorem export_registration_of_missing_local :
  forall (s : Lookup.lstore) (e : store) (ns local exp : string),
    Lookup.has_key (Lookup.values_of s ns) local = false ->
    sget (ns_values e ns) local = None ->
    (snd (Lookup.doRegisterExport s ns local exp)
     = Throw (VError ("Failed named export due to missing local " ++ local))
     /\ Lookup.exports_of (fst (Lookup.doRegisterExport s ns local exp)) ns
        = Lookup.exports_of s ns)
    /\ (snd (Lookup.doRegisterDefaultExport s ns local)
        = Throw (VError ("Failed default export due to missing local " ++ local))
        /\ Lookup.exports_of (fst (Lookup.doRegisterDefaultExport s ns local)) ns
           = Lookup.exports_of s ns)
    /\ aget ekey_eqb (ns_exports (registerValueExport e ns local (KName exp)) ns)
            (KName exp)
       = Some (mkExport (KName exp) local)
    /\ aget ekey_eqb (ns_exports (registerDefaultValueExport e ns local) ns)
            KDefault
       = Some (mkExport KDefault local).
Proof.
  intros s e ns local exp Hk _.
  split; [now apply doRegisterExport_missing|].
  split; [now apply doRegisterDefaultExport_missing|].
  split; [apply registerValueExport_records
         |apply registerDefaultValueExport_records].
Qed.

Lemma export_registration_witness :
  snd (Lookup.doRegisterExport Lookup.empty "/m/d.js" "nope" "nope")
  = Throw (VError "Failed named export due to missing local nope")
  /\ aget ekey_eqb
          (ns_exports (registerValueExport empty_store "/m/d.js" "nope"
                                           (KName "nope")) "/m/d.js")
          (KName "nope")
     = Some (mkExport (KName "nope") "nope").
Proof.
  pose proof (export_registration_of_missing_local
                Lookup.empty empty_store "/m/d.js" "nope" "nope"
                eq_refl eq_refl) as [[H1 _] [_ [H3 _]]].
  split; [exact H1 | exact H3].
Defined.

(** ** From [evaluate] to the run of the rewritten code *)

Lemma bind_ok_inv {S A B} (m : M S A) (k : A -> M S B) s s' b :
  bind m k s = Done s' (Ok b) ->
  exists a s1, m s = Done s1 (Ok a) /\ k a s1 = Done s' (Ok b).
Proof.
  unfold bind. destruct (m s) as [s1 [a|e]| |]; try discriminate.
  intros H. eauto.
Qed.

Lemma get_prop_world (h : Host) v p w w' r :
  get_prop h v p w = Done w' r -> w' = w.
Proof.
  destruct v; simpl; unfold bind, get, ret, throw, lift;
    try (intros H; inversion H; reflexivity).
  - destruct (String.eqb p "exported"); [intros H; now inversion H|].
    destruct (String.eqb p "local"); intros H; now inversion H.
  - destruct (String.eqb p "error"); intros H; now inversion H.
Qed.

Lemma importValue_world (h : Host) s ns i w w' r :
  importValue h s ns i w = Done w' r -> w' = w.
Proof.
  unfold importValue.
  destruct (negb (isBuiltIn i) && ekey_eqb (imported i) KNamespace).
  { intros H; now inversion H. }
  destruct (isBuiltIn i).
  - unfold bind, lift. destruct (hostRequire h ns (importedNamespace i)).
    + destruct (imported i); try (intros H; now inversion H).
      apply get_prop_world.
    + intros H; now inversion H.
  - destruct (aget ekey_eqb _ _); intros H; now inversion H.
Qed.

Lemma synthImports_world (h : Host) s ns entries acc w w' r :
  synthImports h s ns entries acc w = Done w' r -> w' = w.
Proof.
  revert acc. induction entries as [|[l i] entries IH]; intros acc; simpl.
  - intros H; now inversion H.
  - unfold bind at 1. destruct (importValue h s ns i w) as [w1 [v|e]| |] eqn:E;
      try discriminate.
    + apply importValue_world in E. subst w1. apply IH.
    + apply importValue_world in E. subst w1. intros H; now inversion H.
Qed.

Lemma evaluate_body_enters (h : Host) rec ns code ev w sc codeT w2 :
  enters_body h rec ns code ev w sc codeT w2 ->
  evaluate_body h rec ns code ev w = run_wrapped h rec sc codeT w2.
Proof.
  intros (w1 & nsI & Ht & Hs & -> & ->).
  unfold evaluate_body. unfold bind at 1. rewrite Ht.
  unfold bind at 1. unfold get at 1.
  unfold bind at 1. rewrite Hs. reflexivity.
Qed.

(** ** Exceptions of the evaluated code *)

(** When the run of the rewritten code throws [e], and the name [console]
    resolves in the synthesized scope to the host's console, the wrapper
    catches [e], writes it to standard error, and [evaluate] returns
    [undefined]. *)
Lemma wrapper_catches_with_host_console :
  forall (h : Host) (fuel : nat) (ns : string) (code : program) (ev : bool)
         (w : world) (sc : scope) (codeT : program) (w2 w3 : world)
         (e : value),
    enters_body h (evaluate h fuel) ns code ev w sc codeT w2 ->
    exec_stmts h (evaluate h fuel) sc (initial_locals codeT) codeT w2
      = Done w3 (Throw e) ->
    scope_lookup sc "console" = Some VConsole ->
    evaluate h (S fuel) ns code ev w = Done (log_err w3 [e]) (Ok VUndef).
Proof.
  intros h fuel ns code ev w sc codeT w2 w3 e He Hx Hc.
  simpl. rewrite (evaluate_body_enters _ _ _ _ _ _ _ _ _ He).
  unfold run_wrapped. rewrite Hx.
  unfold handler. simpl. unfold bind, lift, lookup. simpl.
  rewrite Hc. reflexivity.
Qed.

(** [throw 1] in a fresh namespace: 1 goes to standard error and the call
    returns [undefined]. *)
Example throw_in_fresh_namespace :
  evaluate Demo.host 1 "/m/d.js" [SThrow (EConst (VNum 1))] false empty_world
  = Done (mkWorld empty_store 0 [VNum 1]
                  [[("exports", VExportsStub "/m/d.js")]])
         (Ok VUndef).
Proof.
  apply (wrapper_catches_with_host_console
           Demo.host 0 "/m/d.js" [SThrow (EConst (VNum 1))] false empty_world
           (make_scope Demo.host "/m/d.js" 0 false [] [])
           [SThrow (EConst (VNum 1))]
           (with_module_stub empty_world "/m/d.js")
           (with_module_stub empty_world "/m/d.js")
           (VNum 1)).
  - exists empty_world, []. repeat split.
  - reflexivity.
  - reflexivity.
Qed.

(** C9.  [let console;] then [throw 1], both evaluated in [/m/d.js]: the
    first call stores a binding [console] (of value [undefined]); in the
    second, the [console] of the wrapper's handler resolves to that binding,
    the handler itself raises, nothing is written to standard error, and
    the exception leaves [evaluate] instead of [undefined] being returned. *)
Theorem handler_console_is_captured :
  exists w w',
    evaluate Demo.host 1 "/m/d.js" [SDecl KLet [("console", EConst VUndef)]]
             false empty_world = Done w (Ok VUndef)
    /\ sget (ns_values (st w) "/m/d.js") "console" = Some VUndef
    /\ evaluate Demo.host 1 "/m/d.js" [SThrow (EConst (VNum 1))] false w
       = Done w' (Throw (typeError "Cannot read properties of undefined"))
    /\ stderr w' = [].
Proof. do 2 eexists. vm_compute. repeat split. Qed.

(** ** The value of a fragment *)

Open Scope list_scope.

Lemma program_enter_app (file : string) (a b : program) :
  program_enter file (a ++ b)
  = (program_enter file a ++ program_enter file b)%list.
Proof. unfold program_enter. apply flat_map_app. Qed.

Section Rewriter.
Variable h : Host.
Variable rec : string -> program -> bool -> M world value.

(** A list that ends with an expression statement is rewritten into one
    that ends with the [return] of that expression. *)
Lemma visit_snoc_expr (file : string) (ev : bool) (e : expr) :
  forall (ss : program) (w w1 : world) (r : list (stmt * bool)),
    visit h rec file ev (ss ++ [SExpr e]) w = Done w1 (Ok r) ->
    exists r0, r = (r0 ++ [(SReturn e, false)])%list.
Proof.
  induction ss as [|s ss IH]; intros w w1 r H.
  - simpl in H. inversion H. now exists [].
  - simpl in H.
    destruct s;
      try (apply bind_ok_inv in H; destruct H as (a & s1 & Hv & Hr);
           apply IH in Hv; destruct Hv as [r0 ->];
           inversion Hr; subst;
           eexists; rewrite ?app_comm_cons, ?app_assoc; reflexivity);
      try discriminate.
    (* an import: entered, then removed *)
    apply bind_ok_inv in H. destruct H as (a & s1 & _ & Hv).
    now apply IH in Hv.
Qed.

Lemma finish_snoc (r0 : list (stmt * bool)) (s : stmt) :
  finish (r0 ++ [(s, false)]) = (map fst r0 ++ [s])%list.
Proof.
  induction r0 as [|[s0 b] r0 IH].
  - simpl. destruct s; reflexivity.
  - change (((s0, b) :: r0) ++ [(s, false)])%list
      with ((s0, b) :: (r0 ++ [(s, false)]))%list.
    simpl map. simpl app. rewrite <- IH.
    destruct (r0 ++ [(s, false)])%list eqn:E.
    + now destruct r0.
    + simpl. destruct s0; try reflexivity. now destruct b.
Qed.

Lemma transform_snoc_expr (ns : string) (ev : bool) (e : expr)
    (front : program) (w w1 : world) (codeT : program) :
  (r <- visit h rec ns ev (front ++ [SExpr e]) ;; ret (finish r)) w
    = Done w1 (Ok codeT) ->
  exists pre, codeT = (pre ++ [SReturn e])%list.
Proof.
  intros H. apply bind_ok_inv in H. destruct H as (r & s1 & Hv & Hr).
  apply visit_snoc_expr in Hv. destruct Hv as [r0 ->].
  inversion Hr; subst. rewrite finish_snoc. eauto.
Qed.

Lemma transform_trailing_expression (ns : string) (ev : bool)
    (code : program) (e : expr) (w w1 : world) (codeT : program) :
  transform h rec ns (code ++ [SExpr e]) ev w = Done w1 (Ok codeT) ->
  exists pre, codeT = (pre ++ [SReturn e])%list.
Proof.
  unfold transform. rewrite program_enter_app. simpl.
  apply transform_snoc_expr.
Qed.

Lemma transform_trailing_declaration (ns : string) (ev : bool)
    (code : program) (k : declKind) (x : string) (e0 : expr)
    (ds : list (string * expr)) (w w1 : world) (codeT : program) :
  transform h rec ns (code ++ [SDecl k ((x, e0) :: ds)]) ev w
    = Done w1 (Ok codeT) ->
  exists pre,
    codeT = (pre ++ [SReturn (ECall (EVar "registerValue")
                                [EConst (VStr ns); EConst (VStr x); EVar x])])%list.
Proof.
  unfold transform. rewrite program_enter_app. simpl.
  rewrite map_app. simpl. rewrite app_nil_r.
  change (reg_value ns x)
    with (SExpr (ECall (EVar "registerValue")
                       [EConst (VStr ns); EConst (VStr x); EVar x])).
  rewrite app_comm_cons, app_assoc.
  apply transform_snoc_expr.
Qed.

Lemma exec_stmts_app (sc : scope) :
  forall (a b : program) (ls : locals) (w : world),
    exec_stmts h rec sc ls (a ++ b) w
    = match exec_stmts h rec sc ls a w with
      | Done w' (Ok (Normal ls')) => exec_stmts h rec sc ls' b w'
      | other => other
      end.
Proof.
  induction a as [|s a IH]; intros b ls w; [reflexivity|].
  simpl. destruct s; try reflexivity.
  - unfold bind. destruct (eval_expr h rec sc ls e w) as [w' [v|x]| |];
      try reflexivity. apply IH.
  - unfold bind. destruct (eval_expr h rec sc ls e w) as [w' [v|x]| |];
      reflexivity.
  - unfold bind. destruct (exec_decls h rec sc ls ds w) as [w' [v|x]| |];
      try reflexivity. apply IH.
  - unfold bind. destruct (eval_expr h rec sc ls e w) as [w' [v|x]| |];
      reflexivity.
Qed.
End Rewriter.

(** The claim as written fails on its own example: [const a = 5;] is
    rewritten into [const a = 5; return registerValue(ns, "a", a)], and
    [evaluate] returns 5. *)
Lemma declaration_fragment_counterexample :
  transform Demo.host (evaluate Demo.host 0) "/tmp/a.js"
            [SDecl KConst [("a", EConst (VNum 5))]] false empty_world
  = Done empty_world
         (Ok [SDecl KConst [("a", EConst (VNum 5))];
              SReturn (ECall (EVar "registerValue")
                             [EConst (VStr "/tmp/a.js"); EConst (VStr "a");
                              EVar "a"])])
  /\ evaluate Demo.host 1 "/tmp/a.js"
              [SDecl KConst [("a", EConst (VNum 5))]] false empty_world
     = Done (mkWorld (mkStore [("/tmp/a.js", [("a", VNum 5)])] [] [])
                     0 [] [[("exports", VExportsStub "/tmp/a.js")]])
            (Ok (VNum 5)).
Proof. split; reflexivity. Qed.

(** C4 (amended).  If the last statement of the fragment is an expression
    statement, the rewritten code ends with the [return] of that
    expression, and when what precedes runs to its end [evaluate] returns
    the value of the expression.  If the last statement is a declaration,
    the rewritten code ends with the [return] of the registration of its
    first binding (so [const a = 5;] gives 5).  When the rewritten code runs
    to its end without a [return], [evaluate] returns [undefined]. *)
Theorem value_of_a_fragment :
  forall (h : Host) (fuel : nat) (ns : string) (ev : bool) (w : world)
         (sc : scope) (codeT : program) (w2 : world),
    (forall (code : program) (e : expr),
        enters_body h (evaluate h fuel) ns (code ++ [SExpr e]) ev w sc codeT w2 ->
        (exists pre, codeT = pre ++ [SReturn e])
        /\ forall pre ls w3 w4 v,
            codeT = pre ++ [SReturn e] ->
            exec_stmts h (evaluate h fuel) sc (initial_locals codeT) pre w2
              = Done w3 (Ok (Normal ls)) ->
            eval_expr h (evaluate h fuel) sc ls e w3 = Done w4 (Ok v) ->
            evaluate h (S fuel) ns (code ++ [SExpr e]) ev w = Done w4 (Ok v))
    /\ (forall (code : program) (k : declKind) (x : string) (e0 : expr)
               (ds : list (string * expr)),
           enters_body h (evaluate h fuel) ns
                       (code ++ [SDecl k ((x, e0) :: ds)]) ev w sc codeT w2 ->
           exists pre,
             codeT = pre ++ [SReturn (ECall (EVar "registerValue")
                                        [EConst (VStr ns); EConst (VStr x);
                                         EVar x])])
    /\ (forall (code : program) (w3 : world) (ls : locals),
           enters_body h (evaluate h fuel) ns code ev w sc codeT w2 ->
           exec_stmts h (evaluate h fuel) sc (initial_locals codeT) codeT w2
             = Done w3 (Ok (Normal ls)) ->
           evaluate h (S fuel) ns code ev w = Done w3 (Ok VUndef)).
Proof.
  intros h fuel ns ev w sc codeT w2. split; [|split].
  - intros code e He. split.
    + destruct He as (w1 & nsI & Ht & _).
      now apply transform_trailing_expression in Ht.
    + intros pre ls w3 w4 v Hc Hp Hv. simpl.
      rewrite (evaluate_body_enters _ _ _ _ _ _ _ _ _ He).
      unfold run_wrapped. rewrite Hc at 2. rewrite exec_stmts_app, Hp.
      simpl. unfold bind. now rewrite Hv.
  - intros code k x e0 ds (w1 & nsI & Ht & _).
    now apply transform_trailing_declaration in Ht.
  - intros code w3 ls He Hx. simpl.
    rewrite (evaluate_body_enters _ _ _ _ _ _ _ _ _ He).
    unfold run_wrapped. now rewrite Hx.
Qed.

(** [1 + 2] in a fresh namespace gives 3. *)
Lemma value_of_a_fragment_witness :
  evaluate Demo.host 1 "/tmp/a.js"
           [SExpr (EOp Demo.num_add [EConst (VNum 1); EConst (VNum 2)])]
           false empty_world
  = Done (with_module_stub empty_world "/tmp/a.js") (Ok (VNum 3)).
Proof.
  pose (e := EOp Demo.num_add [EConst (VNum 1); EConst (VNum 2)]).
  assert (He : enters_body Demo.host (evaluate Demo.host 0) "/tmp/a.js"
                 ([] ++ [SExpr e]) false empty_world
                 (make_scope Demo.host "/tmp/a.js" 0 false [] [])
                 [SReturn e] (with_module_stub empty_world "/tmp/a.js")).
  { exists empty_world, []. repeat split. }
  exact (proj2 (proj1 (value_of_a_fragment
                         Demo.host 0 "/tmp/a.js" false empty_world _ _ _)
                      [] e He)
               [] [] _ _ (VNum 3) eq_refl eq_refl eq_refl).
Defined.

(** ** Termination over files that import from each other *)

Lemma expr_nested_ind (P : expr -> Prop)
    (HConst : forall v, P (EConst v))
    (HVar : forall x, P (EVar x))
    (HOp : forall f args, Forall P args -> P (EOp f args))
    (HMember : forall o p, P o -> P (EMember o p))
    (HCall : forall c args, P c -> Forall P args -> P (ECall c args))
    (HAssign : forall o p e, P o -> P e -> P (EAssignMember o p e)) :
  forall e, P e.
Proof.
  fix IH 1. intros [v|x|f args|o p|c args|o p e].
  - apply HConst.
  - apply HVar.
  - apply HOp. induction args as [|a args IHa]; constructor; [apply IH|exact IHa].
  - apply HMember, IH.
  - apply HCall; [apply IH|].
    induction args as [|a args IHa]; constructor; [apply IH|exact IHa].
  - apply HAssign; apply IH.
Qed.

Lemma get_prop_total (h : Host) v p w :
  exists r, get_prop h v p w = Done w r.
Proof.
  destruct v; simpl; unfold bind, get, ret, throw, lift; eauto.
  - destruct (String.eqb p "exported"); eauto.
    destruct (String.eqb p "local"); eauto.
  - destruct (String.eqb p "error"); eauto.
Qed.

Section PureExpressions.
Variable h : Host.
Variable rec : string -> program -> bool -> M world value.
Variables (sc : scope) (ls : locals).

(** A call-free expression has a result and leaves the world alone. *)
Lemma eval_pure :
  forall e, pure e = true ->
            forall w, exists r, eval_expr h rec sc ls e w = Done w r.
Proof.
  induction e as [v|x|f args IHargs|o p IHo|c args _ _|o p e _ _]
    using expr_nested_ind; intros Hp w; simpl in *; try discriminate.
  - eexists; reflexivity.
  - eexists; reflexivity.
  - assert (Hl : exists r,
               eval_list (eval_expr h rec sc ls) args w = Done w r).
    { clear f. induction args as [|a args IHl]; simpl.
      - eexists; reflexivity.
      - apply andb_true_iff in Hp. destruct Hp as [Ha Hr].
        inversion IHargs as [|? ? Pa Pr]; subst.
        destruct (Pa Ha w) as [ra Ea]. destruct (IHl Pr Hr) as [rl El].
        unfold bind, ret. rewrite Ea. destruct ra; [|eauto].
        rewrite El. destruct rl; eauto. }
    destruct Hl as [rl El]. unfold bind. rewrite El.
    destruct rl; unfold lift; eauto.
  - destruct (IHo Hp w) as [r Er]. unfold bind. rewrite Er.
    destruct r; [apply get_prop_total|eauto].
Qed.
End PureExpressions.

Lemma marks_kept_refl s : marks_kept s s.
Proof. intros ns H. exact H. Qed.

Lemma marks_kept_trans s1 s2 s3 :
  marks_kept s1 s2 -> marks_kept s2 s3 -> marks_kept s1 s3.
Proof. intros H1 H2 ns H. auto. Qed.

Lemma filter_length_mono {A} (f g : A -> bool) (l : list A) :
  (forall x, In x l -> g x = true -> f x = true) ->
  length (filter g l) <= length (filter f l).
Proof.
  induction l as [|a l IH]; intros H; simpl; [lia|].
  assert (IH' : length (filter g l) <= length (filter f l)).
  { apply IH. intros x Hx. apply H. now right. }
  destruct (g a) eqn:G.
  - rewrite (H a (or_introl eq_refl) G). simpl. lia.
  - destruct (f a); simpl; lia.
Qed.

Lemma filter_length_strict {A} (f g : A -> bool) (l : list A) (a : A) :
  (forall x, In x l -> g x = true -> f x = true) ->
  In a l -> f a = true -> g a = false ->
  length (filter g l) < length (filter f l).
Proof.
  induction l as [|b l IH]; intros H Hin Hf Hg; [destruct Hin|].
  simpl. destruct Hin as [->|Hin].
  - rewrite Hf, Hg. simpl.
    assert (length (filter g l) <= length (filter f l)).
    { apply filter_length_mono. intros x Hx. apply H. now right. }
    lia.
  - assert (IH' : length (filter g l) < length (filter f l)).
    { apply IH; auto. intros x Hx. apply H. now right. }
    destruct (g b) eqn:G.
    + rewrite (H b (or_introl eq_refl) G). simpl. lia.
    + destruct (f b); simpl; lia.
Qed.

Lemma unmarked_count_le files s s' :
  marks_kept s s' -> unmarked_count files s' <= unmarked_count files s.
Proof.
  intros Hk. apply filter_length_mono. intros x _ Hx.
  apply negb_true_iff in Hx. apply negb_true_iff.
  destruct (marked s x) eqn:E; [|reflexivity].
  apply Hk in E. congruence.
Qed.

Lemma unmarked_count_lt files s s' r :
  marks_kept s s' -> In r files ->
  marked s r = false -> marked s' r = true ->
  unmarked_count files s' < unmarked_count files s.
Proof.
  intros Hk Hin Hu Hm. apply (filter_length_strict _ _ files r); auto.
  - intros x _ Hx. apply negb_true_iff in Hx. apply negb_true_iff.
    destruct (marked s x) eqn:E; [|reflexivity].
    apply Hk in E. congruence.
  - now rewrite Hu.
  - now rewrite Hm.
Qed.

Lemma unmarked_count_bound files s : unmarked_count files s <= length files.
Proof. apply List.filter_length_le. Qed.

(** *** What the registrations do to marks and to protected names *)

Lemma marked_sset s ns m ve vi ns' :
  marked s ns' = true ->
  marked (mkStore (sset (namespaces s) ns m) ve vi) ns' = true.
Proof.
  unfold marked. simpl. intros H.
  destruct (sget (namespaces s) ns') eqn:E; [|discriminate].
  assert (Hs : sget (sset (namespaces s) ns m) ns' <> None).
  { apply sget_sset_some. congruence. }
  destruct (sget (sset (namespaces s) ns m) ns'); [reflexivity|congruence].
Qed.

Lemma registerValue_marks s ns x v : marks_kept s (registerValue s ns x v).
Proof. intros ns' H. now apply marked_sset. Qed.

Lemma protected_neq x y :
  is_protected x = true -> is_protected y = false -> x <> y.
Proof. intros Hx Hy ->. congruence. Qed.

Lemma registerValue_unshadowed files s ns x v :
  is_protected x = false ->
  unshadowed files s -> unshadowed files (registerValue s ns x v).
Proof.
  intros Hx Hu ns' y Hin Hy. destruct (Hu ns' y Hin Hy) as [Hv Hi].
  split; [|exact Hi].
  unfold registerValue, ns_values at 1. simpl.
  destruct (String.eqb ns' ns) eqn:E.
  - apply String.eqb_eq in E. subst ns'. rewrite sget_sset_eq.
    rewrite sget_sset_neq; [exact Hv|]. now apply protected_neq.
  - rewrite sget_sset_neq; [exact Hv|].
    intros ->. now rewrite String.eqb_refl in E.
Qed.

Lemma registerValueImport_at_unshadowed files s file local imp p b :
  is_protected local = false ->
  unshadowed files s ->
  unshadowed files (registerValueImport_at s file local imp p b).
Proof.
  intros Hx Hu ns' y Hin Hy. destruct (Hu ns' y Hin Hy) as [Hv Hi].
  split; [exact Hv|].
  unfold registerValueImport_at, ns_imports at 1. simpl.
  destruct (String.eqb ns' file) eqn:E.
  - apply String.eqb_eq in E. subst ns'. rewrite sget_sset_eq.
    rewrite sget_sset_neq; [exact Hi|]. now apply protected_neq.
  - rewrite sget_sset_neq; [exact Hi|].
    intros ->. now rewrite String.eqb_refl in E.
Qed.

Lemma mark_unshadowed files s r :
  unshadowed files s ->
  unshadowed files (mkStore (sset (namespaces s) r [])
                            (valueExports s) (valueImports s)).
Proof.
  intros Hu ns' y Hin Hy. destruct (Hu ns' y Hin Hy) as [Hv Hi].
  split; [|exact Hi].
  unfold ns_values at 1. simpl.
  destruct (String.eqb ns' r) eqn:E.
  - apply String.eqb_eq in E. subst ns'. now rewrite sget_sset_eq.
  - rewrite sget_sset_neq; [exact Hv|].
    intros ->. now rewrite String.eqb_refl in E.
Qed.

Lemma mark_marked s r :
  marked (mkStore (sset (namespaces s) r [])
                  (valueExports s) (valueImports s)) r = true.
Proof. unfold marked. simpl. now rewrite sget_sset_eq. Qed.

(** *** Running a rewritten call-free fragment *)

Lemma ends_well_bind {A B} files (m : M world A) (k : A -> M world B) w :
  ends_well files w (m w) ->
  (forall a w', m w = Done w' (Ok a) ->
                unshadowed files (st w') -> marks_kept (st w) (st w') ->
                ends_well files w' (k a w')) ->
  ends_well files w (bind m k w).
Proof.
  intros (w' & x & E & Hu & Hk) Hcont. unfold bind. rewrite E.
  destruct x as [a|e].
  - destruct (Hcont a w' E Hu Hk) as (w2 & y & E2 & Hu2 & Hk2).
    exists w2, y. split; [exact E2|]. split; [exact Hu2|].
    eapply marks_kept_trans; eauto.
  - exists w', (Throw e). auto.
Qed.

Lemma ends_well_same {A} files w (r : result A) :
  unshadowed files (st w) -> ends_well files w (Done w r).
Proof.
  intros Hu. exists w, r. split; [reflexivity|]. split; [exact Hu|].
  apply marks_kept_refl.
Qed.

Section RunRewritten.
Variable h : Host.
Variable rec : string -> program -> bool -> M world value.
Variable files : list string.
Variable ns : string.
Variable sc : scope.
Hypothesis Hsc : helpers_visible sc.

Lemma lookup_protected ls x v :
  locals_clear ls -> is_protected x = true ->
  scope_lookup sc x = Some v -> lookup sc ls x = Ok v.
Proof.
  intros Hl Hx Hs. unfold lookup. now rewrite (Hl x Hx), Hs.
Qed.

Lemma eval_pure_ends ls e w :
  pure e = true -> unshadowed files (st w) ->
  ends_well files w (eval_expr h rec sc ls e w).
Proof.
  intros Hp Hu. destruct (eval_pure h rec sc ls e Hp w) as [r ->].
  now apply ends_well_same.
Qed.

Lemma eval_reg_call_ends ls e w :
  reg_call ns e -> locals_clear ls -> unshadowed files (st w) ->
  ends_well files w (eval_expr h rec sc ls e w).
Proof.
  destruct Hsc as (Hv & He & Hd & _).
  intros Hr Hl Hu. destruct Hr as [x Hx|local exp|local]; simpl.
  - rewrite (lookup_protected ls "registerValue" _ Hl eq_refl Hv).
    unfold bind, lift, ret. simpl.
    destruct (lookup sc ls x) as [v|e]; simpl.
    + eexists _, _. split; [reflexivity|]. simpl. split.
      * now apply registerValue_unshadowed.
      * apply registerValue_marks.
    + now apply ends_well_same.
  - rewrite (lookup_protected ls "registerValueExport" _ Hl eq_refl He).
    unfold bind, lift, ret. simpl.
    eexists _, _. split; [reflexivity|]. simpl. split.
    + intros ns' y Hin Hy. exact (Hu ns' y Hin Hy).
    + intros ns' H. exact H.
  - rewrite (lookup_protected ls "registerDefaultValueExport" _ Hl eq_refl Hd).
    unfold bind, lift, ret. simpl.
    eexists _, _. split; [reflexivity|]. simpl. split.
    + intros ns' y Hin Hy. exact (Hu ns' y Hin Hy).
    + intros ns' H. exact H.
Qed.

Lemma exec_decls_static ds :
  static_decls ds = true ->
  forall ls w, locals_clear ls ->
    exists r, exec_decls h rec sc ls ds w = Done w r
              /\ forall ls', r = Ok ls' -> locals_clear ls'.
Proof.
  induction ds as [|[x e] ds IH]; intros Hs ls w Hl; simpl.
  - eexists. split; [reflexivity|]. intros ls' H. inversion H; subst. exact Hl.
  - simpl in Hs. apply andb_true_iff in Hs. destruct Hs as [Hd Hs].
    apply andb_true_iff in Hd. destruct Hd as [Hp Hx].
    apply negb_true_iff in Hx.
    destruct (eval_pure h rec sc ls e Hp w) as [r Er].
    unfold bind. rewrite Er. destruct r as [v|ex].
    + apply IH; [exact Hs|].
      intros y Hy. rewrite sget_sset_neq; [now apply Hl|].
      now apply protected_neq.
    + eexists. split; [reflexivity|]. discriminate.
Qed.

Lemma exec_rewritten ss :
  Forall (rewritten ns) ss ->
  forall ls w, locals_clear ls -> unshadowed files (st w) ->
    ends_well files w (exec_stmts h rec sc ls ss w).
Proof.
  induction ss as [|s ss IH]; intros Hf ls w Hl Hu.
  - now apply ends_well_same.
  - inversion Hf as [|? ? Hs Hrest]; subst. simpl.
    destruct Hs as [e Hp|e Hc|e Hp|e Hc|e Hp|k ds Hd].
    + apply ends_well_bind; [now apply eval_pure_ends|].
      intros _ w' _ Hu' _. now apply IH.
    + apply ends_well_bind; [now apply eval_reg_call_ends|].
      intros _ w' _ Hu' _. now apply IH.
    + apply ends_well_bind; [now apply eval_pure_ends|].
      intros v w' _ Hu' _. now apply ends_well_same.
    + apply ends_well_bind; [now apply eval_reg_call_ends|].
      intros v w' _ Hu' _. now apply ends_well_same.
    + apply ends_well_bind; [now apply eval_pure_ends|].
      intros v w' _ Hu' _. now apply ends_well_same.
    + destruct (exec_decls_static ds Hd ls w Hl) as (r & Er & Hr).
      unfold bind. rewrite Er. destruct r as [ls'|ex].
      * apply IH; auto.
      * now apply ends_well_same.
Qed.

(** The wrapper around it. *)
Lemma run_wrapped_rewritten code w :
  Forall (rewritten ns) code ->
  locals_clear (initial_locals code) ->
  unshadowed files (st w) ->
  ends_well files w (run_wrapped h rec sc code w).
Proof.
  intros Hf Hl Hu.
  destruct (exec_rewritten code Hf _ w Hl Hu) as (w' & x & E & Hu' & Hk).
  unfold run_wrapped. rewrite E. destruct x as [[ls|v]|e].
  - exists w', (Ok VUndef). auto.
  - exists w', (Ok v). auto.
  - destruct Hsc as (_ & _ & _ & Hc).
    unfold handler. simpl. unfold bind, lift, lookup. simpl. rewrite Hc.
    simpl. eexists _, _. split; [reflexivity|]. simpl. auto.
Qed.
End RunRewritten.

(** *** What the rewriter makes of a call-free fragment *)

Lemma static_decls_names ds x :
  static_decls ds = true -> In x (map fst ds) -> is_protected x = false.
Proof.
  unfold static_decls. intros Hs Hin. apply in_map_iff in Hin.
  destruct Hin as ([y e] & <- & Hin).
  rewrite forallb_forall in Hs. specialize (Hs _ Hin). simpl in Hs.
  apply andb_true_iff in Hs. destruct Hs as [_ Hx].
  now apply negb_true_iff in Hx.
Qed.

Lemma program_enter_entered (ns : string) (code : program) :
  static_only code = true -> Forall (entered ns) (program_enter ns code).
Proof.
  unfold static_only. intros Hs. rewrite forallb_forall in Hs.
  apply Forall_forall. intros s Hin. unfold program_enter in Hin.
  apply in_flat_map in Hin. destruct Hin as (s0 & Hin0 & Hin).
  specialize (Hs s0 Hin0).
  assert (Hd : forall ds, static_decls ds = true ->
                 In s (s0 :: map (reg_value ns) (rev (map fst ds))) ->
                 entered ns s).
  { intros ds Hds [<-|Hr]; [now left|].
    apply in_map_iff in Hr. destruct Hr as (x & <- & Hx).
    right. eexists. split; [reflexivity|]. constructor.
    apply (static_decls_names ds); [exact Hds|]. now apply in_rev. }
  destruct s0; simpl in Hin;
    try (destruct Hin as [<-|[]]; now left).
  - now apply (Hd ds).
  - now apply (Hd ds).
Qed.

Lemma program_enter_imports (ns : string) (code : program) source specs :
  In (SImport source specs) (program_enter ns code) ->
  In (SImport source specs) code.
Proof.
  unfold program_enter. intros Hin. apply in_flat_map in Hin.
  destruct Hin as (s0 & Hin0 & Hin).
  assert (Hd : forall ds : list (string * expr),
                 In (SImport source specs)
                    (s0 :: map (reg_value ns) (rev (map fst ds))) ->
                 s0 = SImport source specs).
  { intros ds [E|Hr]; [exact E|].
    apply in_map_iff in Hr. destruct Hr as (x & Hx & _). discriminate. }
  destruct s0; simpl in Hin;
    try (destruct Hin as [E|[]]; try discriminate; now rewrite <- E).
  - apply Hd in Hin. discriminate.
  - apply Hd in Hin. discriminate.
Qed.

Section VisitShape.
Variable h : Host.
Variable rec : string -> program -> bool -> M world value.
Variables (ns : string) (ev : bool).

Lemma visit_rewritten :
  forall ss w w' r,
    Forall (entered ns) ss ->
    visit h rec ns ev ss w = Done w' (Ok r) ->
    Forall (visited ns) r.
Proof.
  induction ss as [|s ss IH]; intros w w' r Hf H.
  - simpl in H. inversion H. constructor.
  - inversion Hf as [|? ? Hs Hrest]; subst. simpl in H.
    destruct s; try discriminate;
      apply bind_ok_inv in H; destruct H as (a & w1 & Hv & Hr);
      try (apply (IH _ _ _ Hrest) in Hv; inversion Hr; subst; clear Hr).
    + (* expression statement *)
      constructor; [|exact Hv]. split; [|discriminate].
      destruct Hs as [Hs|(e' & He & Hc)].
      * simpl in Hs. destruct (is_nil ss); now constructor.
      * inversion He; subst. destruct (is_nil ss); now constructor.
    + constructor; [|exact Hv]. split; [|discriminate].
      destruct Hs as [Hs|(e' & He & _)]; [|discriminate].
      now constructor.
    + constructor; [|exact Hv]. split; [|discriminate].
      destruct Hs as [Hs|(e' & He & _)]; [|discriminate].
      now constructor.
    + constructor; [|exact Hv]. split; [|discriminate].
      destruct Hs as [Hs|(e' & He & _)]; [|discriminate].
      now constructor.
    + (* import *)
      now apply (IH _ _ _ Hrest) in Hr.
    + (* export { ... } *)
      apply Forall_app. split; [|exact Hv].
      destruct Hs as [Hs|(e' & He & _)]; [|discriminate].
      destruct specs as [|sp specs]; [discriminate|].
      apply Forall_forall. intros sb Hin. apply in_map_iff in Hin.
      destruct Hin as (le & <- & _). split; simpl.
      * apply rw_call. constructor.
      * intros _. eexists. split; [reflexivity|]. constructor.
    + (* export declaration *)
      destruct Hs as [Hs|(e' & He & _)]; [|discriminate].
      constructor.
      * split; [|discriminate]. now constructor.
      * apply Forall_app. split; [|exact Hv].
        apply Forall_forall. intros sb Hin. apply in_map_iff in Hin.
        destruct Hin as (x & <- & _). split; simpl.
        -- apply rw_call. constructor.
        -- intros _. eexists. split; [reflexivity|]. constructor.
    + (* export default x *)
      constructor; [split; [now constructor|discriminate]|].
      constructor; [|exact Hv]. split; simpl.
      * apply rw_call. constructor.
      * intros _. eexists. split; [reflexivity|]. constructor.
    + (* export * from *)
      destruct Hs as [Hs|(e' & He & _)]; discriminate.
Qed.
End VisitShape.

Lemma finish_rewritten (ns : string) (r : list (stmt * bool)) :
  Forall (visited ns) r -> Forall (rewritten ns) (finish r).
Proof.
  induction r as [|[s b] r IH]; intros Hf; [constructor|].
  inversion Hf as [|? ? [Hs Hb] Hrest]; subst. simpl in *.
  assert (Hdef : Forall (rewritten ns) (s :: finish r)).
  { constructor; auto. }
  destruct s; try exact Hdef.
  destruct b; try exact Hdef.
  destruct r; try exact Hdef.
  destruct (Hb eq_refl) as (e' & He & Hc). inversion He; subst.
  constructor; [now apply rw_return_call|constructor].
Qed.

Lemma initial_locals_clear (ns : string) (code : program) :
  Forall (rewritten ns) code -> locals_clear (initial_locals code).
Proof.
  intros Hf. unfold initial_locals.
  assert (Hn : forall x, In x (declared_names code) -> is_protected x = false).
  { intros x Hin. unfold declared_names in Hin. apply in_flat_map in Hin.
    destruct Hin as (s & Hs & Hx). rewrite Forall_forall in Hf.
    specialize (Hf s Hs). destruct Hf; simpl in Hx; try contradiction.
    now apply (static_decls_names ds). }
  assert (Hg : forall names (acc : locals),
             (forall x, In x names -> is_protected x = false) ->
             locals_clear acc ->
             locals_clear (fold_left (fun ls x => sset ls x None) names acc)).
  { induction names as [|n names IHn]; intros acc Hnames Hacc; [exact Hacc|].
    simpl. apply IHn.
    - intros x Hx. apply Hnames. now right.
    - intros y Hy. rewrite sget_sset_neq; [now apply Hacc|].
      apply protected_neq; [exact Hy|]. apply Hnames. now left. }
  apply Hg; [exact Hn|]. intros x _. reflexivity.
Qed.

(** *** The recursion through import declarations *)

Lemma register_all_unshadowed files file p b specs s :
  forallb (fun sp => negb (is_protected (spec_local sp))) specs = true ->
  unshadowed files s -> unshadowed files (register_all file p b specs s).
Proof.
  revert s. induction specs as [|sp specs IH]; intros s Hs Hu; [exact Hu|].
  simpl in Hs. apply andb_true_iff in Hs. destruct Hs as [Hx Hs].
  apply negb_true_iff in Hx. simpl. apply IH; [exact Hs|].
  now apply registerValueImport_at_unshadowed.
Qed.

Section ImportRecursion.
Variable h : Host.
Variable files : list string.
Variable ev : bool.

Variable rec : string -> program -> bool -> M world value.
Variable n : nat.
Hypothesis Hrec : nested_ends h files ev rec n.

Lemma registerSpecifiers_ends file source r b specs w :
  resolve h file source = Ok r ->
  forallb (fun sp => negb (is_protected (spec_local sp))) specs = true ->
  unshadowed files (st w) ->
  ends_well files w (registerSpecifiers h file source b specs w).
Proof.
  intros Hr Hs Hu. rewrite (registerSpecifiers_ok h _ _ _ b specs w Hr).
  eexists _, _. split; [reflexivity|]. simpl. split.
  - now apply register_all_unshadowed.
  - intros ns' H. unfold marked in *.
    now rewrite (proj1 (register_all_namespaces file r b specs (st w))).
Qed.

Lemma importEnter_ends file source specs w :
  (forall r, resolve h file source = Ok r -> isAbsolute r = true ->
             In r files) ->
  forallb (fun sp => negb (is_protected (spec_local sp))) specs = true ->
  unshadowed files (st w) ->
  unmarked_count files (st w) <= n ->
  ends_well files w (importEnter h rec file ev source specs w).
Proof.
  intros Hclosed Hs Hu Hn. unfold importEnter. unfold bind at 1.
  unfold normalizeImportPath.
  destruct (resolve h file source) as [r|e] eqn:Hr.
  2:{ eexists _, _. split; [reflexivity|]. simpl. split; [exact Hu|].
      apply marks_kept_refl. }
  unfold bind at 1. unfold get at 1.
  apply ends_well_bind.
  - destruct (negb (negb (isAbsolute r)) && ev && negb (marked (st w) r))
      eqn:Hc.
    + apply andb_true_iff in Hc. destruct Hc as [Hc Hm].
      apply andb_true_iff in Hc. destruct Hc as [Ha He].
      rewrite negb_involutive in Ha. apply negb_true_iff in Hm.
      unfold bind at 1. unfold modify at 1.
      set (w1 := mark w r).
      assert (Hu1 : unshadowed files (st w1)) by now apply mark_unshadowed.
      assert (Hk1 : marks_kept (st w) (st w1)).
      { intros ns' H. now apply marked_sset. }
      assert (Hends : ends_well files w1
                ((code <- lift (readFile h r) ;;
                  rec r code ev ;;; ret tt) w1)).
      { apply ends_well_bind.
        - unfold lift. now apply ends_well_same.
        - intros code w' E _ _. unfold lift in E. inversion E; subst w'.
          apply ends_well_bind.
          + apply Hrec; auto.
            assert (unmarked_count files (st w1) < unmarked_count files (st w)).
            { apply (unmarked_count_lt files (st w) (st w1) r); auto.
              apply mark_marked. }
            lia.
          + intros _ w2 _ Hu2 _. now apply ends_well_same. }
      destruct Hends as (w2 & x & E2 & Hu2 & Hk2).
      exists w2, x. split; [exact E2|]. split; [exact Hu2|].
      eapply marks_kept_trans; eauto.
    + now apply ends_well_same.
  - intros _ w' _ Hu' _. now apply (registerSpecifiers_ends file source r).
Qed.

Lemma visit_ends file :
  In file files ->
  forall ss w,
    Forall (entered file) ss ->
    (forall source specs r,
        In (SImport source specs) ss -> resolve h file source = Ok r ->
        isAbsolute r = true -> In r files) ->
    unshadowed files (st w) ->
    unmarked_count files (st w) <= n ->
    ends_well files w (visit h rec file ev ss w).
Proof.
  intros Hfile. induction ss as [|s ss IH]; intros w Hf Hclosed Hu Hn.
  - now apply ends_well_same.
  - inversion Hf as [|? ? Hs Hrest]; subst.
    assert (Hclosed' : forall source specs r,
               In (SImport source specs) ss -> resolve h file source = Ok r ->
               isAbsolute r = true -> In r files).
    { intros source specs r Hin. apply (Hclosed source specs r). now right. }
    assert (Hrec_ends : ends_well files w (visit h rec file ev ss w))
      by now apply IH.
    simpl.
    destruct s;
      try (apply ends_well_bind; [exact Hrec_ends|];
           intros a w' _ Hu' _; now apply ends_well_same).
    + (* import *)
      apply ends_well_bind.
      * apply importEnter_ends; auto.
        -- intros r. apply (Hclosed source specs r). now left.
        -- destruct Hs as [Hs|(e' & He & _)]; [exact Hs|discriminate].
      * intros _ w' _ Hu' Hk'. apply IH; auto.
        pose proof (unmarked_count_le files _ _ Hk'). lia.
    + (* export default <expression> *)
      now apply ends_well_same.
Qed.
End ImportRecursion.

(** *** The scope of a namespace whose store leaves the helpers visible *)

Lemma importValue_total (h : Host) s ns i w :
  exists r, importValue h s ns i w = Done w r.
Proof.
  unfold importValue.
  destruct (negb (isBuiltIn i) && ekey_eqb (imported i) KNamespace);
    [eexists; reflexivity|].
  destruct (isBuiltIn i).
  - unfold bind, lift. destruct (hostRequire h ns (importedNamespace i));
      [|eexists; reflexivity].
    destruct (imported i); try (eexists; reflexivity). apply get_prop_total.
  - destruct (aget ekey_eqb _ _); eexists; reflexivity.
Qed.

Lemma synthImports_total (h : Host) s ns entries :
  forall acc w, exists r, synthImports h s ns entries acc w = Done w r.
Proof.
  induction entries as [|[l i] entries IH]; intros acc w; simpl.
  - eexists; reflexivity.
  - destruct (importValue_total h s ns i w) as [r Er].
    unfold bind. rewrite Er. destruct r; [apply IH|eexists; reflexivity].
Qed.

Lemma synthImports_keys (h : Host) s ns entries x :
  forall acc w w' nsI,
    synthImports h s ns entries acc w = Done w' (Ok nsI) ->
    sget acc x = None -> sget entries x = None -> sget nsI x = None.
Proof.
  induction entries as [|[l i] entries IH]; intros acc w w' nsI H Ha He.
  - simpl in H. inversion H. now subst.
  - simpl in H. apply bind_ok_inv in H. destruct H as (v & w1 & _ & H).
    unfold sget in He. simpl in He.
    destruct (String.eqb x l) eqn:E; [discriminate|].
    apply (IH _ _ _ _ H); [|exact He].
    rewrite sget_sset_neq; [exact Ha|].
    intros ->. now rewrite String.eqb_refl in E.
Qed.

Lemma sget_spread_none (ext base : amap string value) (x : string) :
  sget ext x = None -> sget base x = None -> sget (spread base ext) x = None.
Proof.
  revert base. induction ext as [|[k v] ext IH]; intros base He Hb.
  - exact Hb.
  - unfold sget in He. simpl in He.
    destruct (String.eqb x k) eqn:E; [discriminate|].
    change (spread base ((k, v) :: ext)) with (spread (sset base k v) ext).
    apply IH; [exact He|].
    rewrite sget_sset_neq; [exact Hb|].
    intros ->. now rewrite String.eqb_refl in E.
Qed.

Lemma make_scope_helpers_visible (h : Host) ns id ev nsI values :
  sget (vmGlobal h) "console" = Some VConsole ->
  (forall x, is_protected x = true ->
             sget values x = None /\ sget nsI x = None) ->
  helpers_visible (make_scope h ns id ev nsI values).
Proof.
  intros Hc Hp.
  assert (Hl : forall x, is_protected x = true ->
                 scope_lookup (make_scope h ns id ev nsI values) x
                 = match sget (helpers nsI (spread [] values)) x with
                   | Some v => Some v
                   | None =>
                       match sget (cjsStubs h ns id ev) x with
                       | Some v => Some v
                       | None => sget (vmGlobal h) x
                       end
                   end).
  { intros x Hx. rewrite scope_lookup_layers. destruct (Hp x Hx) as [Hv Hi].
    simpl nsForScope. rewrite (sget_spread_none values [] x Hv eq_refl), Hi.
    unfold is_protected in Hx. simpl in Hx.
    repeat (apply orb_true_iff in Hx; destruct Hx as [Hx|Hx];
            [apply String.eqb_eq in Hx; subst x; reflexivity|]).
    discriminate. }
  repeat split; rewrite Hl; try reflexivity. exact Hc.
Qed.

Section EvaluateEnds.
Variable h : Host.
Variable files : list string.
Variable ev : bool.
Hypothesis Hconsole : sget (vmGlobal h) "console" = Some VConsole.
Hypothesis Hdisk :
  forall p code, In p files -> readFile h p = Ok code ->
                 static_only code = true /\ imports_closed h files p code.

Lemma evaluate_body_ends rec n ns code w :
  nested_ends h files ev rec n ->
  In ns files ->
  static_only code = true ->
  imports_closed h files ns code ->
  unshadowed files (st w) ->
  unmarked_count files (st w) <= n ->
  ends_well files w (evaluate_body h rec ns code ev w).
Proof.
  intros Hrec Hns Hs Hcl Hu Hn. unfold evaluate_body.
  apply ends_well_bind.
  - unfold transform. apply ends_well_bind.
    + apply (visit_ends h files ev rec n Hrec ns Hns); auto.
      * now apply program_enter_entered.
      * intros source specs r Hin. apply (Hcl source specs r).
        now apply program_enter_imports in Hin.
    + intros r w' _ Hu' _. now apply ends_well_same.
  - intros codeT w1 Ht Hu1 _.
    assert (Hrw : Forall (rewritten ns) codeT).
    { unfold transform in Ht. apply bind_ok_inv in Ht.
      destruct Ht as (r & w0 & Hv & Hr). inversion Hr; subst.
      apply finish_rewritten.
      apply (visit_rewritten h rec ns ev _ _ _ _
               (program_enter_entered ns code Hs) Hv). }
    unfold bind at 1. unfold get at 1.
    destruct (synthImports_total h (st w1) ns (ns_imports (st w1) ns) [] w1)
      as [r Er].
    unfold bind at 1. rewrite Er.
    destruct r as [nsI|e]; [|now apply ends_well_same].
    unfold bind at 1. unfold get at 1.
    unfold bind at 1. unfold modify at 1.
    assert (Hw : ends_well files (with_module_stub w1 ns)
                   (run_wrapped h rec
                      (make_scope h ns (length (modules w1)) ev nsI
                                  (ns_values (st w1) ns))
                      codeT (with_module_stub w1 ns))).
    { apply run_wrapped_rewritten with (ns := ns); auto.
      - apply make_scope_helpers_visible; [exact Hconsole|].
        intros x Hx. destruct (Hu1 ns x Hns Hx) as [Hv Hi].
        split; [exact Hv|].
        apply (synthImports_keys h (st w1) ns _ x _ _ _ _ Er eq_refl Hi).
      - now apply initial_locals_clear with (ns := ns). }
    exact Hw.
Qed.

(** Enough fuel for the number of unmarked files. *)
Lemma evaluate_ends :
  forall n fuel ns code w,
    n < fuel ->
    In ns files ->
    static_only code = true ->
    imports_closed h files ns code ->
    unshadowed files (st w) ->
    unmarked_count files (st w) <= n ->
    ends_well files w (evaluate h fuel ns code ev w).
Proof.
  induction n as [n IH] using (well_founded_induction Wf_nat.lt_wf).
  intros fuel ns code w Hfuel Hns Hs Hcl Hu Hn.
  destruct fuel as [|fuel]; [lia|]. simpl.
  apply (evaluate_body_ends (evaluate h fuel) n); auto.
  intros p code' w' Hp Hread Hu' Hlt.
  destruct (Hdisk p code' Hp Hread) as [Hs' Hcl'].
  apply (IH (unmarked_count files (st w'))); auto; lia.
Qed.
End EvaluateEnds.

(** *** Marking at an import declaration *)

Lemma importEnter_unmarked (h : Host)
    (rec : string -> program -> bool -> M world value)
    (file source r : string) (specs : list importSpec) (code : program)
    (w : world) :
  resolve h file source = Ok r ->
  isAbsolute r = true ->
  marked (st w) r = false ->
  readFile h r = Ok code ->
  importEnter h rec file true source specs w
  = (rec r code true ;;; registerSpecifiers h file source false specs)
      (mark w r).
Proof.
  intros Hr Ha Hm Hf. unfold importEnter. unfold bind at 1.
  rewrite (normalizeImportPath_ok h _ _ _ w Hr). rewrite Ha.
  unfold bind at 1. unfold get at 1. rewrite Hm. simpl.
  unfold bind, modify, lift, ret, mark. rewrite Hf.
  destruct (rec r code true _) as [w' [v|e]| |]; reflexivity.
Qed.

Lemma importEnter_marked (h : Host)
    (rec rec' : string -> program -> bool -> M world value)
    (file source r : string) (ev : bool) (specs : list importSpec)
    (w : world) :
  resolve h file source = Ok r ->
  marked (st w) r = true ->
  importEnter h rec file ev source specs w
  = importEnter h rec' file ev source specs w.
Proof.
  intros Hr Hm.
  assert (E : forall rc, importEnter h rc file ev source specs w
                = registerSpecifiers h file source (negb (isAbsolute r))
                                     specs w).
  { intros rc. unfold importEnter. unfold bind at 1.
    rewrite (normalizeImportPath_ok h _ _ _ w Hr).
    unfold bind at 1. unfold get at 1. rewrite Hm.
    rewrite andb_false_r. reflexivity. }
  now rewrite (E rec), (E rec').
Qed.




(** * Further properties of the engine *)

(** ** The store: what a registration writes and what it leaves *)

Section AMapMore.
Variables (K V : Type).
Variable eqb : K -> K -> bool.
Hypothesis eqb_spec : forall a b, eqb a b = true <-> a = b.

Lemma aset_aset (m : amap K V) k v1 v2 :
  aset eqb (aset eqb m k v1) k v2 = aset eqb m k v2.
Proof.
  induction m as [|[k' v'] m IH]; simpl.
  - now rewrite (@eqb_refl_of _ _ eqb_spec _).
  - destruct (eqb k k') eqn:E; simpl; rewrite E; [reflexivity|].
    now rewrite IH.
Qed.

Lemma aset_keys_present (m : amap K V) k v :
  aget eqb m k <> None -> map fst (aset eqb m k v) = map fst m.
Proof.
  induction m as [|[k' v'] m IH]; simpl; intros H; [congruence|].
  destruct (eqb k k') eqn:E; simpl; [reflexivity|].
  now rewrite IH.
Qed.

Lemma aset_keys_absent (m : amap K V) k v :
  aget eqb m k = None -> map fst (aset eqb m k v) = (map fst m ++ [k])%list.
Proof.
  induction m as [|[k' v'] m IH]; simpl; intros H; [reflexivity|].
  destruct (eqb k k') eqn:E; [discriminate|]. simpl. now rewrite IH.
Qed.

Lemma aget_none_notin (m : amap K V) k :
  aget eqb m k = None -> ~ In k (map fst m).
Proof.
  induction m as [|[k' v'] m IH]; simpl; intros H; [tauto|].
  destruct (eqb k k') eqn:E; [discriminate|].
  intros [->|Hin]; [|now apply IH].
  now rewrite (@eqb_refl_of _ _ eqb_spec _) in E.
Qed.

Lemma aset_keys_unique (m : amap K V) k v :
  keys_unique m -> keys_unique (aset eqb m k v).
Proof.
  unfold keys_unique. intros Hnd. destruct (aget eqb m k) eqn:E.
  - rewrite aset_keys_present; [exact Hnd|congruence].
  - rewrite aset_keys_absent by exact E.
    apply NoDup_app; [exact Hnd|repeat constructor; tauto|].
    intros x Hx [Hk|[]]. subst x. exact (aget_none_notin m k E Hx).
Qed.

Lemma aset_in (m : amap K V) k v k' v' :
  In (k', v') (aset eqb m k v) -> (k' = k /\ v' = v) \/ In (k', v') m.
Proof.
  induction m as [|[k0 v0] m IH]; simpl.
  - intros [H|[]]. inversion H. auto.
  - destruct (eqb k k0) eqn:E; simpl.
    + apply eqb_spec in E. subst k0.
      intros [H|H]; [inversion H; auto|auto].
    + intros [H|H]; [auto|]. destruct (IH H); auto.
Qed.

Lemma aget_in (m : amap K V) k v :
  aget eqb m k = Some v -> In (k, v) m.
Proof.
  induction m as [|[k0 v0] m IH]; simpl; [discriminate|].
  destruct (eqb k k0) eqn:E.
  - apply eqb_spec in E. subst. intros H. inversion H. now left.
  - intros H. right. now apply IH.
Qed.

Lemma aset_length_present (m : amap K V) k v :
  aget eqb m k <> None -> length (aset eqb m k v) = length m.
Proof.
  intros H. rewrite <- (length_map fst), aset_keys_present by exact H.
  apply length_map.
Qed.
End AMapMore.

Lemma ns_values_registerValue (s : store) (ns k : string) (v : value) :
  ns_values (registerValue s ns k v) ns = sset (ns_values s ns) k v.
Proof. unfold registerValue, ns_values at 1. simpl. now rewrite sget_sset_eq. Qed.

Lemma ns_values_registerValue_other (s : store) (ns ns' k : string) (v : value) :
  ns' <> ns -> ns_values (registerValue s ns k v) ns' = ns_values s ns'.
Proof.
  intros Hne. unfold registerValue, ns_values. simpl.
  now rewrite sget_sset_neq.
Qed.

Lemma ns_exports_registerValueExport (s : store) (ns local : string) (k : ekey) :
  ns_exports (registerValueExport s ns local k) ns
  = aset ekey_eqb (ns_exports s ns) k (mkExport k local).
Proof.
  unfold registerValueExport, ns_exports at 1. simpl. now rewrite sget_sset_eq.
Qed.

Lemma ns_exports_registerValueExport_other (s : store) (ns ns' local : string)
    (k : ekey) :
  ns' <> ns -> ns_exports (registerValueExport s ns local k) ns' = ns_exports s ns'.
Proof.
  intros Hne. unfold registerValueExport, ns_exports. simpl.
  now rewrite sget_sset_neq.
Qed.

Lemma ns_values_registerValueExport (s : store) (ns ns' local : string)
    (k : ekey) :
  ns_values (registerValueExport s ns local k) ns' = ns_values s ns'.
Proof. reflexivity. Qed.

Lemma registerDefault_is_registerValueExport (s : store) (ns local : string) :
  registerDefaultValueExport s ns local = registerValueExport s ns local KDefault.
Proof. reflexivity. Qed.

(** X1.  [registerValue] binds [key] to [value] in [namespace] and changes
    nothing else: every other binding of every namespace reads as before,
    and the exports and imports are untouched. *)
Theorem registerValue_writes_one_binding :
  forall (s : store) (ns k : string) (v : value),
    sget (ns_values (registerValue s ns k v) ns) k = Some v
    /\ (forall ns' k', ns' <> ns \/ k' <> k ->
          sget (ns_values (registerValue s ns k v) ns') k'
          = sget (ns_values s ns') k')
    /\ valueExports (registerValue s ns k v) = valueExports s
    /\ valueImports (registerValue s ns k v) = valueImports s.
Proof.
  intros s ns k v. split; [|split; [|split; reflexivity]].
  - rewrite ns_values_registerValue. apply sget_sset_eq.
  - intros ns' k' H. destruct (String.eqb ns' ns) eqn:E.
    + apply String.eqb_eq in E. subst ns'. rewrite ns_values_registerValue.
      destruct H as [H|H]; [congruence|]. now apply sget_sset_neq.
    + rewrite ns_values_registerValue_other; [reflexivity|].
      intros ->. now rewrite String.eqb_refl in E.
Qed.

(** X2.  Redefinition overwrites: registering a key twice leaves the store
    that registering the second value alone would leave, and a key that is
    already bound keeps its place, the number of bindings of the namespace
    staying the same. *)
Theorem registerValue_last_writer_wins :
  forall (s : store) (ns k : string) (v1 v2 : value),
    registerValue (registerValue s ns k v1) ns k v2 = registerValue s ns k v2
    /\ (sget (ns_values s ns) k <> None ->
        length (ns_values (registerValue s ns k v2) ns)
        = length (ns_values s ns)
        /\ map fst (ns_values (registerValue s ns k v2) ns)
           = map fst (ns_values s ns)).
Proof.
  intros s ns k v1 v2. split.
  - unfold registerValue at 1. rewrite ns_values_registerValue.
    unfold registerValue. simpl. unfold sset.
    now rewrite !(aset_aset _ _ String.eqb String.eqb_eq).
  - intros Hb. rewrite ns_values_registerValue. unfold sset. split.
    + now apply (aset_length_present _ _ String.eqb).
    + now apply (aset_keys_present _ _ String.eqb).
Qed.

(** X3.  A namespace has at most one export per exported key and the later
    registration wins; a named export and the default export do not touch
    each other, nor the exports of another namespace, nor any binding. *)
Theorem registerValueExport_one_per_key :
  forall (s : store) (ns l1 l2 : string) (k : ekey),
    registerValueExport (registerValueExport s ns l1 k) ns l2 k
    = registerValueExport s ns l2 k
    /\ aget ekey_eqb (ns_exports (registerValueExport s ns l2 k) ns) k
       = Some (mkExport k l2)
    /\ (forall ns' k', ns' <> ns \/ k' <> k ->
          aget ekey_eqb (ns_exports (registerValueExport s ns l2 k) ns') k'
          = aget ekey_eqb (ns_exports s ns') k')
    /\ namespaces (registerValueExport s ns l2 k) = namespaces s.
Proof.
  intros s ns l1 l2 k. split; [|split; [|split; [|reflexivity]]].
  - unfold registerValueExport at 1. rewrite ns_exports_registerValueExport.
    unfold registerValueExport. simpl. unfold sset.
    rewrite (aset_aset _ _ String.eqb String.eqb_eq).
    now rewrite (aset_aset _ _ ekey_eqb ekey_eqb_spec).
  - apply registerValueExport_records.
  - intros ns' k' H. destruct (String.eqb ns' ns) eqn:E.
    + apply String.eqb_eq in E. subst ns'.
      rewrite ns_exports_registerValueExport.
      destruct H as [H|H]; [congruence|].
      apply aget_aset_neq; [apply ekey_eqb_spec|exact H].
    + rewrite ns_exports_registerValueExport_other; [reflexivity|].
      intros ->. now rewrite String.eqb_refl in E.
Qed.

(** X4.  Export then import, through the store: once a value is registered
    under [x] and [x] is exported as [e], the walk of a user import of [e]
    finds the value, and after a later registration under [x] it finds the
    later value (the export points at the name, not at the value). *)
Theorem export_chain_round_trip :
  forall (h : Host) (s : store) (ns from x e : string) (v v2 : value)
         (w : world),
    let s1 := registerValueExport (registerValue s ns x v) ns x (KName e) in
    export_chain s1 ns (KName e) = Some v
    /\ importValue h s1 from (mkImport ns (KName e) x false) w = Done w (Ok v)
    /\ export_chain (registerValue s1 ns x v2) ns (KName e) = Some v2.
Proof.
  intros h s ns from x e v v2 w s1.
  assert (H1 : export_chain s1 ns (KName e) = Some v).
  { unfold export_chain, s1. rewrite registerValueExport_records. simpl.
    rewrite ns_values_registerValueExport, ns_values_registerValue.
    apply sget_sset_eq. }
  split; [exact H1|]. split.
  - rewrite (importValue_user_named h s1 from (mkImport ns (KName e) x false)
                                    e w eq_refl eq_refl).
    simpl importedNamespace. now rewrite H1.
  - unfold export_chain.
    change (ns_exports (registerValue s1 ns x v2) ns) with (ns_exports s1 ns).
    unfold s1 at 1. rewrite registerValueExport_records. simpl exp_local.
    rewrite ns_values_registerValue. apply sget_sset_eq.
Qed.

(** ** The namespace object of [import * as X] *)

Lemma find_app {A} (p : A -> bool) (l1 l2 : list A) :
  find p (l1 ++ l2)
  = match find p l1 with Some a => Some a | None => find p l2 end.
Proof.
  induction l1 as [|a l1 IH]; simpl; [reflexivity|].
  destruct (p a); [reflexivity|exact IH].
Qed.

Lemma namespace_fold (values : amap string value) (x : string) :
  forall (es : list Export) (acc : amap string value),
    sget (fold_left
            (fun o e =>
               let v := or_undef (sget values (exp_local e)) in
               match exported e with
               | KDefault => sset o "default" v
               | KName y => sset o y v
               | KNamespace => o
               end) es acc) x
    = match find (named_as x) (rev es) with
      | Some e => Some (or_undef (sget values (exp_local e)))
      | None => sget acc x
      end.
Proof.
  induction es as [|e es IH]; intros acc; [reflexivity|].
  simpl fold_left. rewrite IH. simpl rev. rewrite find_app.
  destruct (find (named_as x) (rev es)); [reflexivity|].
  simpl. unfold named_as, exported_name.
  destruct (exported e) as [y| |].
  - destruct (String.eqb y x) eqn:E.
    + apply String.eqb_eq in E. subst. apply sget_sset_eq.
    + apply sget_sset_neq. intros ->. now rewrite String.eqb_refl in E.
  - destruct (String.eqb "default" x) eqn:E.
    + apply String.eqb_eq in E. subst. apply sget_sset_eq.
    + apply sget_sset_neq. intros ->. now rewrite String.eqb_refl in E.
  - reflexivity.
Qed.

Lemma namespace_object_properties_aux (s : store) (ns x : string) :
  exists fields,
    constructNamespaceExport s ns = VObj fields
    /\ sget fields x
       = match find (named_as x) (rev (AMap.values (ns_exports s ns))) with
         | Some e => Some (or_undef (sget (ns_values s ns) (exp_local e)))
         | None => None
         end.
Proof.
  eexists. split; [reflexivity|]. now rewrite namespace_fold.
Qed.

(** X5.  The object built for [import * as X] has, for each name other
    than [__proto__], the current binding of the local of one export
    record: among the records exported under that name ([default] for the
    default export), the one that comes last in the order of the
    namespace's exports map, where a key registered again keeps the place
    of its first registration.  The property is [undefined] when that local
    has no binding, and there is no property for a name nothing is exported
    under. *)
Theorem namespace_object_properties :
  forall (s : store) (ns : string),
    exists fields,
      constructNamespaceExport s ns = VObj fields
      /\ forall x,
          x <> "__proto__" ->
          sget fields x
          = match find (named_as x) (rev (AMap.values (ns_exports s ns))) with
            | Some e => Some (or_undef (sget (ns_values s ns) (exp_local e)))
            | None => None
            end.
Proof.
  intros s ns. eexists. split; [reflexivity|].
  intros x _. now rewrite namespace_fold.
Qed.

(** After [export default z], [export { x as default }] and
    [export default w], the property [default] of the namespace object is
    the binding of [x]: the default export was registered last but keeps
    its first place in the map, and the later entry wins. *)
Example namespace_object_default_order :
  let s :=
    registerDefaultValueExport
      (registerValueExport
         (registerDefaultValueExport
            (registerValue
               (registerValue
                  (registerValue empty_store "/m/a.js" "z" (VNum 1))
                  "/m/a.js" "x" (VNum 2))
               "/m/a.js" "w" (VNum 3))
            "/m/a.js" "z")
         "/m/a.js" "x" (KName "default"))
      "/m/a.js" "w" in
  default_export_value s "/m/a.js" = VNum 3
  /\ constructNamespaceExport s "/m/a.js" = VObj [("default", VNum 2)].
Proof. split; reflexivity. Qed.

Lemma find_some_unique_key (m : amap ekey Export) (k : ekey) (e : Export)
    (p : Export -> bool) :
  keys_unique m ->
  (forall k' e', In (k', e') m -> exported e' = k') ->
  aget ekey_eqb m k = Some e ->
  p e = true ->
  (forall e', p e' = true -> exported e' = k) ->
  find p (rev (AMap.values m)) = Some e.
Proof.
  intros Hu Hk Hg Hp Honly.
  pose proof (find_spec p (rev (AMap.values m))) as Hf.
  destruct (find p (rev (AMap.values m))) as [e'|].
  - destruct Hf as [Hin Hpe]. apply in_rev in Hin.
    unfold AMap.values in Hin. apply in_map_iff in Hin.
    destruct Hin as ([k' e0] & He0 & Hin). simpl in He0. subst e0.
    pose proof (Hk _ _ Hin) as Hk'. rewrite (Honly _ Hpe) in Hk'. subst k'.
    apply (aget_in _ _ ekey_eqb ekey_eqb_spec) in Hg.
    f_equal. clear - Hu Hin Hg. unfold keys_unique in Hu.
    induction m as [|[k0 e0] m IH]; [destruct Hin|].
    simpl in Hu. inversion Hu as [|? ? Hn Hu']; subst.
    destruct Hin as [H1|H1]; destruct Hg as [H2|H2].
    + congruence.
    + inversion H1; subst. exfalso. apply Hn.
      apply (in_map fst) in H2. exact H2.
    + inversion H2; subst. exfalso. apply Hn.
      apply (in_map fst) in H1. exact H1.
    + now apply IH.
  - exfalso. apply (aget_in _ _ ekey_eqb ekey_eqb_spec) in Hg.
    assert (Hin : In e (rev (AMap.values m))).
    { apply -> in_rev. unfold AMap.values. apply in_map_iff.
      exists (k, e). auto. }
    specialize (Hf e Hin). congruence.
Qed.

(** X6.  In a store with one entry per key, the namespace object has under
    every exported name other than [default] and [__proto__] the current
    binding of that export's local. *)
Theorem namespace_object_named_export :
  forall (s : store) (ns x : string) (e : Export),
    store_wf s ->
    aget ekey_eqb (ns_exports s ns) (KName x) = Some e ->
    x <> "default" ->
    x <> "__proto__" ->
    exists fields,
      constructNamespaceExport s ns = VObj fields
      /\ sget fields x = Some (or_undef (sget (ns_values s ns) (exp_local e))).
Proof.
  intros s ns x e Hwf Hg Hx _.
  destruct (namespace_object_properties_aux s ns x) as [fields [Hc Hf]].
  exists fields. split; [exact Hc|]. rewrite Hf.
  assert (Hm : keys_unique (ns_exports s ns)
               /\ forall k' e', In (k', e') (ns_exports s ns) -> exported e' = k').
  { unfold ns_exports. destruct (sget (valueExports s) ns) as [m|] eqn:E.
    - apply (aget_in _ _ String.eqb String.eqb_eq) in E.
      exact (wf_exports Hwf ns m E).
    - split; [constructor|]. intros k' e' []. }
  destruct Hm as [Hu Hk].
  assert (He : exported e = KName x).
  { apply (Hk (KName x)). now apply (aget_in _ _ ekey_eqb ekey_eqb_spec). }
  rewrite (find_some_unique_key (ns_exports s ns) (KName x) e (named_as x)
             Hu Hk Hg).
  - reflexivity.
  - unfold named_as, exported_name. rewrite He. apply String.eqb_refl.
  - intros e' Hp. unfold named_as, exported_name in Hp.
    destruct (exported e') as [y| |]; try discriminate.
    + apply String.eqb_eq in Hp. now subst.
    + apply String.eqb_eq in Hp. congruence.
Qed.

(** ** One entry per key *)

Lemma sget_in {V} (m : amap string V) k v : sget m k = Some v -> In (k, v) m.
Proof. apply (aget_in _ _ String.eqb String.eqb_eq). Qed.

Lemma sset_in {V} (m : amap string V) k v k' v' :
  In (k', v') (sset m k v) -> (k' = k /\ v' = v) \/ In (k', v') m.
Proof. apply (aset_in _ _ String.eqb String.eqb_eq). Qed.

Lemma sset_keys_unique {V} (m : amap string V) k v :
  keys_unique m -> keys_unique (sset m k v).
Proof. apply (aset_keys_unique _ _ String.eqb String.eqb_eq). Qed.

Lemma wf_ns_values (s : store) (ns : string) :
  store_wf s -> keys_unique (ns_values s ns).
Proof.
  intros Hwf. unfold ns_values. destruct (sget (namespaces s) ns) eqn:E.
  - apply sget_in in E. exact (wf_values Hwf ns _ E).
  - constructor.
Qed.

Lemma wf_ns_exports (s : store) (ns : string) :
  store_wf s ->
  keys_unique (ns_exports s ns)
  /\ forall k e, In (k, e) (ns_exports s ns) -> exported e = k.
Proof.
  intros Hwf. unfold ns_exports. destruct (sget (valueExports s) ns) eqn:E.
  - apply sget_in in E. exact (wf_exports Hwf ns _ E).
  - split; [constructor|]. intros k e [].
Qed.

Lemma wf_ns_imports (s : store) (ns : string) :
  store_wf s ->
  keys_unique (ns_imports s ns)
  /\ forall k i, In (k, i) (ns_imports s ns) -> imp_local i = k.
Proof.
  intros Hwf. unfold ns_imports. destruct (sget (valueImports s) ns) eqn:E.
  - apply sget_in in E. exact (wf_imports Hwf ns _ E).
  - split; [constructor|]. intros k e [].
Qed.

Lemma store_wf_empty : store_wf empty_store.
Proof.
  constructor; simpl;
    try (unfold keys_unique; simpl; apply NoDup_nil);
    intros ns m [].
Qed.

Lemma store_wf_registerValue (s : store) (ns k : string) (v : value) :
  store_wf s -> store_wf (registerValue s ns k v).
Proof.
  intros Hwf. destruct Hwf as [H1 H2 H3 H4 H5 H6].
  constructor; simpl; auto.
  - now apply sset_keys_unique.
  - intros ns' m Hin. apply sset_in in Hin. destruct Hin as [[-> ->]|Hin].
    + apply sset_keys_unique.
      apply wf_ns_values. now constructor.
    + now apply (H4 ns').
Qed.

Lemma store_wf_registerValueExport (s : store) (ns local : string) (k : ekey) :
  store_wf s -> store_wf (registerValueExport s ns local k).
Proof.
  intros Hwf. pose proof (wf_ns_exports s ns Hwf) as [Hu Hk].
  destruct Hwf as [H1 H2 H3 H4 H5 H6].
  constructor; simpl; auto.
  - now apply sset_keys_unique.
  - intros ns' m Hin. apply sset_in in Hin. destruct Hin as [[-> ->]|Hin].
    + split.
      * now apply (aset_keys_unique _ _ ekey_eqb ekey_eqb_spec).
      * intros k' e' Hin'.
        apply (aset_in _ _ ekey_eqb ekey_eqb_spec) in Hin'.
        destruct Hin' as [[-> ->]|Hin']; [reflexivity|now apply Hk].
    + now apply (H5 ns').
Qed.

Lemma store_wf_registerValueImport_at (s : store) (importing local : string)
    (imp : ekey) (abs : string) (b : bool) :
  store_wf s -> store_wf (registerValueImport_at s importing local imp abs b).
Proof.
  intros Hwf. pose proof (wf_ns_imports s importing Hwf) as [Hu Hk].
  destruct Hwf as [H1 H2 H3 H4 H5 H6].
  constructor; simpl; auto.
  - now apply sset_keys_unique.
  - intros ns' m Hin. apply sset_in in Hin. destruct Hin as [[-> ->]|Hin].
    + split.
      * now apply sset_keys_unique.
      * intros k' e' Hin'. apply sset_in in Hin'.
        destruct Hin' as [[-> ->]|Hin']; [reflexivity|now apply Hk].
    + now apply (H6 ns').
Qed.

Lemma store_wf_mark (w : world) (ns : string) :
  store_wf (st w) -> store_wf (st (mark w ns)).
Proof.
  intros Hwf. destruct Hwf as [H1 H2 H3 H4 H5 H6].
  constructor; simpl; auto.
  - now apply sset_keys_unique.
  - intros ns' m Hin. apply sset_in in Hin. destruct Hin as [[-> ->]|Hin].
    + constructor.
    + now apply (H4 ns').
Qed.

(** ** What every run of [evaluate] keeps

    A relation between the store before and the store after that is
    reflexive, transitive and holds across each write of the engine holds
    across [evaluate], whatever the fragment is. *)

Section Respect.
Variable R : store -> store -> Prop.
Hypothesis R_refl : forall s, R s s.
Hypothesis R_trans : forall s1 s2 s3, R s1 s2 -> R s2 s3 -> R s1 s3.
Hypothesis R_value : forall s ns k v, R s (registerValue s ns k v).
Hypothesis R_export : forall s ns l k, R s (registerValueExport s ns l k).
Hypothesis R_import :
  forall s file l i p b, R s (registerValueImport_at s file l i p b).
Hypothesis R_mark :
  forall w ns, marked (st w) ns = false -> R (st w) (st (mark w ns)).

Lemma resp_bind {A B} (m : M world A) (k : A -> M world B) :
  resp R m -> (forall a, resp R (k a)) -> resp R (bind m k).
Proof.
  intros Hm Hk w w' r. unfold bind.
  destruct (m w) as [s1 [a|e]| |] eqn:E; try discriminate.
  - intros H. eapply R_trans; [exact (Hm _ _ _ E)|exact (Hk a _ _ _ H)].
  - intros H. inversion H; subst. exact (Hm _ _ _ E).
Qed.

Lemma resp_bind_at {A B} (m : M world A) (k : A -> M world B) (w : world) :
  (forall w1 x, m w = Done w1 x -> R (st w) (st w1)) ->
  (forall a, resp R (k a)) ->
  forall w' r, bind m k w = Done w' r -> R (st w) (st w').
Proof.
  intros Hm Hk w' r. unfold bind.
  destruct (m w) as [s1 [a|e]| |]; try discriminate.
  - intros H. eapply R_trans; [exact (Hm _ _ eq_refl)|exact (Hk a _ _ _ H)].
  - intros H. inversion H; subst. exact (Hm _ _ eq_refl).
Qed.

Lemma resp_get_bind {B} (k : world -> M world B) :
  (forall w w' r, k w w = Done w' r -> R (st w) (st w')) ->
  resp R (bind get k).
Proof. intros Hk w w' r. unfold bind, get. apply Hk. Qed.

Lemma resp_same {A} (m : M world A) :
  (forall w w' r, m w = Done w' r -> st w' = st w) -> resp R m.
Proof. intros Hm w w' r H. rewrite (Hm _ _ _ H). apply R_refl. Qed.

Lemma resp_ret {A} (a : A) : resp R (ret a).
Proof. apply resp_same. intros w w' r H. now inversion H. Qed.

Lemma resp_throw {A} (e : value) : resp R (@throw world A e).
Proof. apply resp_same. intros w w' r H. now inversion H. Qed.

Lemma resp_lift {A} (x : result A) : resp R (lift x).
Proof. apply resp_same. intros w w' r H. now inversion H. Qed.

Lemma resp_unsupported {A} : resp R (@unsupported world A).
Proof. intros w w' r H. discriminate. Qed.

Lemma resp_modify (f : world -> world) :
  (forall w, R (st w) (st (f w))) -> resp R (modify f).
Proof. intros Hf w w' r H. inversion H; subst. apply Hf. Qed.

Section WithNested.
Variable h : Host.
Variable rec : string -> program -> bool -> M world value.
Hypothesis Hrec : forall ns code ev, resp R (rec ns code ev).

Lemma resp_normalizeImportPath a b : resp R (normalizeImportPath h a b).
Proof.
  apply resp_same. intros w w' r. unfold normalizeImportPath.
  destruct (resolve h a b); intros H; now inversion H.
Qed.

Lemma resp_registerValueImport a l i b bi :
  resp R (registerValueImport h a l i b bi).
Proof.
  unfold registerValueImport.
  apply resp_bind; [apply resp_normalizeImportPath|]. intros p.
  apply resp_bind; [|intros _; apply resp_ret].
  apply resp_modify. intros w. apply R_import.
Qed.

Lemma resp_eval_from_disk p ev : resp R (eval_from_disk h rec p ev).
Proof.
  unfold eval_from_disk. destruct ev; [|apply resp_ret].
  apply resp_bind; [apply resp_lift|]. intros code.
  apply resp_bind; [apply Hrec|]. intros _. apply resp_ret.
Qed.

Lemma resp_requireCustom a b ev : resp R (requireCustom h rec a b ev).
Proof.
  unfold requireCustom.
  apply resp_bind; [apply resp_normalizeImportPath|]. intros p.
  destruct (negb (isAbsolute b)); [apply resp_lift|].
  apply resp_bind; [apply resp_eval_from_disk|]. intros _.
  apply resp_bind; [apply resp_same; intros w w' r H; now inversion H|].
  intros w. apply resp_ret.
Qed.

Lemma resp_dynamicImport a b ev : resp R (dynamicImport h rec a b ev).
Proof.
  unfold dynamicImport.
  apply resp_bind; [apply resp_normalizeImportPath|]. intros p.
  destruct (negb (isAbsolute p)).
  - apply resp_bind; [apply resp_lift|]. intros m. apply resp_ret.
  - apply resp_bind; [apply resp_eval_from_disk|]. intros _.
    apply resp_bind; [apply resp_same; intros w w' r H; now inversion H|].
    intros w. apply resp_ret.
Qed.

Lemma resp_register_fresh_default ns v : resp R (register_fresh_default h ns v).
Proof.
  apply resp_modify. intros w. simpl.
  eapply R_trans; [apply R_value|apply R_export].
Qed.

Lemma resp_exportsStub_set ns p v : resp R (exportsStub_set h ns p v).
Proof.
  unfold exportsStub_set. apply resp_get_bind. intros w.
  destruct (aget ekey_eqb (ns_exports (st w) ns) KDefault) as [e|];
    [|apply resp_register_fresh_default].
  destruct (negb (String.eqb (exp_local e) ""));
    [|apply resp_register_fresh_default].
  destruct (sget (ns_values (st w) ns) (exp_local e)) as [d|];
    [|apply resp_ret].
  destruct d; try (destruct (truthy _); [apply resp_unsupported|apply resp_ret]).
  apply resp_modify. intros w0. apply R_value.
Qed.

Lemma resp_moduleStub_set ns id p v : resp R (moduleStub_set h ns id p v).
Proof.
  unfold moduleStub_set. apply resp_bind.
  - apply resp_modify. intros w. apply R_refl.
  - intros _. destruct (String.eqb p "exports");
      [apply resp_register_fresh_default|apply resp_ret].
Qed.

Lemma resp_get_prop v p : resp R (get_prop h v p).
Proof.
  apply resp_same. intros w w' r H. apply get_prop_world in H. now subst.
Qed.

Lemma resp_set_prop o p v : resp R (set_prop h o p v).
Proof.
  destruct o; simpl; try apply resp_unsupported.
  - apply resp_throw.
  - apply resp_bind; [apply resp_moduleStub_set|intros _; apply resp_ret].
  - apply resp_bind; [apply resp_exportsStub_set|intros _; apply resp_ret].
Qed.

Lemma resp_apply_builtin b args : resp R (apply_builtin h rec b args).
Proof.
  destruct b; simpl.
  - destruct (nth 0 args VUndef); try apply resp_unsupported.
    destruct (nth 1 args VUndef); try apply resp_unsupported.
    apply resp_bind; [|intros _; apply resp_ret].
    apply resp_modify. intros w. apply R_value.
  - destruct (nth 0 args VUndef); try apply resp_unsupported.
    destruct (nth 1 args VUndef); try apply resp_unsupported.
    destruct (nth 2 args VUndef); try apply resp_unsupported.
    apply resp_bind; [|intros _; apply resp_ret].
    apply resp_modify. intros w. apply R_export.
  - destruct (nth 0 args VUndef); try apply resp_unsupported.
    destruct (nth 1 args VUndef); try apply resp_unsupported.
    destruct (nth 2 args VUndef); try apply resp_unsupported.
    destruct (nth 3 args VUndef); try apply resp_unsupported.
    apply resp_bind; [apply resp_registerValueImport|intros l; apply resp_ret].
  - destruct (nth 0 args VUndef); try apply resp_unsupported.
    destruct (nth 1 args VUndef); try apply resp_unsupported.
    apply resp_bind; [|intros _; apply resp_ret].
    apply resp_modify. intros w. apply R_export.
  - destruct (nth 0 args VUndef); try apply resp_unsupported.
    destruct (nth 1 args VUndef); try apply resp_unsupported.
    apply resp_dynamicImport.
  - destruct (nth 0 args VUndef); try apply resp_unsupported.
    apply resp_requireCustom.
  - apply resp_bind; [|intros _; apply resp_ret].
    apply resp_modify. intros w. apply R_refl.
Qed.

Lemma resp_apply f args : resp R (apply h rec f args).
Proof.
  destruct f; simpl; try apply resp_throw.
  - apply resp_apply_builtin.
  - apply resp_lift.
Qed.

Lemma resp_eval_list (eval : expr -> M world value) (es : list expr) :
  Forall (fun e => resp R (eval e)) es -> resp R (eval_list eval es).
Proof.
  induction es as [|a es IH]; intros Hf; simpl; [apply resp_ret|].
  inversion Hf as [|? ? Ha Hes]; subst.
  apply resp_bind; [exact Ha|]. intros v.
  apply resp_bind; [now apply IH|]. intros vs. apply resp_ret.
Qed.

Lemma resp_eval_expr sc ls e : resp R (eval_expr h rec sc ls e).
Proof.
  induction e as [v|x|f args IHargs|o p IHo|c args IHc IHargs|o p e IHo IHe]
    using expr_nested_ind; simpl.
  - apply resp_ret.
  - apply resp_lift.
  - apply resp_bind; [now apply resp_eval_list|]. intros vs. apply resp_lift.
  - apply resp_bind; [exact IHo|]. intros v. apply resp_get_prop.
  - apply resp_bind; [exact IHc|]. intros f.
    apply resp_bind; [now apply resp_eval_list|]. intros vs.
    apply resp_apply.
  - apply resp_bind; [exact IHo|]. intros ov.
    apply resp_bind; [exact IHe|]. intros v. apply resp_set_prop.
Qed.

Lemma resp_exec_decls sc ds : forall ls, resp R (exec_decls h rec sc ls ds).
Proof.
  induction ds as [|[x e] ds IH]; intros ls; simpl; [apply resp_ret|].
  apply resp_bind; [apply resp_eval_expr|]. intros v. apply IH.
Qed.

Lemma resp_exec_stmts sc ss : forall ls, resp R (exec_stmts h rec sc ls ss).
Proof.
  induction ss as [|s ss IH]; intros ls; simpl; [apply resp_ret|].
  destruct s; try apply resp_unsupported.
  - apply resp_bind; [apply resp_eval_expr|]. intros _. apply IH.
  - apply resp_bind; [apply resp_eval_expr|]. intros v. apply resp_ret.
  - apply resp_bind; [apply resp_exec_decls|]. intros ls'. apply IH.
  - apply resp_bind; [apply resp_eval_expr|]. intros v. apply resp_throw.
Qed.

Lemma resp_run_wrapped sc code : resp R (run_wrapped h rec sc code).
Proof.
  intros w w' r. unfold run_wrapped.
  destruct (exec_stmts h rec sc (initial_locals code) code w)
    as [w1 [[ls|v]|e]| |] eqn:E; try discriminate.
  - intros H. inversion H; subst. exact (resp_exec_stmts sc code _ _ _ _ E).
  - intros H. inversion H; subst. exact (resp_exec_stmts sc code _ _ _ _ E).
  - intros H. eapply R_trans; [exact (resp_exec_stmts sc code _ _ _ _ E)|].
    revert H. apply resp_bind; [apply resp_eval_expr|].
    intros _. apply resp_ret.
Qed.

Lemma resp_registerSpecifiers file source b specs :
  resp R (registerSpecifiers h file source b specs).
Proof.
  induction specs as [|sp specs IH]; simpl; [apply resp_ret|].
  apply resp_bind; [apply resp_registerValueImport|]. intros _. exact IH.
Qed.

Lemma resp_importEnter file ev source specs :
  resp R (importEnter h rec file ev source specs).
Proof.
  unfold importEnter.
  apply resp_bind; [apply resp_normalizeImportPath|]. intros p.
  apply resp_get_bind. intros w.
  apply resp_bind_at; [|intros _; apply resp_registerSpecifiers].
  destruct (negb (negb (isAbsolute p)) && ev && negb (marked (st w) p)) eqn:C;
    [|intros w1 x H; exact (resp_ret tt _ _ _ H)].
  apply andb_true_iff in C. destruct C as [_ Hm]. apply negb_true_iff in Hm.
  intros w1 x. unfold bind at 1. unfold modify at 1. intros H.
  eapply R_trans; [exact (R_mark w p Hm)|].
  revert H. apply resp_bind; [apply resp_lift|]. intros code.
  apply resp_bind; [apply Hrec|]. intros _. apply resp_ret.
Qed.

Lemma resp_visit file ev ss : resp R (visit h rec file ev ss).
Proof.
  induction ss as [|s ss IH]; simpl; [apply resp_ret|].
  destruct s;
    try (apply resp_bind; [exact IH|]; intros r; apply resp_ret).
  - apply resp_bind; [apply resp_importEnter|]. intros _. exact IH.
  - apply resp_throw.
Qed.

Lemma resp_evaluate_body ns code ev : resp R (evaluate_body h rec ns code ev).
Proof.
  unfold evaluate_body.
  apply resp_bind.
  { unfold transform. apply resp_bind; [apply resp_visit|].
    intros r. apply resp_ret. }
  intros codeT. apply resp_get_bind. intros w.
  apply resp_bind_at.
  { intros w1 x H. apply synthImports_world in H. subst. apply R_refl. }
  intros nsI. apply resp_get_bind. intros w1.
  apply resp_bind_at.
  { intros w2 x H. inversion H; subst. apply R_refl. }
  intros _. apply resp_run_wrapped.
Qed.
End WithNested.
End Respect.

Lemma resp_evaluate (R : store -> store -> Prop)
    (R_refl : forall s, R s s)
    (R_trans : forall s1 s2 s3, R s1 s2 -> R s2 s3 -> R s1 s3)
    (R_value : forall s ns k v, R s (registerValue s ns k v))
    (R_export : forall s ns l k, R s (registerValueExport s ns l k))
    (R_import : forall s file l i p b,
        R s (registerValueImport_at s file l i p b))
    (R_mark : forall w ns, marked (st w) ns = false -> R (st w) (st (mark w ns)))
    (h : Host) :
  forall fuel ns code ev w w' r,
    evaluate h fuel ns code ev w = Done w' r -> R (st w) (st w').
Proof.
  induction fuel as [|fuel IH]; intros ns code ev w w' r H;
    [discriminate|].
  simpl in H. revert H.
  apply (resp_evaluate_body R R_refl R_trans R_value R_export R_import R_mark
           h (evaluate h fuel)).
  intros ns' code' ev' w0 w0' r0. apply IH.
Qed.

Lemma grows_refl s : grows s s.
Proof. repeat split; auto. intros ns H. exact H. Qed.

Lemma grows_trans s1 s2 s3 : grows s1 s2 -> grows s2 s3 -> grows s1 s3.
Proof.
  intros (A1 & B1 & C1 & D1) (A2 & B2 & C2 & D2).
  repeat split; auto. intros ns H. auto.
Qed.

Lemma grows_registerValue s ns k v : grows s (registerValue s ns k v).
Proof.
  split; [apply registerValue_marks|]. split; [|split; auto].
  intros ns' x H. destruct (String.eqb ns' ns) eqn:E.
  - apply String.eqb_eq in E. subst ns'. rewrite ns_values_registerValue.
    now apply sget_sset_some.
  - rewrite ns_values_registerValue_other; [exact H|].
    intros ->. now rewrite String.eqb_refl in E.
Qed.

Lemma grows_registerValueExport s ns l k :
  grows s (registerValueExport s ns l k).
Proof.
  split; [intros ns' H; exact H|]. split; [auto|]. split; [|auto].
  intros ns' k' H. destruct (String.eqb ns' ns) eqn:E.
  - apply String.eqb_eq in E. subst ns'. rewrite ns_exports_registerValueExport.
    apply aget_aset_some; [apply ekey_eqb_spec|exact H].
  - rewrite ns_exports_registerValueExport_other; [exact H|].
    intros ->. now rewrite String.eqb_refl in E.
Qed.

Lemma grows_registerValueImport_at s file l i p b :
  grows s (registerValueImport_at s file l i p b).
Proof.
  split; [intros ns' H; exact H|]. split; [auto|]. split; [auto|].
  intros ns' x H. unfold registerValueImport_at, ns_imports at 1. simpl.
  destruct (String.eqb ns' file) eqn:E.
  - apply String.eqb_eq in E. subst ns'. rewrite sget_sset_eq.
    now apply sget_sset_some.
  - rewrite sget_sset_neq; [exact H|].
    intros ->. now rewrite String.eqb_refl in E.
Qed.

Lemma grows_mark w ns :
  marked (st w) ns = false -> grows (st w) (st (mark w ns)).
Proof.
  intros Hm. split; [intros ns' H; now apply marked_sset|].
  split; [|split; auto].
  intros ns' x H. unfold mark, ns_values at 1. simpl.
  destruct (String.eqb ns' ns) eqn:E.
  - apply String.eqb_eq in E. subst ns'. exfalso. apply H.
    unfold ns_values, marked in *.
    destruct (sget (namespaces (st w)) ns); [discriminate|reflexivity].
  - rewrite sget_sset_neq; [exact H|].
    intros ->. now rewrite String.eqb_refl in E.
Qed.

(** X7.  Nothing is ever deleted: whatever the fragment, when a call of
    [evaluate] ends (normally or by an exception), every binding, every
    export key and every import name that was in the store is still there,
    and every namespace that had an entry still has one. *)
Theorem evaluate_never_deletes :
  forall (h : Host) (fuel : nat) (ns : string) (code : program) (ev : bool)
         (w w' : world) (r : result value),
    evaluate h fuel ns code ev w = Done w' r ->
    grows (st w) (st w').
Proof.
  intros h. apply (resp_evaluate grows).
  - apply grows_refl.
  - apply grows_trans.
  - apply grows_registerValue.
  - apply grows_registerValueExport.
  - apply grows_registerValueImport_at.
  - apply grows_mark.
Qed.

(** [const x = 10; y] in [/tmp/a.js], from a store in which that namespace
    has a binding, an export and an import: the run ends, and the three are
    still there. *)
Lemma evaluate_never_deletes_witness :
  grows Demo.populated
        (mkStore [("/tmp/a.js", [("y", VNum 1); ("x", VNum 10)])]
                 (valueExports Demo.populated)
                 (valueImports Demo.populated)).
Proof.
  exact (evaluate_never_deletes
           Demo.host 1 "/tmp/a.js"
           [SDecl KConst [("x", EConst (VNum 10))]; SExpr (EVar "y")]
           false (with_store empty_world Demo.populated)
           (mkWorld
              (mkStore [("/tmp/a.js", [("y", VNum 1); ("x", VNum 10)])]
                       (valueExports Demo.populated)
                       (valueImports Demo.populated))
              0 [] [[("exports", VExportsStub "/tmp/a.js")]])
           (Ok (VNum 1)) eq_refl).
Defined.

(** X8.  One entry per key, always: whatever the fragment, a call of
    [evaluate] that ends leaves a store in which every map has one entry
    per key, every export sits under its own exported key and every import
    under its own local name, if the store it started from was so. *)
Theorem evaluate_keeps_one_entry_per_key :
  forall (h : Host) (fuel : nat) (ns : string) (code : program) (ev : bool)
         (w w' : world) (r : result value),
    evaluate h fuel ns code ev w = Done w' r ->
    store_wf (st w) -> store_wf (st w').
Proof.
  intros h.
  apply (resp_evaluate (fun s s' => store_wf s -> store_wf s')); auto.
  - intros s ns k v. apply store_wf_registerValue.
  - intros s ns l k. apply store_wf_registerValueExport.
  - intros s file l i p b. apply store_wf_registerValueImport_at.
  - intros w ns _. apply store_wf_mark.
Qed.

Lemma evaluate_keeps_one_entry_per_key_witness :
  store_wf (mkStore [("/tmp/a.js", [("x", VNum 10)])] [] []).
Proof.
  exact (evaluate_keeps_one_entry_per_key
           Demo.host 1 "/tmp/a.js"
           [SDecl KConst [("x", EConst (VNum 10))]; SExpr (EVar "x")]
           false empty_world
           (mkWorld (mkStore [("/tmp/a.js", [("x", VNum 10)])] [] []) 0 []
                    [[("exports", VExportsStub "/tmp/a.js")]])
           (Ok (VNum 10)) eq_refl store_wf_empty).
Defined.

(** ** The CommonJS stubs *)

Lemma nth_list_set {A} (l : list A) (i : nat) (a d : A) :
  i < length l -> nth i (list_set l i a) d = a.
Proof.
  revert i. induction l as [|x l IH]; intros i Hi; simpl in *; [lia|].
  destruct i as [|i]; simpl; [reflexivity|]. apply IH. lia.
Qed.

Lemma default_export_after_fresh (h : Host) (ns : string) (v : value)
    (w : world) :
  let id := uuid h (uuids w) in
  let s1 := registerDefaultValueExport (registerValue (st w) ns id v) ns id in
  aget ekey_eqb (ns_exports s1 ns) KDefault = Some (mkExport KDefault id)
  /\ sget (ns_values s1 ns) id = Some v.
Proof.
  intros id s1. split.
  - apply registerDefaultValueExport_records.
  - unfold s1. rewrite registerDefault_is_registerValueExport.
    rewrite ns_values_registerValueExport, ns_values_registerValue.
    apply sget_sset_eq.
Qed.

(** X9.  [exports.k = v] in a namespace without default export makes one:
    a fresh binding holding [{ k: v }], registered as the default export
    (one uuid is drawn).  A further [exports.k2 = v2], [k2] other than
    [__proto__], writes into that same object and draws no uuid. *)
Theorem exports_assignments_accumulate :
  forall (h : Host) (ns k k2 : string) (v v2 : value) (w : world),
    aget ekey_eqb (ns_exports (st w) ns) KDefault = None ->
    uuid h (uuids w) <> "" ->
    k2 <> "__proto__" ->
    exists w1 w2,
      exportsStub_set h ns k v w = Done w1 (Ok tt)
      /\ default_export_value (st w1) ns = VObj [(k, v)]
      /\ uuids w1 = S (uuids w)
      /\ exportsStub_set h ns k2 v2 w1 = Done w2 (Ok tt)
      /\ default_export_value (st w2) ns = VObj (sset [(k, v)] k2 v2)
      /\ uuids w2 = uuids w1.
Proof.
  intros h ns k k2 v v2 w Hnone Hid _.
  destruct (default_export_after_fresh h ns (VObj [(k, v)]) w) as [He Hv].
  set (id := uuid h (uuids w)) in *.
  set (s1 := registerDefaultValueExport
               (registerValue (st w) ns id (VObj [(k, v)])) ns id) in *.
  exists (mkWorld s1 (S (uuids w)) (stderr w) (modules w)).
  exists (mkWorld (registerValue s1 ns id (VObj (sset [(k, v)] k2 v2)))
                  (S (uuids w)) (stderr w) (modules w)).
  assert (Hid' : negb (String.eqb id "") = true).
  { apply negb_true_iff. destruct (String.eqb id "") eqn:E; [|reflexivity].
    apply String.eqb_eq in E. contradiction. }
  split; [|split; [|split; [reflexivity|split; [|split; [|reflexivity]]]]].
  - unfold exportsStub_set, bind, get. now rewrite Hnone.
  - unfold default_export_value. cbn [st]. rewrite He. cbn [exp_local].
    now rewrite Hv.
  - unfold exportsStub_set, bind, get. cbn [st]. rewrite He. cbn [exp_local].
    rewrite Hid', Hv. reflexivity.
  - unfold default_export_value. cbn [st].
    change (ns_exports (registerValue s1 ns id (VObj (sset [(k, v)] k2 v2))) ns)
      with (ns_exports s1 ns).
    rewrite He. cbn [exp_local]. rewrite ns_values_registerValue.
    now rewrite sget_sset_eq.
Qed.

Lemma exports_assignments_witness :
  exists w2,
    default_export_value (st w2) "/m/d.js"
    = VObj [("a", VNum 1); ("b", VNum 2)].
Proof.
  destruct (exports_assignments_accumulate
              Demo.host "/m/d.js" "a" "b" (VNum 1) (VNum 2) empty_world
              eq_refl ltac:(discriminate) ltac:(discriminate))
    as (w1 & w2 & _ & _ & _ & _ & H & _).
  exists w2. exact H.
Defined.

(** X10.  A write to a property of the [module] stub, other than
    [__proto__], is read back from the stub; only a write to [exports]
    reaches the store, where the written value becomes the default export
    of the namespace. *)
Theorem module_stub_write_read :
  forall (h : Host) (ns p : string) (id : nat) (v : value) (w : world),
    id < length (modules w) ->
    p <> "__proto__" ->
    exists w',
      moduleStub_set h ns id p v w = Done w' (Ok tt)
      /\ get_prop h (VModule ns id) p w' = Done w' (Ok v)
      /\ (p = "exports" -> default_export_value (st w') ns = v)
      /\ (p <> "exports" -> st w' = st w).
Proof.
  intros h ns p id v w Hid _.
  assert (Hread : obj_get (nth id (list_set (modules w) id
                                          (sset (nth id (modules w) []) p v)) [])
                          p = v).
  { rewrite nth_list_set by exact Hid.
    unfold obj_get, obj_find. now rewrite sget_sset_eq. }
  destruct (String.eqb p "exports") eqn:E.
  - destruct (module_exports_registers_default h ns id v w) as (w' & Hs & Hd).
    apply String.eqb_eq in E. subst p.
    exists w'. split; [exact Hs|]. split; [|split; [auto|congruence]].
    unfold moduleStub_set, bind, modify in Hs. simpl in Hs.
    inversion Hs; subst. simpl. unfold bind, get, ret. simpl.
    now rewrite Hread.
  - eexists. split.
    + unfold moduleStub_set, bind, modify. rewrite E. reflexivity.
    + split; [|split].
      * simpl. unfold bind, get, ret. simpl. now rewrite Hread.
      * intros ->. discriminate.
      * reflexivity.
Qed.

Lemma module_stub_write_read_witness :
  exists w',
    moduleStub_set Demo.host "/m/d.js" 0 "exports" (VNum 99)
                   (with_module_stub empty_world "/m/d.js") = Done w' (Ok tt)
    /\ get_prop Demo.host (VModule "/m/d.js" 0) "exports" w'
       = Done w' (Ok (VNum 99)).
Proof.
  destruct (module_stub_write_read
              Demo.host "/m/d.js" "exports" 0 (VNum 99)
              (with_module_stub empty_world "/m/d.js") (le_n 1)
              ltac:(discriminate))
    as (w' & H1 & H2 & _).
  exists w'. split; [exact H1 | exact H2].
Defined.

(** ** The rewriter *)

Lemma program_enter_keeps (P : stmt -> bool) (ns : string) (code : program) :
  (forall x, P (reg_value ns x) = false) ->
  existsb P code = false -> existsb P (program_enter ns code) = false.
Proof.
  intros Hreg. induction code as [|s code IH]; intros H; [reflexivity|].
  simpl in H. apply orb_false_iff in H. destruct H as [Hs Hc].
  change (program_enter ns (s :: code))
    with ((match s with
           | SDecl _ ds | SExportDecl _ ds =>
               s :: map (reg_value ns) (rev (map fst ds))
           | _ => [s]
           end) ++ program_enter ns code).
  rewrite existsb_app, (IH Hc), orb_false_r.
  assert (Hregs : forall xs, existsb P (map (reg_value ns) xs) = false).
  { induction xs as [|x xs IHx]; [reflexivity|]. simpl.
    now rewrite Hreg, IHx. }
  destruct s; simpl; rewrite ?Hs, ?Hregs; reflexivity.
Qed.

Section RewriterShape.
Variable h : Host.
Variable rec : string -> program -> bool -> M world value.
Variables (ns : string) (ev : bool).

Lemma visit_plain :
  forall ss w w' r,
    existsb is_left_in_place ss = false ->
    visit h rec ns ev ss w = Done w' (Ok r) ->
    forallb plain_stmt (map fst r) = true.
Proof.
  induction ss as [|s ss IH]; intros w w' r Hne H.
  - simpl in H. inversion H. reflexivity.
  - simpl in Hne. apply orb_false_iff in Hne. destruct Hne as [Hs Hrest].
    simpl in H.
    destruct s; try discriminate;
      apply bind_ok_inv in H; destruct H as (a & w1 & Hv & Hr);
      try (apply (IH _ _ _ Hrest) in Hv; inversion Hr; subst; clear Hr;
           simpl; try (destruct (is_nil ss)); simpl; exact Hv).
    + now apply (IH _ _ _ Hrest) in Hr.
    + apply (IH _ _ _ Hrest) in Hv. inversion Hr; subst; clear Hr.
      rewrite map_app, forallb_app, Hv, andb_true_r.
      destruct specs as [|sp specs]; [discriminate|].
      rewrite map_map. apply forallb_forall. intros x Hx.
      apply in_map_iff in Hx. destruct Hx as (le & <- & _). reflexivity.
    + apply (IH _ _ _ Hrest) in Hv. inversion Hr; subst; clear Hr.
      simpl. rewrite map_app, forallb_app, Hv, andb_true_r.
      rewrite map_map. apply forallb_forall. intros x Hx.
      apply in_map_iff in Hx. destruct Hx as (le & <- & _). reflexivity.
Qed.

Lemma finish_plain (r : list (stmt * bool)) :
  forallb plain_stmt (map fst r) = true -> forallb plain_stmt (finish r) = true.
Proof.
  induction r as [|[s b] r IH]; intros H; [reflexivity|].
  simpl in H. apply andb_true_iff in H. destruct H as [Hs Hr].
  assert (Hdef : forallb plain_stmt (s :: finish r) = true).
  { simpl. now rewrite Hs, IH. }
  simpl. destruct s; try exact Hdef.
  destruct b; try exact Hdef. destruct r; exact Hdef.
Qed.

Lemma program_enter_has (P : stmt -> bool) (code : program) :
  existsb P code = true -> existsb P (program_enter ns code) = true.
Proof.
  induction code as [|s code IH]; intros H; [discriminate|].
  simpl in H.
  change (program_enter ns (s :: code))
    with ((match s with
           | SDecl _ ds | SExportDecl _ ds =>
               s :: map (reg_value ns) (rev (map fst ds))
           | _ => [s]
           end) ++ program_enter ns code).
  rewrite existsb_app. apply orb_true_iff in H. destruct H as [H|H].
  - apply orb_true_iff. left. destruct s; simpl; now rewrite H.
  - apply orb_true_iff. right. now apply IH.
Qed.

Lemma visit_left :
  forall ss w w' r,
    existsb is_left_in_place ss = true ->
    visit h rec ns ev ss w = Done w' (Ok r) ->
    existsb is_left_in_place (map fst r) = true.
Proof.
  induction ss as [|s ss IH]; intros w w' r Hl H; [discriminate|].
  simpl in Hl. simpl in H.
  destruct s; try discriminate;
    apply bind_ok_inv in H; destruct H as (a & w1 & Hv & Hr);
    try (inversion Hr; subst; clear Hr; simpl in Hl;
         apply (IH _ _ _ Hl) in Hv; simpl;
         rewrite ?map_app, ?existsb_app, ?Hv, ?orb_true_r; reflexivity).
  - now apply (IH _ _ _ Hl) in Hr.
  - inversion Hr; subst; clear Hr.
    rewrite map_app, existsb_app.
    destruct specs as [|sp specs]; [reflexivity|].
    simpl in Hl. apply (IH _ _ _ Hl) in Hv. rewrite Hv. apply orb_true_r.
  - inversion Hr; subst; clear Hr. reflexivity.
Qed.

Lemma finish_left (r : list (stmt * bool)) :
  existsb is_left_in_place (map fst r) = true ->
  existsb is_left_in_place (finish r) = true.
Proof.
  induction r as [|[s b] r IH]; intros H; [discriminate|].
  simpl in H.
  assert (Hdef : existsb is_left_in_place (s :: finish r) = true).
  { simpl. apply orb_true_iff in H. destruct H as [H|H].
    - now rewrite H.
    - rewrite (IH H). apply orb_true_r. }
  simpl. destruct s; try exact Hdef.
  destruct b; try exact Hdef. destruct r; [discriminate|exact Hdef].
Qed.

Lemma left_not_plain (l : program) :
  existsb is_left_in_place l = true -> forallb plain_stmt l = false.
Proof.
  induction l as [|s l IH]; intros H; [discriminate|].
  simpl in H. simpl. apply orb_true_iff in H. destruct H as [H|H].
  - destruct s; try discriminate; reflexivity.
  - rewrite (IH H). apply andb_false_r.
Qed.

(** X11.  Which module syntax the rewriter leaves in its output: when it
    ends, the rewritten text consists of expression statements, [return]s,
    declarations and [throw]s only (imports are gone, exports are turned
    into a declaration and registration calls) exactly when the fragment
    has no empty [export {}] and no [export * from]; those two forms, for
    which no visitor does anything, stay in the rewritten text. *)
Theorem rewritten_text_has_no_module_syntax :
  forall (code : program) (w w' : world) (codeT : program),
    transform h rec ns code ev w = Done w' (Ok codeT) ->
    forallb plain_stmt codeT = negb (existsb is_left_in_place code)
    /\ existsb is_left_in_place codeT = existsb is_left_in_place code.
Proof.
  intros code w w' codeT H. unfold transform in H.
  apply bind_ok_inv in H. destruct H as (r & w1 & Hv & Hr).
  inversion Hr; subst.
  destruct (existsb is_left_in_place code) eqn:E; simpl.
  - pose proof (finish_left _ (visit_left _ _ _ _
                                 (program_enter_has is_left_in_place code E)
                                 Hv)) as Hl.
    split; [now apply left_not_plain|exact Hl].
  - pose proof (finish_plain _
                  (visit_plain _ _ _ _
                     (program_enter_keeps is_left_in_place ns code
                        (fun _ => eq_refl) E) Hv)) as Hp.
    split; [exact Hp|].
    destruct (existsb is_left_in_place (finish r)) eqn:El; [|reflexivity].
    apply left_not_plain in El. congruence.
Qed.
End RewriterShape.

(** [export * from './a'; 1] is rewritten to [export * from './a';
    return 1]. *)
Lemma rewritten_text_witness :
  forallb plain_stmt [SExportAll "./a"; SReturn (EConst (VNum 1))] = false.
Proof.
  exact (proj1 (rewritten_text_has_no_module_syntax
                  Demo.host (evaluate Demo.host 0) "/m/a.js" false
                  [SExportAll "./a"; SExpr (EConst (VNum 1))]
                  empty_world empty_world
                  [SExportAll "./a"; SReturn (EConst (VNum 1))] eq_refl)).
Defined.

Lemma removelast_cons_keeps (P : stmt -> bool) (x : stmt) (l : list stmt) :
  P x = false -> existsb P (removelast l) = false ->
  existsb P (removelast (x :: l)) = false.
Proof.
  intros Hx Hl. destruct l as [|y l]; [reflexivity|].
  change (P x || existsb P (removelast (y :: l)) = false).
  now rewrite Hx, Hl.
Qed.

Lemma removelast_app_keeps (P : stmt -> bool) (pre l : list stmt) :
  existsb P pre = false -> existsb P (removelast l) = false ->
  existsb P (removelast (pre ++ l)) = false.
Proof.
  induction pre as [|x pre IH]; intros Hp Hl; [exact Hl|].
  simpl in Hp. apply orb_false_iff in Hp. destruct Hp as [Hx Hp].
  change ((x :: pre) ++ l) with (x :: (pre ++ l)).
  apply removelast_cons_keeps; auto.
Qed.

Lemma finish_nonempty (r : list (stmt * bool)) : r <> [] -> finish r <> [].
Proof.
  destruct r as [|[s b] r]; [congruence|]. intros _. simpl.
  destruct s; try discriminate. destruct b; try discriminate.
  destruct r; discriminate.
Qed.

Lemma finish_removelast (r : list (stmt * bool)) :
  removelast (finish r) = removelast (map fst r).
Proof.
  induction r as [|[s b] r IH]; [reflexivity|].
  destruct r as [|p r].
  - simpl. destruct s; try reflexivity. destruct b; reflexivity.
  - assert (Hf : finish ((s, b) :: p :: r) = s :: finish (p :: r)).
    { simpl. destruct s; try reflexivity. destruct b; reflexivity. }
    rewrite Hf.
    assert (Hne : finish (p :: r) <> []) by (apply finish_nonempty; discriminate).
    destruct (finish (p :: r)) as [|y l] eqn:E; [congruence|].
    change (removelast (s :: y :: l)) with (s :: removelast (y :: l)).
    rewrite IH. reflexivity.
Qed.

Section RewriterReturns.
Variable h : Host.
Variable rec : string -> program -> bool -> M world value.
Variables (ns : string) (ev : bool).

Lemma visit_returns :
  forall ss w w' r,
    existsb is_return ss = false ->
    visit h rec ns ev ss w = Done w' (Ok r) ->
    existsb is_return (removelast (map fst r)) = false.
Proof.
  induction ss as [|s ss IH]; intros w w' r Hne H.
  - simpl in H. inversion H. reflexivity.
  - simpl in Hne. apply orb_false_iff in Hne. destruct Hne as [Hs Hrest].
    simpl in H.
    destruct s; try discriminate;
      apply bind_ok_inv in H; destruct H as (a & w1 & Hv & Hr).
    + (* expression statement *)
      pose proof (IH _ _ _ Hrest Hv) as Hi. inversion Hr; subst; clear Hr.
      destruct ss as [|s' ss].
      * simpl in Hv. inversion Hv; subst. reflexivity.
      * simpl is_nil. simpl map. now apply removelast_cons_keeps.
    + pose proof (IH _ _ _ Hrest Hv) as Hi. inversion Hr; subst; clear Hr.
      simpl map. now apply removelast_cons_keeps.
    + pose proof (IH _ _ _ Hrest Hv) as Hi. inversion Hr; subst; clear Hr.
      simpl map. now apply removelast_cons_keeps.
    + now apply (IH _ _ _ Hrest) in Hr.
    + pose proof (IH _ _ _ Hrest Hv) as Hi. inversion Hr; subst; clear Hr.
      rewrite map_app. apply removelast_app_keeps; [|exact Hi].
      destruct specs as [|sp specs]; [reflexivity|].
      rewrite map_map. simpl fst.
      generalize (rev (sp :: specs)). intros l.
      induction l as [|x l IHl]; [reflexivity|]. simpl. exact IHl.
    + pose proof (IH _ _ _ Hrest Hv) as Hi. inversion Hr; subst; clear Hr.
      simpl map. rewrite map_app.
      change (SDecl k ds :: map fst (map (fun x => (reg_export ns x x, true))
                                       (rev (map fst ds)))
                ++ map fst a)
        with ((SDecl k ds :: map fst (map (fun x => (reg_export ns x x, true))
                                          (rev (map fst ds))))
                ++ map fst a).
      apply removelast_app_keeps; [|exact Hi].
      simpl. rewrite map_map. simpl fst.
      generalize (rev (map fst ds)). intros l.
      induction l as [|x l IHl]; [reflexivity|]. simpl. exact IHl.
    + pose proof (IH _ _ _ Hrest Hv) as Hi. inversion Hr; subst; clear Hr.
      simpl map.
      apply removelast_cons_keeps; [reflexivity|].
      now apply removelast_cons_keeps.
    + pose proof (IH _ _ _ Hrest Hv) as Hi. inversion Hr; subst; clear Hr.
      simpl map. now apply removelast_cons_keeps.
Qed.

End RewriterReturns.


(** ** Errors of the rewriter are fatal to the call *)

Section RewriterErrors.
Variable h : Host.
Variable rec : string -> program -> bool -> M world value.
Variables (ns : string) (ev : bool).

(** Statements before the first import or unsupported export change
    nothing and stop nothing. *)
Lemma visit_prefix (pre rest : program) (w w' : world) (e : value) :
  existsb is_import pre = false ->
  existsb is_default_expr_export pre = false ->
  visit h rec ns ev rest w = Done w' (Throw e) ->
  visit h rec ns ev (pre ++ rest) w = Done w' (Throw e).
Proof.
  intros Hi Hd Hrest. induction pre as [|s pre IH]; [exact Hrest|].
  simpl in Hi, Hd. apply orb_false_iff in Hi. destruct Hi as [Hsi Hi].
  apply orb_false_iff in Hd. destruct Hd as [Hsd Hd].
  specialize (IH Hi Hd).
  change ((s :: pre) ++ rest) with (s :: (pre ++ rest)). simpl.
  destruct s; try discriminate; unfold bind; now rewrite IH.
Qed.

Lemma evaluate_body_transform_throws (code : program) (w w' : world)
    (e : value) :
  visit h rec ns ev (program_enter ns code) w = Done w' (Throw e) ->
  evaluate_body h rec ns code ev w = Done w' (Throw e).
Proof.
  intros H. unfold evaluate_body, transform. unfold bind at 1. unfold bind at 1.
  now rewrite H.
Qed.

Lemma program_enter_prefix (pre : program) :
  existsb is_import pre = false ->
  existsb is_default_expr_export pre = false ->
  existsb is_import (program_enter ns pre) = false
  /\ existsb is_default_expr_export (program_enter ns pre) = false.
Proof.
  intros Hi Hd. split.
  - now apply program_enter_keeps.
  - now apply program_enter_keeps.
Qed.
End RewriterErrors.

(** X13.  [export default <expression>] is fatal to the call: when no
    import and no other such export precedes it, [evaluate] throws the
    rewriter's error without running anything: the store, the uuids,
    standard error and the module stubs are as before. *)
Theorem unsupported_default_export_is_fatal :
  forall (h : Host) (fuel : nat) (ns : string) (ev : bool)
         (pre post : program) (e : expr) (w : world),
    existsb is_import pre = false ->
    existsb is_default_expr_export pre = false ->
    exists err,
      evaluate h (S fuel) ns (pre ++ SExportDefaultExpr e :: post) ev w
      = Done w (Throw err).
Proof.
  intros h fuel ns ev pre post e w Hi Hd.
  exists (VError "Unexpected: Default export"). simpl.
  apply evaluate_body_transform_throws.
  rewrite program_enter_app.
  destruct (program_enter_prefix ns pre Hi Hd) as [Hi' Hd'].
  apply visit_prefix; auto.
Qed.

(** [export default 5]. *)
Lemma unsupported_default_export_witness :
  exists err,
    evaluate Demo.host 1 "/m/d.js" [SExportDefaultExpr (EConst (VNum 5))]
             false empty_world
    = Done empty_world (Throw err).
Proof.
  exact (unsupported_default_export_is_fatal
           Demo.host 0 "/m/d.js" false [] [] (EConst (VNum 5)) empty_world
           eq_refl eq_refl).
Defined.

(** X14.  A specifier that does not resolve is fatal to the call: when no
    import and no unsupported export precedes the import, [evaluate]
    writes the resolver's exception to standard error and throws; the
    store is as before and the fragment is not run. *)
Theorem unresolved_import_is_fatal :
  forall (h : Host) (fuel : nat) (ns : string) (ev : bool)
         (pre post : program) (source : string) (specs : list importSpec)
         (e : value) (w : world),
    existsb is_import pre = false ->
    existsb is_default_expr_export pre = false ->
    resolve h ns source = Throw e ->
    exists err,
      evaluate h (S fuel) ns (pre ++ SImport source specs :: post) ev w
      = Done (log_err w [VStr "Failed to normalize import path: "; e])
             (Throw err).
Proof.
  intros h fuel ns ev pre post source specs e w Hi Hd Hr. exists e. simpl.
  apply evaluate_body_transform_throws.
  rewrite program_enter_app.
  destruct (program_enter_prefix ns pre Hi Hd) as [Hi' Hd'].
  apply visit_prefix; auto.
  simpl. unfold bind at 1. unfold importEnter. unfold bind at 1.
  unfold normalizeImportPath. now rewrite Hr.
Qed.

(** [import x from 'nowhere'; x]. *)
Lemma unresolved_import_witness :
  exists err,
    evaluate Demo.host 1 "/m/d.js"
             [SImport "nowhere" [ImportDefaultSpecifier "x"]; SExpr (EVar "x")]
             true empty_world
    = Done (log_err empty_world
                    [VStr "Failed to normalize import path: ";
                     VError "MODULE_NOT_FOUND"])
           (Throw err).
Proof.
  exact (unresolved_import_is_fatal
           Demo.host 0 "/m/d.js" true [] [SExpr (EVar "x")] "nowhere"
           [ImportDefaultSpecifier "x"] (VError "MODULE_NOT_FOUND")
           empty_world eq_refl eq_refl eq_refl).
Defined.

(** ** Without [evalImports] *)

Lemma importEnter_off (h : Host)
    (rec : string -> program -> bool -> M world value)
    (file source : string) (specs : list importSpec) (w : world) :
  importEnter h rec file false source specs w
  = match resolve h file source with
    | Ok p =>
        Done (with_store w (register_all file p (negb (isAbsolute p)) specs
                                         (st w)))
             (Ok tt)
    | Throw e =>
        Done (log_err w [VStr "Failed to normalize import path: "; e])
             (Throw e)
    end.
Proof.
  unfold importEnter. unfold bind at 1. unfold normalizeImportPath.
  destruct (resolve h file source) as [p|e] eqn:Hr; [|reflexivity].
  unfold bind at 1. unfold get at 1. rewrite andb_false_r. simpl.
  unfold bind at 1. unfold ret at 1.
  apply (registerSpecifiers_ok h file source p _ specs w Hr).
Qed.

Lemma visit_off (h : Host)
    (rec rec' : string -> program -> bool -> M world value) (file : string) :
  forall ss w,
    visit h rec file false ss w = visit h rec' file false ss w
    /\ forall w' r,
        visit h rec file false ss w = Done w' r ->
        namespaces (st w') = namespaces (st w)
        /\ valueExports (st w') = valueExports (st w).
Proof.
  induction ss as [|s ss IH]; intros w.
  - split; [reflexivity|]. intros w' r H. inversion H. auto.
  - destruct (IH w) as [IHeq IHst].
    assert (Hgen : forall f : list (stmt * bool) -> list (stmt * bool),
               (r <- visit h rec file false ss ;; ret (f r)) w
               = (r <- visit h rec' file false ss ;; ret (f r)) w
               /\ forall w' x,
                   (r <- visit h rec file false ss ;; ret (f r)) w = Done w' x ->
                   namespaces (st w') = namespaces (st w)
                   /\ valueExports (st w') = valueExports (st w)).
    { intros f. unfold bind. rewrite <- IHeq. split; [reflexivity|].
      intros w' x. destruct (visit h rec file false ss w) as [w1 [r|e]| |] eqn:E;
        try discriminate; intros H; inversion H; subst; eapply IHst; eauto. }
    simpl. destruct s; try apply Hgen.
    + (* import *)
      unfold bind. rewrite !importEnter_off.
      destruct (resolve h file source) as [p|e].
      * destruct (register_all_namespaces file p (negb (isAbsolute p)) specs
                                          (st w)) as [Hn He].
        destruct (IH (with_store w (register_all file p (negb (isAbsolute p))
                                                 specs (st w))))
          as [IHeq' IHst'].
        split; [exact IHeq'|]. intros w' r H.
        destruct (IHst' w' r H) as [H1 H2]. simpl in H1, H2.
        rewrite H1, H2. auto.
      * split; [reflexivity|]. intros w' r H. inversion H. auto.
    + split; [reflexivity|]. intros w' r H. inversion H. auto.
Qed.

(** X15.  With [evalImports] off the rewriter evaluates no file: its
    outcome does not depend on what a nested [evaluate] would do, and it
    leaves the bindings and the exports of every namespace as they were
    (it only records imports). *)
Theorem rewriter_without_evalImports :
  forall (h : Host) (rec rec' : string -> program -> bool -> M world value)
         (ns : string) (code : program) (w : world),
    transform h rec ns code false w = transform h rec' ns code false w
    /\ forall w' r,
        transform h rec ns code false w = Done w' r ->
        namespaces (st w') = namespaces (st w)
        /\ valueExports (st w') = valueExports (st w).
Proof.
  intros h rec rec' ns code w. unfold transform.
  destruct (visit_off h rec rec' ns (program_enter ns code) w) as [Heq Hst].
  unfold bind. rewrite <- Heq. split; [reflexivity|].
  intros w' r.
  destruct (visit h rec ns false (program_enter ns code) w)
    as [w1 [x|e]| |] eqn:E; try discriminate;
    intros H; inversion H; subst; eapply Hst; eauto.
Qed.

Lemma rewriter_without_evalImports_witness :
  namespaces
    (st (with_store empty_world
           (mkStore [] []
              [("/m/d.js", [("x", mkImport "/m/a.js" (KName "x") "x" false)])])))
  = namespaces (st empty_world).
Proof.
  exact (proj1 (proj2 (rewriter_without_evalImports
                         Demo.host (evaluate Demo.host 0) (evaluate Demo.host 0)
                         "/m/d.js"
                         [SImport "./a" [ImportSpecifier "x" "x"]]
                         empty_world)
                      _ (Ok []) eq_refl)).
Defined.

(** ** A binding is seen by the next call *)

(** X16.  What one call registers, the next call sees: in a store with one
    entry per key, if [x] (other than [__proto__] and the wrapper function's
    own [arguments]) is bound to [v] in the namespace, evaluating the
    fragment [x] there returns [v] (whatever the imports and the globals
    hold under that name), and the call only adds its module stub. *)
Theorem binding_is_seen_by_the_next_call :
  forall (h : Host) (fuel : nat) (ns x : string) (v : value) (ev : bool)
         (w : world) (nsI : amap string value),
    store_wf (st w) ->
    x <> "__proto__" ->
    x <> "arguments" ->
    sget (ns_values (st w) ns) x = Some v ->
    synthImports h (st w) ns (ns_imports (st w) ns) [] w = Done w (Ok nsI) ->
    evaluate h (S fuel) ns [SExpr (EVar x)] ev w
    = Done (with_module_stub w ns) (Ok v).
Proof.
  intros h fuel ns x v ev w nsI Hwf _ _ Hx Hs. simpl.
  rewrite (evaluate_body_enters h (evaluate h fuel) ns [SExpr (EVar x)] ev w
             (make_scope h ns (length (modules w)) ev nsI (ns_values (st w) ns))
             [SReturn (EVar x)] (with_module_stub w ns)).
  - unfold run_wrapped. simpl. unfold bind, lift, ret, lookup. simpl.
    unfold scope_lookup, obj_find.
    rewrite (nsForScope_is_bindings h ns _ ev nsI _ (wf_ns_values _ ns Hwf)).
    now rewrite Hx.
  - exists w, nsI. repeat split. exact Hs.
Qed.

Lemma binding_is_seen_witness :
  evaluate Demo.host 1 "/tmp/a.js" [SExpr (EVar "x")] false
           (with_store empty_world
                       (registerValue empty_store "/tmp/a.js" "x" (VNum 2)))
  = Done (with_module_stub
            (with_store empty_world
                        (registerValue empty_store "/tmp/a.js" "x" (VNum 2)))
            "/tmp/a.js")
         (Ok (VNum 2)).
Proof.
  apply (binding_is_seen_by_the_next_call
           Demo.host 0 "/tmp/a.js" "x" (VNum 2) false
           (with_store empty_world
                       (registerValue empty_store "/tmp/a.js" "x" (VNum 2)))
           []).
  - apply store_wf_registerValue, store_wf_empty.
  - discriminate.
  - discriminate.
  - reflexivity.
  - reflexivity.
Defined.

Lemma namespace_object_named_export_witness :
  exists fields,
    constructNamespaceExport
      (registerValueExport (registerValue empty_store "/m/a.js" "x" (VNum 1))
                           "/m/a.js" "x" (KName "x"))
      "/m/a.js" = VObj fields
    /\ sget fields "x" = Some (VNum 1).
Proof.
  apply (namespace_object_named_export
           (registerValueExport (registerValue empty_store "/m/a.js" "x" (VNum 1))
                                "/m/a.js" "x" (KName "x"))
           "/m/a.js" "x" (mkExport (KName "x") "x")).
  - apply store_wf_registerValueExport, store_wf_registerValue, store_wf_empty.
  - reflexivity.
  - discriminate.
  - discriminate.
Defined.

(** * Further properties of the lookup-based store *)

Lemma objGet_empty {K A} (m : amap string (amap K A)) (k : string) :
  snd (Lookup.objGet m k []) = entry_or_empty m k
  /\ forall k', entry_or_empty (fst (Lookup.objGet m k [])) k'
                = entry_or_empty m k'.
Proof.
  unfold Lookup.objGet, entry_or_empty.
  destruct (sget m k) eqn:E; simpl; split; auto.
  intros k'. destruct (String.eqb k' k) eqn:Ek.
  - apply String.eqb_eq in Ek. subst. now rewrite sget_sset_eq, E.
  - rewrite sget_sset_neq; [reflexivity|].
    intros ->. now rewrite String.eqb_refl in Ek.
Qed.

Lemma entry_sset {K A} (m : amap string (amap K A)) (k k' : string)
    (a : amap K A) :
  entry_or_empty (sset m k a) k'
  = if String.eqb k' k then a else entry_or_empty m k'.
Proof.
  unfold entry_or_empty. destruct (String.eqb k' k) eqn:E.
  - apply String.eqb_eq in E. subst. now rewrite sget_sset_eq.
  - rewrite sget_sset_neq; [reflexivity|].
    intros ->. now rewrite String.eqb_refl in E.
Qed.

Lemma values_of_entry (s : Lookup.lstore) (ns : string) :
  Lookup.values_of s ns = entry_or_empty (Lookup.valuesLookup s) ns.
Proof. reflexivity. Qed.

Lemma exports_of_entry (s : Lookup.lstore) (ns : string) :
  Lookup.exports_of s ns = entry_or_empty (Lookup.exportsLookup s) ns.
Proof. reflexivity. Qed.

Lemma doRegisterValue_values (s : Lookup.lstore) (ns k : string)
    (v : Lookup.lvalue) (ns' : string) :
  Lookup.values_of (fst (Lookup.doRegisterValue s ns k v)) ns'
  = (if String.eqb ns' ns then sset (Lookup.values_of s ns) k v
     else Lookup.values_of s ns')
  /\ Lookup.exportsLookup (fst (Lookup.doRegisterValue s ns k v))
     = Lookup.exportsLookup s.
Proof.
  unfold Lookup.doRegisterValue.
  destruct (objGet_empty (Lookup.valuesLookup s) ns) as [H1 H2].
  destruct (Lookup.objGet (Lookup.valuesLookup s) ns []) as [vl values].
  simpl in *. split; [|reflexivity].
  rewrite !values_of_entry. simpl. rewrite entry_sset. subst values.
  destruct (String.eqb ns' ns); [reflexivity|apply H2].
Qed.

Lemma doRegisterExport_bound (s : Lookup.lstore) (ns local exp : string) :
  Lookup.has_key (Lookup.values_of s ns) local = true ->
  snd (Lookup.doRegisterExport s ns local exp) = Ok exp
  /\ (forall ns',
        Lookup.exports_of (fst (Lookup.doRegisterExport s ns local exp)) ns'
        = if String.eqb ns' ns
          then aset ekey_eqb (Lookup.exports_of s ns) (KName exp) local
          else Lookup.exports_of s ns')
  /\ (forall ns',
        Lookup.values_of (fst (Lookup.doRegisterExport s ns local exp)) ns'
        = Lookup.values_of s ns').
Proof.
  intros Hk. unfold Lookup.doRegisterExport.
  destruct (objGet_empty (Lookup.exportsLookup s) ns) as [He1 He2].
  destruct (objGet_empty (Lookup.valuesLookup s) ns) as [Hv1 Hv2].
  destruct (Lookup.objGet (Lookup.exportsLookup s) ns []) as [el ex].
  destruct (Lookup.objGet (Lookup.valuesLookup s) ns []) as [vl vs].
  simpl in *. subst ex vs. rewrite <- values_of_entry, Hk. simpl.
  split; [reflexivity|]. split.
  - intros ns'. rewrite !exports_of_entry. simpl. rewrite entry_sset.
    destruct (String.eqb ns' ns); [reflexivity|apply He2].
  - intros ns'. rewrite !values_of_entry. simpl. apply Hv2.
Qed.

(** X17.  In the lookup-based store, exporting a bound local under a name
    other than [__proto__] succeeds: [doRegisterExport] returns the exported
    name, the namespace's exports
    map that name to the local, every other export of every namespace and
    every binding is as before. *)
Theorem doRegisterExport_of_bound_local :
  forall (s : Lookup.lstore) (ns local exp : string),
    Lookup.has_key (Lookup.values_of s ns) local = true ->
    exp <> "__proto__" ->
    let s' := fst (Lookup.doRegisterExport s ns local exp) in
    snd (Lookup.doRegisterExport s ns local exp) = Ok exp
    /\ aget ekey_eqb (Lookup.exports_of s' ns) (KName exp) = Some local
    /\ (forall ns' k, ns' <> ns \/ k <> KName exp ->
          aget ekey_eqb (Lookup.exports_of s' ns') k
          = aget ekey_eqb (Lookup.exports_of s ns') k)
    /\ (forall ns', Lookup.values_of s' ns' = Lookup.values_of s ns').
Proof.
  intros s ns local exp Hk _ s'.
  destruct (doRegisterExport_bound s ns local exp Hk) as (H1 & H2 & H3).
  split; [exact H1|]. split; [|split; [|exact H3]].
  - unfold s'. rewrite H2, String.eqb_refl.
    apply aget_aset_eq, ekey_eqb_spec.
  - intros ns' k H. unfold s'. rewrite H2.
    destruct (String.eqb ns' ns) eqn:E; [|reflexivity].
    apply String.eqb_eq in E. subst ns'.
    destruct H as [H|H]; [congruence|].
    apply aget_aset_neq; [apply ekey_eqb_spec|exact H].
Qed.

Lemma doRegisterExport_of_bound_local_witness :
  snd (Lookup.doRegisterExport
         (fst (Lookup.doRegisterValue Lookup.empty "/m/a.js" "x"
                                      (Lookup.LVal (VNum 1))))
         "/m/a.js" "x" "y") = Ok "y".
Proof.
  exact (proj1 (doRegisterExport_of_bound_local
                  (fst (Lookup.doRegisterValue Lookup.empty "/m/a.js" "x"
                                               (Lookup.LVal (VNum 1))))
                  "/m/a.js" "x" "y" eq_refl ltac:(discriminate))).
Defined.

Section LookupContextFacts.
Variable resolveImportPath : string -> string -> result string.
Variable inheritedKey : string -> string.
Variable hostGlobals : amap string value.

Abbreviation doImport := (LookupContext.doRegisterImport resolveImportPath).
Abbreviation doDefaultImport :=
  (LookupContext.doRegisterDefaultImport resolveImportPath).
Abbreviation ctx_get := (LookupContext.context_get inheritedKey hostGlobals).

Lemma context_get_read (s : Lookup.lstore) (ns prop : string) :
  snd (ctx_get s ns prop) = context_read inheritedKey hostGlobals s ns prop
  /\ (forall ns', Lookup.values_of (fst (ctx_get s ns prop)) ns'
                  = Lookup.values_of s ns')
  /\ (forall ns', Lookup.exports_of (fst (ctx_get s ns prop)) ns'
                  = Lookup.exports_of s ns').
Proof.
  unfold LookupContext.context_get, context_read.
  destruct (objGet_empty (Lookup.valuesLookup s) ns) as [Hv1 Hv2].
  destruct (Lookup.objGet (Lookup.valuesLookup s) ns []) as [vl values].
  simpl in Hv1, Hv2. subst values. rewrite <- values_of_entry.
  destruct (LookupContext.values_find (Lookup.values_of s ns) prop)
    as [[v|n r k]|]; simpl.
  - repeat split; intros; rewrite ?values_of_entry; simpl; auto.
  - destruct (objGet_empty (Lookup.exportsLookup s) r) as [He1 He2].
    destruct (objGet_empty vl r) as [Hw1 Hw2].
    destruct (Lookup.objGet (Lookup.exportsLookup s) r []) as [el ex].
    destruct (Lookup.objGet vl r []) as [vl2 vs].
    simpl in *. subst ex vs. rewrite Hv2.
    repeat split; intros; rewrite ?values_of_entry, ?exports_of_entry;
      simpl; rewrite ?Hw2; auto.
  - repeat split; intros; rewrite ?values_of_entry; simpl; auto.
Qed.

Lemma doRegisterImport_found (s : Lookup.lstore)
    (ns l spec e r : string) :
  resolveImportPath ns spec = Ok r ->
  LookupContext.has_export (Lookup.exports_of s r) (KName e) = true ->
  snd (doImport s ns l spec e) = Ok tt
  /\ (forall ns',
        Lookup.values_of (fst (doImport s ns l spec e)) ns'
        = if String.eqb ns' ns
          then sset (Lookup.values_of s ns) l (Lookup.LImport ns r (KName e))
          else Lookup.values_of s ns')
  /\ (forall ns', Lookup.exports_of (fst (doImport s ns l spec e)) ns'
                  = Lookup.exports_of s ns').
Proof.
  intros Hr He. unfold LookupContext.doRegisterImport. rewrite Hr.
  destruct (objGet_empty (Lookup.exportsLookup s) r) as [He1 He2].
  destruct (objGet_empty (Lookup.valuesLookup s) ns) as [Hv1 Hv2].
  destruct (Lookup.objGet (Lookup.exportsLookup s) r []) as [el ex].
  destruct (Lookup.objGet (Lookup.valuesLookup s) ns []) as [vl vs].
  simpl in *. subst ex vs. rewrite <- exports_of_entry, He. simpl.
  repeat split; intros ns'; rewrite ?values_of_entry, ?exports_of_entry;
    simpl; auto.
  rewrite entry_sset. destruct (String.eqb ns' ns); auto.
Qed.

Lemma values_find_own (m : amap string Lookup.lvalue) (k : string)
    (v : Lookup.lvalue) :
  LookupContext.values_find (sset m k v) k = Some v.
Proof. unfold LookupContext.values_find. now rewrite sget_sset_eq. Qed.

Lemma has_key_sset (m : amap string Lookup.lvalue) (k : string)
    (v : Lookup.lvalue) :
  Lookup.has_key (sset m k v) k = true.
Proof. unfold Lookup.has_key. now rewrite sget_sset_eq. Qed.

End LookupContextFacts.

Lemma context_read_import (ik : string -> string) (g : amap string value)
    (s : Lookup.lstore) (A B l x : string) (e : ekey) (v : Lookup.lvalue) :
  sget (Lookup.values_of s B) l = Some (Lookup.LImport B A e) ->
  aget ekey_eqb (Lookup.exports_of s A) e = Some x ->
  sget (Lookup.values_of s A) x = Some v ->
  context_read ik g s B l = v.
Proof.
  intros Hl He Hx. unfold context_read, LookupContext.values_find.
  rewrite Hl. unfold LookupContext.export_local_key. now rewrite He, Hx.
Qed.

Lemma has_export_own (m : amap ekey string) (k : ekey) (x : string) :
  aget ekey_eqb m k = Some x -> LookupContext.has_export m k = true.
Proof. intros H. unfold LookupContext.has_export. now rewrite H. Qed.

(** X18.  Lookup-based store, a named import end to end.  Let namespace [A]
    bind [x], export it as [e], and let another namespace [B] import [e] as
    [l] through a specifier that resolves to [A], none of the three names
    being [__proto__].  Both registrations
    succeed, reading [l] through the context of [B] gives the value of [x]
    in [A]; the import is resolved at each read, so after [A] rebinds [x]
    the same read gives the new value. *)
Theorem lookup_import_reads_the_current_export :
  forall (resolveImportPath : string -> string -> result string)
         (inheritedKey : string -> string) (hostGlobals : amap string value)
         (s : Lookup.lstore) (A B spec x e l : string) (v : value),
    A <> B ->
    resolveImportPath B spec = Ok A ->
    x <> "__proto__" -> e <> "__proto__" -> l <> "__proto__" ->
    let s1 := fst (Lookup.doRegisterValue s A x (Lookup.LVal v)) in
    let s2 := fst (Lookup.doRegisterExport s1 A x e) in
    let s3 := fst (LookupContext.doRegisterImport resolveImportPath
                     s2 B l spec e) in
    snd (Lookup.doRegisterExport s1 A x e) = Ok e
    /\ snd (LookupContext.doRegisterImport resolveImportPath s2 B l spec e)
       = Ok tt
    /\ snd (LookupContext.context_get inheritedKey hostGlobals s3 B l)
       = Lookup.LVal v
    /\ forall v2,
         snd (LookupContext.context_get inheritedKey hostGlobals
                (fst (Lookup.doRegisterValue s3 A x (Lookup.LVal v2))) B l)
         = Lookup.LVal v2.
Proof.
  intros rip ik g s A B spec x e l v HAB Hr _ _ _ s1 s2 s3.
  assert (HBA : String.eqb B A = false).
  { destruct (String.eqb B A) eqn:E; [|reflexivity].
    apply String.eqb_eq in E. congruence. }
  assert (Hv1 : Lookup.values_of s1 A
                = sset (Lookup.values_of s A) x (Lookup.LVal v)).
  { unfold s1.
    rewrite (proj1 (doRegisterValue_values s A x (Lookup.LVal v) A)).
    now rewrite String.eqb_refl. }
  assert (Hk : Lookup.has_key (Lookup.values_of s1 A) x = true)
    by (rewrite Hv1; apply has_key_sset).
  destruct (doRegisterExport_bound s1 A x e Hk) as (Hx1 & Hx2 & Hx3).
  fold s2 in Hx2, Hx3.
  assert (He2 : aget ekey_eqb (Lookup.exports_of s2 A) (KName e) = Some x).
  { rewrite Hx2, String.eqb_refl. apply aget_aset_eq, ekey_eqb_spec. }
  destruct (doRegisterImport_found rip s2 B l spec e A Hr
              (has_export_own _ _ _ He2)) as (Hi1 & Hi2 & Hi3).
  fold s3 in Hi2, Hi3.
  split; [exact Hx1|]. split; [exact Hi1|]. split.
  - rewrite (proj1 (context_get_read ik g s3 B l)).
    apply (context_read_import ik g s3 A B l x (KName e)).
    + rewrite Hi2, String.eqb_refl. apply sget_sset_eq.
    + now rewrite Hi3.
    + rewrite Hi2. rewrite String.eqb_sym, HBA, Hx3, Hv1.
      apply sget_sset_eq.
  - intros v2.
    set (s4 := fst (Lookup.doRegisterValue s3 A x (Lookup.LVal v2))).
    destruct (doRegisterValue_values s3 A x (Lookup.LVal v2) A) as [Ha He4].
    destruct (doRegisterValue_values s3 A x (Lookup.LVal v2) B) as [Hb _].
    fold s4 in Ha, Hb, He4. rewrite String.eqb_refl in Ha.
    rewrite HBA in Hb.
    rewrite (proj1 (context_get_read ik g s4 B l)).
    apply (context_read_import ik g s4 A B l x (KName e)).
    + rewrite Hb, Hi2, String.eqb_refl. apply sget_sset_eq.
    + unfold Lookup.exports_of. rewrite He4. fold (Lookup.exports_of s3 A).
      now rewrite Hi3.
    + rewrite Ha. apply sget_sset_eq.
Qed.

Lemma lookup_import_witness :
  "/m/a.js" <> "/m/b.js"
  /\ snd (LookupContext.context_get (fun x => x) []
            (fst (LookupContext.doRegisterImport (fun _ _ => Ok "/m/a.js")
                    (fst (Lookup.doRegisterExport
                            (fst (Lookup.doRegisterValue Lookup.empty
                                    "/m/a.js" "x" (Lookup.LVal (VNum 1))))
                            "/m/a.js" "x" "y"))
                    "/m/b.js" "z" "./a" "y"))
            "/m/b.js" "z")
     = Lookup.LVal (VNum 1).
Proof.
  split; [discriminate|].
  exact (proj1 (proj2 (proj2
    (lookup_import_reads_the_current_export
       (fun _ _ => Ok "/m/a.js") (fun x => x) [] Lookup.empty
       "/m/a.js" "/m/b.js" "./a" "x" "y" "z" (VNum 1)
       ltac:(discriminate) eq_refl ltac:(discriminate) ltac:(discriminate)
       ltac:(discriminate))))).
Defined.

Lemma doRegisterImport_missing (rip : string -> string -> result string)
    (s : Lookup.lstore) (ns l spec r : string) (k : ekey) (msg : string)
    (reg : Lookup.lstore * result unit) :
  reg = (let (el, importedExports) :=
           Lookup.objGet (Lookup.exportsLookup s) r [] in
         if negb (LookupContext.has_export importedExports k) then
           (Lookup.mkLStore (Lookup.valuesLookup s) el, Throw (VError msg))
         else
           let (vl, values) := Lookup.objGet (Lookup.valuesLookup s) ns [] in
           (Lookup.mkLStore
              (sset vl ns (sset values l (Lookup.LImport ns r k))) el,
            Ok tt)) ->
  LookupContext.has_export (Lookup.exports_of s r) k = false ->
  snd reg = Throw (VError msg)
  /\ Lookup.valuesLookup (fst reg) = Lookup.valuesLookup s
  /\ forall ns', Lookup.exports_of (fst reg) ns' = Lookup.exports_of s ns'.
Proof.
  intros -> He.
  destruct (objGet_empty (Lookup.exportsLookup s) r) as [He1 He2].
  destruct (Lookup.objGet (Lookup.exportsLookup s) r []) as [el ex].
  simpl in *. subst ex. rewrite <- exports_of_entry, He. simpl.
  repeat split. intros ns'. rewrite !exports_of_entry. apply He2.
Qed.

(** X19.  Lookup-based store, imports that cannot be made.  When the
    resolver throws, a named or default import rethrows its error and the
    store is as before.  When the resolved namespace has no such export
    (own or inherited), the import throws "Failed import due to missing
    ..." naming the resolved namespace, no binding is written in any
    namespace, and no export is added. *)
Theorem lookup_import_failures :
  forall (resolveImportPath : string -> string -> result string)
         (s : Lookup.lstore) (ns l spec : string),
    (forall err, resolveImportPath ns spec = Throw err ->
       (forall e, LookupContext.doRegisterImport resolveImportPath
                    s ns l spec e = (s, Throw err))
       /\ LookupContext.doRegisterDefaultImport resolveImportPath
            s ns l spec = (s, Throw err))
    /\ (forall r, resolveImportPath ns spec = Ok r ->
          (forall e,
             LookupContext.has_export (Lookup.exports_of s r) (KName e)
             = false ->
             let reg := LookupContext.doRegisterImport resolveImportPath
                          s ns l spec e in
             snd reg
             = Throw (VError ("Failed import due to missing export " ++ e
                                ++ " from namespace " ++ r))
             /\ Lookup.valuesLookup (fst reg) = Lookup.valuesLookup s
             /\ forall ns', Lookup.exports_of (fst reg) ns'
                            = Lookup.exports_of s ns')
          /\ (LookupContext.has_export (Lookup.exports_of s r) KDefault
              = false ->
              let reg := LookupContext.doRegisterDefaultImport
                           resolveImportPath s ns l spec in
              snd reg
              = Throw (VError
                         ("Failed import due to missing default export from namespace "
                            ++ r))
              /\ Lookup.valuesLookup (fst reg) = Lookup.valuesLookup s
              /\ forall ns', Lookup.exports_of (fst reg) ns'
                             = Lookup.exports_of s ns')).
Proof.
  intros rip s ns l spec. split.
  - intros err Hr. split; [intros e|];
      unfold LookupContext.doRegisterImport,
        LookupContext.doRegisterDefaultImport; now rewrite Hr.
  - intros r Hr. split.
    + intros e He reg.
      apply (doRegisterImport_missing rip s ns l spec r (KName e)); [|exact He].
      unfold reg, LookupContext.doRegisterImport. now rewrite Hr.
    + intros He reg.
      apply (doRegisterImport_missing rip s ns l spec r KDefault); [|exact He].
      unfold reg, LookupContext.doRegisterDefaultImport. now rewrite Hr.
Qed.

Lemma lookup_import_failures_witness :
  snd (LookupContext.doRegisterImport (fun _ _ => Ok "/m/a.js")
         Lookup.empty "/m/b.js" "z" "./a" "y")
  = Throw (VError "Failed import due to missing export y from namespace /m/a.js").
Proof.
  exact (proj1 (proj1 (proj2
    (lookup_import_failures (fun _ _ => Ok "/m/a.js") Lookup.empty
       "/m/b.js" "z" "./a") "/m/a.js" eq_refl) "y" eq_refl)).
Defined.

Lemma context_helpers_nodup : NoDup (map fst LookupContext.context_helpers).
Proof. simpl. repeat constructor; simpl; intuition discriminate. Qed.

(** X20.  What a name reads as through the context of the lookup-based
    store, the own property names of [global] being distinct.  A binding of
    the namespace that is not an import is what the read gives, whatever the
    globals hold.  A name the namespace does not bind but every plain object
    inherits reads as the inherited member, never as the global of that
    name.  Any other name reads as the registration function of that name
    when it names one, else as the global, else as [undefined]. *)
Theorem context_read_order :
  forall (inheritedKey : string -> string) (hostGlobals : amap string value)
         (s : Lookup.lstore) (ns prop : string),
    NoDup (map fst hostGlobals) ->
    let got := snd (LookupContext.context_get inheritedKey hostGlobals
                      s ns prop) in
    (forall v, sget (Lookup.values_of s ns) prop = Some (Lookup.LVal v) ->
       got = Lookup.LVal v)
    /\ (sget (Lookup.values_of s ns) prop = None ->
        forall v, sget objectProto prop = Some v -> got = Lookup.LVal v)
    /\ (sget (Lookup.values_of s ns) prop = None ->
        sget objectProto prop = None ->
        got = Lookup.LVal
                match sget LookupContext.context_helpers prop with
                | Some f => f
                | None => or_undef (sget hostGlobals prop)
                end).
Proof.
  intros ik g s ns prop Hnd got. unfold got.
  rewrite (proj1 (context_get_read ik g s ns prop)).
  unfold context_read, LookupContext.values_find.
  split; [|split].
  - intros v Hv. now rewrite Hv.
  - intros Hv v Hp. now rewrite Hv, Hp.
  - intros Hv Hp. rewrite Hv, Hp. unfold LookupContext.context_base.
    rewrite (sget_spread _ _ _ context_helpers_nodup).
    destruct (sget LookupContext.context_helpers prop); [reflexivity|].
    rewrite (sget_spread _ _ _ Hnd). now destruct (sget g prop).
Qed.

Lemma context_read_order_witness :
  snd (LookupContext.context_get (fun x => x) [("toString", VNum 1)]
         Lookup.empty "/m/a.js" "toString")
  = Lookup.LVal (VHost "Object.prototype.toString").
Proof.
  refine (proj1 (proj2
    (context_read_order (fun x => x) [("toString", VNum 1)]
       Lookup.empty "/m/a.js" "toString" _)) eq_refl _ eq_refl).
  repeat constructor. simpl. tauto.
Defined.

Lemma doRegisterDefaultExport_bound (s : Lookup.lstore) (ns local : string) :
  Lookup.has_key (Lookup.values_of s ns) local = true ->
  snd (Lookup.doRegisterDefaultExport s ns local)
  = Ok Lookup.defaultExport_toString
  /\ (forall ns',
        Lookup.exports_of (fst (Lookup.doRegisterDefaultExport s ns local)) ns'
        = if String.eqb ns' ns
          then aset ekey_eqb (Lookup.exports_of s ns) KDefault local
          else Lookup.exports_of s ns')
  /\ (forall ns',
        Lookup.values_of (fst (Lookup.doRegisterDefaultExport s ns local)) ns'
        = Lookup.values_of s ns').
Proof.
  intros Hk. unfold Lookup.doRegisterDefaultExport.
  destruct (objGet_empty (Lookup.exportsLookup s) ns) as [He1 He2].
  destruct (objGet_empty (Lookup.valuesLookup s) ns) as [Hv1 Hv2].
  destruct (Lookup.objGet (Lookup.exportsLookup s) ns []) as [el ex].
  destruct (Lookup.objGet (Lookup.valuesLookup s) ns []) as [vl vs].
  simpl in *. subst ex vs. rewrite <- values_of_entry, Hk. simpl.
  split; [reflexivity|]. split.
  - intros ns'. rewrite !exports_of_entry. simpl. rewrite entry_sset.
    destruct (String.eqb ns' ns); [reflexivity|apply He2].
  - intros ns'. rewrite !values_of_entry. simpl. apply Hv2.
Qed.

Lemma doRegisterDefaultImport_found
    (rip : string -> string -> result string) (s : Lookup.lstore)
    (ns l spec r : string) :
  rip ns spec = Ok r ->
  LookupContext.has_export (Lookup.exports_of s r) KDefault = true ->
  let reg := LookupContext.doRegisterDefaultImport rip s ns l spec in
  snd reg = Ok tt
  /\ (forall ns',
        Lookup.values_of (fst reg) ns'
        = if String.eqb ns' ns
          then sset (Lookup.values_of s ns) l (Lookup.LImport ns r KDefault)
          else Lookup.values_of s ns')
  /\ (forall ns', Lookup.exports_of (fst reg) ns' = Lookup.exports_of s ns').
Proof.
  intros Hr He reg. unfold reg, LookupContext.doRegisterDefaultImport.
  rewrite Hr.
  destruct (objGet_empty (Lookup.exportsLookup s) r) as [He1 He2].
  destruct (objGet_empty (Lookup.valuesLookup s) ns) as [Hv1 Hv2].
  destruct (Lookup.objGet (Lookup.exportsLookup s) r []) as [el ex].
  destruct (Lookup.objGet (Lookup.valuesLookup s) ns []) as [vl vs].
  simpl in *. subst ex vs. rewrite <- exports_of_entry, He. simpl.
  repeat split; intros ns'; rewrite ?values_of_entry, ?exports_of_entry;
    simpl; auto.
  rewrite entry_sset. destruct (String.eqb ns' ns); auto.
Qed.

(** X21.  Lookup-based store, a default import end to end.  When namespace
    [A] binds [x] and makes it its default export, and another namespace
    [B] default-imports from a specifier resolving to [A] as [l] (not
    [__proto__]), the export returns [Symbol(defaultExport)], the text of
    this file's default-export symbol, the import succeeds, and [l] read
    through the context of [B] is the value of [x] in [A]. *)
Theorem lookup_default_import_reads_the_export :
  forall (resolveImportPath : string -> string -> result string)
         (inheritedKey : string -> string) (hostGlobals : amap string value)
         (s : Lookup.lstore) (A B spec x l : string) (v : Lookup.lvalue),
    A <> B ->
    resolveImportPath B spec = Ok A ->
    l <> "__proto__" ->
    sget (Lookup.values_of s A) x = Some v ->
    let s1 := fst (Lookup.doRegisterDefaultExport s A x) in
    let s2 := fst (LookupContext.doRegisterDefaultImport resolveImportPath
                     s1 B l spec) in
    snd (Lookup.doRegisterDefaultExport s A x)
    = Ok "Symbol(defaultExport)"
    /\ snd (LookupContext.doRegisterDefaultImport resolveImportPath
              s1 B l spec) = Ok tt
    /\ snd (LookupContext.context_get inheritedKey hostGlobals s2 B l) = v.
Proof.
  intros rip ik g s A B spec x l v HAB Hr _ Hx s1 s2.
  assert (HAB' : String.eqb A B = false).
  { destruct (String.eqb A B) eqn:E; [|reflexivity].
    apply String.eqb_eq in E. congruence. }
  assert (Hk : Lookup.has_key (Lookup.values_of s A) x = true)
    by (unfold Lookup.has_key; now rewrite Hx).
  destruct (doRegisterDefaultExport_bound s A x Hk) as (H1 & H2 & H3).
  fold s1 in H2, H3.
  assert (He : aget ekey_eqb (Lookup.exports_of s1 A) KDefault = Some x).
  { rewrite H2, String.eqb_refl. apply aget_aset_eq, ekey_eqb_spec. }
  destruct (doRegisterDefaultImport_found rip s1 B l spec A Hr
              (has_export_own _ _ _ He)) as (I1 & I2 & I3).
  fold s2 in I2, I3.
  split; [exact H1|]. split; [exact I1|].
  rewrite (proj1 (context_get_read ik g s2 B l)).
  apply (context_read_import ik g s2 A B l x KDefault).
  - rewrite I2, String.eqb_refl. apply sget_sset_eq.
  - now rewrite I3.
  - now rewrite I2, HAB', H3.
Qed.

Lemma lookup_default_import_witness :
  snd (LookupContext.context_get (fun x => x) []
         (fst (LookupContext.doRegisterDefaultImport (fun _ _ => Ok "/m/a.js")
                 (fst (Lookup.doRegisterDefaultExport
                         (fst (Lookup.doRegisterValue Lookup.empty
                                 "/m/a.js" "x" (Lookup.LVal (VNum 1))))
                         "/m/a.js" "x"))
                 "/m/b.js" "z" "./a"))
         "/m/b.js" "z")
  = Lookup.LVal (VNum 1).
Proof.
  exact (proj2 (proj2
    (lookup_default_import_reads_the_export
       (fun _ _ => Ok "/m/a.js") (fun x => x) []
       (fst (Lookup.doRegisterValue Lookup.empty
               "/m/a.js" "x" (Lookup.LVal (VNum 1))))
       "/m/a.js" "/m/b.js" "./a" "x" "z" (Lookup.LVal (VNum 1))
       ltac:(discriminate) eq_refl ltac:(discriminate) eq_refl))).
Defined.

(** ** Instances of the store properties *)

Lemma registerValue_writes_one_binding_witness :
  sget (ns_values (registerValue (registerValue empty_store "/m/a.js" "x" (VNum 1))
                                 "/m/a.js" "y" (VNum 2)) "/m/a.js") "x"
  = Some (VNum 1).
Proof.
  rewrite (proj1 (proj2 (registerValue_writes_one_binding
                           (registerValue empty_store "/m/a.js" "x" (VNum 1))
                           "/m/a.js" "y" (VNum 2)))
                 "/m/a.js" "x").
  - reflexivity.
  - right. discriminate.
Defined.

Lemma registerValue_last_writer_wins_witness :
  length (ns_values (registerValue
                       (registerValue empty_store "/m/a.js" "x" (VNum 1))
                       "/m/a.js" "x" (VNum 2)) "/m/a.js")
  = 1.
Proof.
  assert (H : sget (ns_values (registerValue empty_store "/m/a.js" "x" (VNum 1))
                              "/m/a.js") "x" <> None) by discriminate.
  rewrite (proj1 (proj2 (registerValue_last_writer_wins
                           (registerValue empty_store "/m/a.js" "x" (VNum 1))
                           "/m/a.js" "x" (VNum 1) (VNum 2)) H)).
  reflexivity.
Defined.

Lemma registerValueExport_one_per_key_witness :
  aget ekey_eqb
       (ns_exports (registerValueExport
                      (registerValueExport empty_store "/m/a.js" "x" KDefault)
                      "/m/a.js" "y" (KName "y")) "/m/a.js") KDefault
  = Some (mkExport KDefault "x").
Proof.
  rewrite (proj1 (proj2 (proj2 (registerValueExport_one_per_key
                           (registerValueExport empty_store "/m/a.js" "x" KDefault)
                           "/m/a.js" "y" "y" (KName "y"))))
                 "/m/a.js" KDefault).
  - reflexivity.
  - right. discriminate.
Defined.

(** * What the loop over the imports builds *)

(** A name the loop does not come across keeps what the accumulator has. *)
Lemma synthImports_other (h : Host) s ns entries x :
  forall acc w w' nsI,
    synthImports h s ns entries acc w = Done w' (Ok nsI) ->
    sget entries x = None -> sget nsI x = sget acc x.
Proof.
  induction entries as [|[l i] entries IH]; intros acc w w' nsI H He.
  - simpl in H. inversion H. now subst.
  - simpl in H. apply bind_ok_inv in H. destruct H as (v & w1 & _ & H).
    unfold sget in He. simpl in He.
    destruct (String.eqb x l) eqn:E; [discriminate|].
    rewrite (IH _ _ _ _ H He).
    apply sget_sset_neq. intros ->. now rewrite String.eqb_refl in E.
Qed.

(** When the loop over the imports ends with [nsI], each import record has
    been resolved, and [nsI] has its value under the record's name. *)
Lemma synthImports_binds (h : Host) s ns entries :
  forall acc w w' nsI l i,
    keys_unique entries ->
    In (l, i) entries ->
    synthImports h s ns entries acc w = Done w' (Ok nsI) ->
    exists v, importValue h s ns i w = Done w (Ok v) /\ sget nsI l = Some v.
Proof.
  induction entries as [|[l0 i0] entries IH]; intros acc w w' nsI l i Hu Hin H;
    [destruct Hin|].
  unfold keys_unique in Hu. simpl in Hu.
  inversion Hu as [|? ? Hnotin Hu']; subst.
  simpl in H. apply bind_ok_inv in H. destruct H as (v0 & w1 & Hv & H).
  pose proof (importValue_world _ _ _ _ _ _ _ Hv) as ->.
  destruct Hin as [Heq|Hin].
  - inversion Heq; subst. exists v0. split; [exact Hv|].
    rewrite (synthImports_other _ _ _ _ _ _ _ _ _ H (sget_notin _ _ Hnotin)).
    apply sget_sset_eq.
  - exact (IH _ _ _ _ _ _ Hu' Hin H).
Qed.

(** The loop over imports that are all user imports ends, with the world
    as it was. *)
Lemma synthImports_user_total (h : Host) s ns entries :
  forall acc w,
    (forall l i, In (l, i) entries -> isBuiltIn i = false) ->
    exists nsI, synthImports h s ns entries acc w = Done w (Ok nsI).
Proof.
  induction entries as [|[l i] entries IH]; intros acc w Hall.
  - eexists. reflexivity.
  - assert (Hi : isBuiltIn i = false) by (apply (Hall l); now left).
    assert (Hv : exists v, importValue h s ns i w = Done w (Ok v)).
    { unfold importValue. rewrite Hi. simpl.
      destruct (ekey_eqb (imported i) KNamespace); [eexists; reflexivity|].
      destruct (aget ekey_eqb _ _); eexists; reflexivity. }
    destruct Hv as [v Hv]. simpl. unfold bind at 1. rewrite Hv.
    apply IH. intros l' i' Hin. apply (Hall l'). now right.
Qed.

(** A name of the outer [with] object that is neither a binding of the
    namespace nor inherited by plain objects is what the name resolves
    to. *)
Lemma scope_lookup_import (h : Host) ns id ev nsI values x v :
  sget values x = None -> sget objectProto x = None ->
  sget nsI x = Some v ->
  scope_lookup (make_scope h ns id ev nsI values) x = Some v.
Proof.
  intros Hv Hp Hi. unfold scope_lookup, obj_find. simpl nsForScope.
  rewrite (sget_spread_none values [] x Hv eq_refl), Hp.
  simpl nsImportsForScope. now rewrite Hi.
Qed.



(** [import { v } from './a'; v] in [/m/d.js], nothing being known of
    [/m/a.js]: the call returns [undefined] and writes nothing to standard
    error. *)
Example named_user_import_example :
  exists w,
    evaluate Demo.host 1 "/m/d.js"
             [SImport "./a" [ImportSpecifier "v" "v"]; SExpr (EVar "v")]
             false empty_world
    = Done w (Ok VUndef)
    /\ stderr w = [].
Proof.
  exists (mkWorld
            (mkStore [] []
               [("/m/d.js",
                 [("v", mkImport "/m/a.js" (KName "v") "v" false)])])
            0 [] [[("exports", VExportsStub "/m/d.js")]]).
  split; reflexivity.
Qed.

(** When every record resolves, the loop over the imports ends. *)
Lemma synthImports_ok (h : Host) s ns entries :
  forall acc w,
    (forall l i, In (l, i) entries ->
                 exists v, importValue h s ns i w = Done w (Ok v)) ->
    exists nsI, synthImports h s ns entries acc w = Done w (Ok nsI).
Proof.
  induction entries as [|[l i] entries IH]; intros acc w Hall.
  - eexists. reflexivity.
  - destruct (Hall l i (or_introl eq_refl)) as [v Hv].
    simpl. unfold bind at 1. rewrite Hv.
    apply IH. intros l' i' Hin. apply (Hall l'). now right.
Qed.

Lemma importValue_builtin (h : Host) s ns i w v :
  isBuiltIn i = true ->
  importValue h s ns i w = Done w (Ok v) ->
  builtin_delivers h ns i w v.
Proof.
  intros Hb H. unfold importValue in H. rewrite Hb in H. simpl in H.
  unfold bind, lift in H.
  destruct (hostRequire h ns (importedNamespace i)) as [m|e] eqn:E;
    [|discriminate].
  exists m. split; [exact E|].
  destruct (imported i); [exact H| |]; inversion H; reflexivity.
Qed.




(** * [require] after [module.exports] *)

(** A name that no [with] object has resolves to the CommonJS stub of
    that name. *)
Lemma scope_lookup_stub (h : Host) ns id ev nsI values x v :
  sget values x = None -> sget objectProto x = None ->
  sget nsI x = None ->
  sget (helpers nsI (spread [] values)) x = None ->
  sget (cjsStubs h ns id ev) x = Some v ->
  scope_lookup (make_scope h ns id ev nsI values) x = Some v.
Proof.
  intros Hv Hp Hi Hh Hs. unfold scope_lookup, obj_find.
  simpl nsForScope. rewrite (sget_spread_none values [] x Hv eq_refl), Hp.
  simpl nsImportsForScope. rewrite Hi.
  simpl context. unfold make_context.
  rewrite (sget_spread _ _ _ (helpers_nodup nsI _)), Hh.
  now rewrite (sget_spread _ _ _ (cjsStubs_nodup h ns id ev)), Hs.
Qed.

Lemma evaluate_require_relative (h : Host) (fuel : nat) (D spec C : string)
    (ev : bool) (w : world) (m : value) :
  isAbsolute spec = false ->
  resolve h D spec = Ok C ->
  hostRequire h D C = Ok m ->
  left_to_context h w D "require" ->
  evaluate h (S fuel) D (Demo.require_of spec) ev w
  = Done (with_module_stub w D) (Ok m).
Proof.
  intros Ha Hr Hm (Hv & nsI & Hs & Hi). simpl.
  rewrite (evaluate_body_enters h (evaluate h fuel) D (Demo.require_of spec)
             ev w
             (make_scope h D (length (modules w)) ev nsI (ns_values (st w) D))
             [SReturn (ECall (EVar "require") [EConst (VStr spec)])]
             (with_module_stub w D)).
  - unfold run_wrapped. simpl. unfold bind, lift, ret, lookup. simpl.
    rewrite (scope_lookup_stub h D _ ev nsI _ "require"
               (VBuiltin (BRequire D ev)) Hv eq_refl Hi eq_refl eq_refl).
    simpl.
    rewrite (requireCustom_relative h (evaluate h fuel) D spec C ev _ Hr Ha).
    now rewrite Hm.
  - exists w, nsI. repeat split. exact Hs.
Qed.

Lemma evaluate_module_exports (h : Host) (fuel : nat) (C : string)
    (v : value) (ev : bool) (w : world) :
  left_to_context h w C "module" ->
  exists w1,
    evaluate h (S fuel) C (Demo.module_exports_assign v) ev w = Done w1 (Ok v)
    /\ default_export_value (st w1) C = v.
Proof.
  intros (Hv & nsI & Hs & Hi).
  destruct (module_exports_registers_default
              h C (length (modules w)) v (with_module_stub w C))
    as (w1 & Hset & Hd).
  exists w1. split; [|exact Hd]. simpl.
  rewrite (evaluate_body_enters h (evaluate h fuel) C
             (Demo.module_exports_assign v) ev w
             (make_scope h C (length (modules w)) ev nsI (ns_values (st w) C))
             [SReturn (EAssignMember (EVar "module") "exports" (EConst v))]
             (with_module_stub w C)).
  - unfold run_wrapped. simpl. unfold bind, lift, ret, lookup. simpl.
    rewrite (scope_lookup_stub h C _ ev nsI _ "module"
               (VModule C (length (modules w))) Hv eq_refl Hi eq_refl eq_refl).
    simpl. unfold moduleStub_set, bind, modify in Hset. simpl in Hset.
    unfold register_fresh_default, modify in Hset. simpl in Hset.
    inversion Hset; subst. reflexivity.
  - exists w, nsI. repeat split. exact Hs.
Qed.



